(** * BotBro: a shallow embedding of [src/bot.py]

    The development follows the layout of the source file: conversation
    memory, the status-edit helper, the calculator, the web search, the
    cleaning roster and finally the message handler with its bounded
    tool-calling loop.  Definitions come first, theorems afterwards.

    Conventions.
    - Text is a [string]: the bytes of its UTF-8 encoding.  The parsers of
      the source only ever look for ASCII characters (digits, operators,
      the directive keywords, blanks), and substring tests, replacement and
      concatenation commute with UTF-8 encoding.  Python's Unicode-aware
      classes (white space, digits, case folding) are modelled on their
      ASCII part.
    - Python integers are [Z].  Floating point is an interface
      ([PyFloat]): the source delegates it to the platform.
    - Everything outside the process (language model, chat transport, web
      search, clock, job queue) is an oracle of the environment [Env],
      indexed by the number of external calls made so far. *)

From Stdlib Require Import ZArith Lia Bool List String Ascii Permutation Sorted DecimalString.
From stdpp Require Import gmap strings list.

Open Scope string_scope.
Open Scope list_scope.

(** ** Python string operations *)

Module PyStr.

Definition code (c : ascii) : N := N_of_ascii c.

Definition bytes (l : list nat) : string :=
  string_of_list_ascii (map ascii_of_nat l).

Definition chr (n : N) : string := String (ascii_of_N n) "".

(** The newline and the double quote, which string literals avoid. *)
Definition NL : string := chr 10.
Definition DQ : string := chr 34.

Definition in_range (lo hi : N) (c : ascii) : bool :=
  ((lo <=? code c) && (code c <=? hi))%N.

(** [str.isspace] and the regular expression class [\s], ASCII part:
    TAB LF VT FF CR, the four separators FS GS RS US, and the blank. *)
Definition is_space (c : ascii) : bool :=
  in_range 9 13 c || in_range 28 31 c || (code c =? 32)%N.

Definition is_digit (c : ascii) : bool := in_range 48 57 c.

Definition lower (c : ascii) : ascii :=
  if in_range 65 90 c then ascii_of_N (code c + 32) else c.

Definition upper_char (c : ascii) : ascii :=
  if in_range 97 122 c then ascii_of_N (code c - 32) else c.

Fixpoint map_chars (f : ascii -> ascii) (s : string) : string :=
  match s with
  | "" => ""
  | String c r => String (f c) (map_chars f r)
  end.

(** [s.upper()] *)
Definition upper (s : string) : string := map_chars upper_char s.

Fixpoint filter_chars (keep : ascii -> bool) (s : string) : string :=
  match s with
  | "" => ""
  | String c r => if keep c then String c (filter_chars keep r) else filter_chars keep r
  end.

Fixpoint all_chars (p : ascii -> bool) (s : string) : bool :=
  match s with
  | "" => true
  | String c r => p c && all_chars p r
  end.

Fixpoint lstrip_by (p : ascii -> bool) (s : string) : string :=
  match s with
  | "" => ""
  | String c r => if p c then lstrip_by p r else s
  end.

Fixpoint rstrip_by (p : ascii -> bool) (s : string) : string :=
  match s with
  | "" => ""
  | String c r =>
      match rstrip_by p r with
      | "" => if p c then "" else String c ""
      | r' => String c r'
      end
  end.

Definition strip_by (p : ascii -> bool) (s : string) : string :=
  rstrip_by p (lstrip_by p s).

(** [s.strip()] *)
Definition strip (s : string) : string := strip_by is_space s.

Fixpoint mem_char (c : ascii) (chars : string) : bool :=
  match chars with
  | "" => false
  | String d r => Ascii.eqb c d || mem_char c r
  end.

(** [s.strip(chars)] *)
Definition strip_chars (chars s : string) : string :=
  strip_by (fun c => mem_char c chars) s.

(** [needle in s] *)
Fixpoint contains (needle s : string) : bool :=
  String.prefix needle s ||
  match s with
  | "" => false
  | String _ r => contains needle r
  end.

(** [s.replace(old, new)] for a non-empty [old]: occurrences are
    replaced from left to right and do not overlap; [skip] counts the
    characters of an occurrence still to be dropped. *)
Fixpoint replace_go (old new : string) (skip : nat) (s : string) : string :=
  match s with
  | "" => ""
  | String c r =>
      match skip with
      | S k => replace_go old new k r
      | O => if String.prefix old s
             then new +:+ replace_go old new (String.length old - 1) r
             else String c (replace_go old new 0 r)
      end
  end.

Definition replace (old new s : string) : string := replace_go old new 0 s.

(** [s.split(sep)] for a non-empty [sep]; [cur] is the field being read,
    reversed. *)
Fixpoint split_go (sep : string) (skip : nat) (cur : string) (s : string) : list string :=
  match s with
  | "" => [String.rev cur]
  | String c r =>
      match skip with
      | S k => split_go sep k cur r
      | O => if String.prefix sep s
             then String.rev cur :: split_go sep (String.length sep - 1) "" r
             else split_go sep 0 (String c cur) r
      end
  end.

Definition split (sep s : string) : list string := split_go sep 0 "" s.

(** [s.split()]: maximal runs of non-blank characters. *)
Fixpoint words_go (cur : option string) (s : string) : list string :=
  match s with
  | "" => match cur with Some w => [String.rev w] | None => [] end
  | String c r =>
      if is_space c
      then match cur with
           | Some w => String.rev w :: words_go None r
           | None => words_go None r
           end
      else words_go (Some (String c (default "" cur))) r
  end.

Definition words (s : string) : list string := words_go None s.

(** [s.split(' ', 1)]: at most one cut, at the first blank. *)
Fixpoint split_space_once (s : string) : string * option string :=
  match s with
  | "" => ("", None)
  | String c r =>
      if Ascii.eqb c " " then ("", Some r)
      else let '(a, b) := split_space_once r in (String c a, b)
  end.

(** ["\n".join(l)] and friends *)
Definition join (sep : string) (l : list string) : string := String.concat sep l.

(** [s.split("\n")] *)
Definition lines (s : string) : list string := split NL s.

(** A byte that continues a multi-byte UTF-8 character. *)
Definition is_continuation (c : ascii) : bool := in_range 128 191 c.

(** [s[:n]]: the first [n] characters (not bytes) of [s]. *)
Fixpoint take_chars_go (n : nat) (started : bool) (s : string) : string :=
  match s with
  | "" => ""
  | String c r =>
      if started && is_continuation c then String c (take_chars_go n true r)
      else match n with
           | O => ""
           | S k => String c (take_chars_go k true r)
           end
  end.

Definition take_chars (n : nat) (s : string) : string := take_chars_go n false s.

(** Decimal text of an integer, [str(z)]. *)
Definition str_of_Z (z : Z) : string := NilZero.string_of_int (Z.to_int z).

Definition digit_value (c : ascii) : Z := Z.of_N (code c) - 48.

(** Value of a run of decimal digits, most significant first. *)
Fixpoint digits_value_go (acc : Z) (s : string) : Z :=
  match s with
  | "" => acc
  | String c r => digits_value_go (10 * acc + digit_value c) r
  end.

Definition digits_value (s : string) : Z := digits_value_go 0 s.

(** [int(s)] on text without surrounding blanks: an optional sign and
    decimal digits, where single underscores may separate digits. *)
Fixpoint int_digits (prev_digit : bool) (acc : Z) (s : string) : option Z :=
  match s with
  | "" => if prev_digit then Some acc else None
  | String c r =>
      if is_digit c then int_digits true (10 * acc + digit_value c) r
      else if Ascii.eqb c "_" && prev_digit
           then match r with
                | String d _ => if is_digit d then int_digits false acc r else None
                | "" => None
                end
           else None
  end.

Definition int_of_string (s : string) : option Z :=
  match strip s with
  | String "-" r => Z.opp <$> int_digits false 0 r
  | String "+" r => int_digits false 0 r
  | r => int_digits false 0 r
  end.

End PyStr.

Import PyStr.

(** ** Exceptions *)

(** The exception classes that the modelled code can meet.  All but the
    last derive from [Exception]; [KeyboardInterrupt] stands for the
    classes that derive from [BaseException] only, which [except Exception]
    lets through and a bare [except:] catches. *)
Inductive exn :=
  | SyntaxError
  | ZeroDivisionError
  | OverflowError
  | TypeError
  | ValueError
  | AttributeError
  | BadRequest (msg : string)
  | TelegramError (msg : string)
  | BackendError (msg : string)
  | KeyboardInterrupt.

Definition is_Exception (e : exn) : bool :=
  match e with
  | KeyboardInterrupt => false
  | _ => true
  end.

(** [str(e)] for the exceptions whose text the code inspects or prints. *)
Definition exn_text (e : exn) : string :=
  match e with
  | SyntaxError => "invalid syntax"
  | ZeroDivisionError => "division by zero"
  | OverflowError => "result too large"
  | TypeError => "unsupported operand"
  | ValueError => "invalid value"
  | AttributeError => "'NoneType' object has no attribute"
  | BadRequest msg => msg
  | TelegramError msg => msg
  | BackendError msg => msg
  | KeyboardInterrupt => ""
  end.

(** A computation either returns or raises. *)
Inductive result (A : Type) :=
  | Ret (a : A)
  | Raise (e : exn).
Arguments Ret {A} a.
Arguments Raise {A} e.

Definition bind {A B} (r : result A) (k : A -> result B) : result B :=
  match r with
  | Ret a => k a
  | Raise e => Raise e
  end.

Notation "'let*' x ':=' r 'in' k" := (bind r (fun x => k))
  (at level 10, x pattern, r at level 100, k at level 200).

(** [try: body / except Exception: handler] *)
Definition try_except_Exception {A} (body : result A) (handler : exn -> result A) : result A :=
  match body with
  | Ret a => Ret a
  | Raise e => if is_Exception e then handler e else Raise e
  end.

(** ** Conversation memory (lines 48-56) *)

Record Turn := { role : string; content : string }.

(** [deque(maxlen=n).append(x)]: the element is added on the right and,
    if the deque then holds more than [maxlen] elements, the leftmost one
    is dropped. *)
Definition deque_append {A} (maxlen : nat) (d : list A) (x : A) : list A :=
  let d' := d ++ [x] in
  if bool_decide (maxlen < length d') then tail d' else d'.

(** [session_memory.setdefault(chat_id, deque(maxlen=10)).append({...})] *)
Definition update_memory (chat_id : Z) (r c : string)
    (session_memory : gmap Z (list Turn)) : gmap Z (list Turn) :=
  <[chat_id := deque_append 10 (default [] (session_memory !! chat_id))
                 {| role := r; content := c |}]> session_memory.

(** [list(session_memory.get(chat_id, []))] *)
Definition get_memory (chat_id : Z) (session_memory : gmap Z (list Turn)) : list Turn :=
  default [] (session_memory !! chat_id).

(** ** Floating point and integer limits of the platform *)

(** What [float ** float] can do. *)
Inductive pow_outcome (F : Type) :=
  | PowFloat (f : F)
  | PowComplex
  | PowZeroDivision
  | PowOverflow.
Arguments PowFloat {F} f.
Arguments PowComplex {F}.
Arguments PowZeroDivision {F}.
Arguments PowOverflow {F}.

(** The operations on [float] that the source uses, as CPython hands them
    to the C library, and the interpreter's cap on integer/text
    conversion.  [None] is the documented exception of the operation. *)
Class PyRuntime (F : Type) := {
  (** a float literal [digits.digits]; too large a literal is [inf] *)
  float_of_literal : string -> F;
  (** [float(s)]; [None] is [ValueError] *)
  float_of_string : string -> option F;
  (** [float(z)]; [None] is [OverflowError] *)
  float_of_int : Z -> option F;
  (** [a / b] on integers, [b] not zero; [None] is [OverflowError] *)
  int_truediv : Z -> Z -> option F;
  float_is_zero : F -> bool;
  float_neg : F -> F;
  float_add : F -> F -> F;
  float_sub : F -> F -> F;
  float_mul : F -> F -> F;
  (** divisor not zero *)
  float_div : F -> F -> F;
  float_floordiv : F -> F -> F;
  float_pow : F -> F -> pow_outcome F;
  (** [round(x, 4)] *)
  float_round4 : F -> F;
  (** [str(x)] *)
  float_repr : F -> string;
  (** [sys.get_int_max_str_digits()]; 0 switches the cap off, as it is
      before Python 3.11 *)
  int_max_str_digits : N;
}.

(** ** The calculator (lines 74-81) *)

Module Calc.

(** The characters that [re.sub(r"[^0-9+\-*/(). ]", "", expr)] keeps. *)
Definition allowed (c : ascii) : bool :=
  is_digit c || mem_char c "+-*/(). ".

Definition sanitize (expr : string) : string := filter_chars allowed expr.

(** *** Tokens of Python over that alphabet *)

Inductive token :=
  | TInt (digits : string)
  | TFloat (text : string)
  | TPlus | TMinus | TStar | TDoubleStar | TSlash | TDoubleSlash
  | TLpar | TRpar | TDot | TEllipsis.

(** What the tokenizer has read of the token in progress (reversed). *)
Inductive lex_state :=
  | LStart
  | LInt (rev_digits : string)
  | LFrac (rev_text : string)
  | LStar
  | LSlash
  | LDot
  | LDotDot.

(** Tokens that end with the end of the token in progress. *)
Definition flush (st : lex_state) : list token :=
  match st with
  | LStart => []
  | LInt ds => [TInt (String.rev ds)]
  | LFrac t => [TFloat (String.rev t)]
  | LStar => [TStar]
  | LSlash => [TSlash]
  | LDot => [TDot]
  | LDotDot => [TDot; TDot]
  end.

(** One character: the tokens completed by it and the new state.
    [None] is a character that starts no token. *)
Definition lex_step (st : lex_state) (c : ascii) : option (list token * lex_state) :=
  if is_digit c then
    Some match st with
         | LInt ds => ([], LInt (String c ds))
         | LFrac t => ([], LFrac (String c t))
         | LDot => ([], LFrac (String c "."))
         | LDotDot => ([TDot], LFrac (String c "."))
         | _ => (flush st, LInt (String c ""))
         end
  else if Ascii.eqb c "." then
    Some match st with
         | LInt ds => ([], LFrac (String "." ds))
         | LDot => ([], LDotDot)
         | LDotDot => ([TEllipsis], LStart)
         | _ => (flush st, LDot)
         end
  else if Ascii.eqb c "*" then
    Some match st with
         | LStar => ([TDoubleStar], LStart)
         | _ => (flush st, LStar)
         end
  else if Ascii.eqb c "/" then
    Some match st with
         | LSlash => ([TDoubleSlash], LStart)
         | _ => (flush st, LSlash)
         end
  else if Ascii.eqb c "+" then Some (flush st ++ [TPlus], LStart)
  else if Ascii.eqb c "-" then Some (flush st ++ [TMinus], LStart)
  else if Ascii.eqb c "(" then Some (flush st ++ [TLpar], LStart)
  else if Ascii.eqb c ")" then Some (flush st ++ [TRpar], LStart)
  else if Ascii.eqb c " " then Some (flush st, LStart)
  else None.

Fixpoint lex (st : lex_state) (s : string) : option (list token) :=
  match s with
  | "" => Some (flush st)
  | String c r =>
      match lex_step st c with
      | Some (out, st') => app out <$> lex st' r
      | None => None
      end
  end.

(** An integer literal is a run of zeros or starts with a non-zero
    digit. *)
Definition int_literal_ok (digits : string) : bool :=
  all_chars (fun c => Ascii.eqb c "0") digits ||
  match digits with
  | String c _ => negb (Ascii.eqb c "0")
  | "" => false
  end.

Definition token_ok (t : token) : bool :=
  match t with
  | TInt ds => int_literal_ok ds
  | _ => true
  end.

(** The token list of a source line.  A line that starts with a blank
    is indented, which an expression may not be. *)
Definition tokenize (s : string) : result (list token) :=
  match s with
  | String " " _ => Raise SyntaxError
  | _ =>
      match lex LStart s with
      | Some ts => if forallb token_ok ts then Ret ts else Raise SyntaxError
      | None => Raise SyntaxError
      end
  end.

(** *** Abstract syntax, as [ast.parse(_, mode='eval')] builds it *)

Inductive operator := Add | Sub | Mult | Div | FloorDiv | Pow.
Inductive unaryop := UAdd | USub.
Inductive constant := CInt (digits : string) | CFloat (text : string) | CEllipsis.
(** how the one argument of a call is passed: [f(x)], [f( *x)], [f( **x)] *)
Inductive argkind := Positional | Star | DoubleStar.

Inductive expr :=
  | Constant (value : constant)
  | BinOp (left : expr) (op : operator) (right : expr)
  | UnaryOp (op : unaryop) (operand : expr)
  | EmptyTuple
  | CallNoArgs (func : expr)
  | Call (func : expr) (kind : argkind) (arg : expr).

Inductive parsed :=
  | Parsed (e : expr) (rest : list token)
  | NoParse
  | OutOfFuel.

Definition andthen (p : parsed) (k : expr -> list token -> parsed) : parsed :=
  match p with
  | Parsed e rest => k e rest
  | NoParse => NoParse
  | OutOfFuel => OutOfFuel
  end.

Definition expect_rpar (p : parsed) (k : expr -> list token -> parsed) : parsed :=
  andthen p (fun e rest =>
    match rest with
    | TRpar :: rest' => k e rest'
    | _ => NoParse
    end).

(** Recursive descent over Python's expression grammar, restricted to
    the tokens above:
<<
    sum     := term (('+' | '-') term)*
    term    := factor (('*' | '/' | '//') factor)*
    factor  := ('+' | '-') factor | power
    power   := primary ['**' factor]
    primary := atom ('(' [arg] ')')*
    arg     := sum | '*' sum | '**' sum
    atom    := NUMBER | '...' | '(' ')' | '(' sum ')'
>>
    Every call spends one unit of [fuel]. *)
Fixpoint parse_sum (fuel : nat) (ts : list token) : parsed :=
  match fuel with
  | O => OutOfFuel
  | S n => andthen (parse_term n ts) (sum_rest n)
  end
with sum_rest (fuel : nat) (l : expr) (ts : list token) : parsed :=
  match fuel with
  | O => OutOfFuel
  | S n =>
      match ts with
      | TPlus :: ts' => andthen (parse_term n ts') (fun r => sum_rest n (BinOp l Add r))
      | TMinus :: ts' => andthen (parse_term n ts') (fun r => sum_rest n (BinOp l Sub r))
      | _ => Parsed l ts
      end
  end
with parse_term (fuel : nat) (ts : list token) : parsed :=
  match fuel with
  | O => OutOfFuel
  | S n => andthen (parse_factor n ts) (term_rest n)
  end
with term_rest (fuel : nat) (l : expr) (ts : list token) : parsed :=
  match fuel with
  | O => OutOfFuel
  | S n =>
      match ts with
      | TStar :: ts' => andthen (parse_factor n ts') (fun r => term_rest n (BinOp l Mult r))
      | TSlash :: ts' => andthen (parse_factor n ts') (fun r => term_rest n (BinOp l Div r))
      | TDoubleSlash :: ts' =>
          andthen (parse_factor n ts') (fun r => term_rest n (BinOp l FloorDiv r))
      | _ => Parsed l ts
      end
  end
with parse_factor (fuel : nat) (ts : list token) : parsed :=
  match fuel with
  | O => OutOfFuel
  | S n =>
      match ts with
      | TPlus :: ts' => andthen (parse_factor n ts') (fun e => Parsed (UnaryOp UAdd e))
      | TMinus :: ts' => andthen (parse_factor n ts') (fun e => Parsed (UnaryOp USub e))
      | _ => parse_power n ts
      end
  end
with parse_power (fuel : nat) (ts : list token) : parsed :=
  match fuel with
  | O => OutOfFuel
  | S n =>
      andthen (parse_primary n ts) (fun b rest =>
        match rest with
        | TDoubleStar :: rest' =>
            andthen (parse_factor n rest') (fun e => Parsed (BinOp b Pow e))
        | _ => Parsed b rest
        end)
  end
with parse_primary (fuel : nat) (ts : list token) : parsed :=
  match fuel with
  | O => OutOfFuel
  | S n => andthen (parse_atom n ts) (trailers n)
  end
with trailers (fuel : nat) (f : expr) (ts : list token) : parsed :=
  match fuel with
  | O => OutOfFuel
  | S n =>
      match ts with
      | TLpar :: TRpar :: ts' => trailers n (CallNoArgs f) ts'
      | TLpar :: TStar :: ts' =>
          expect_rpar (parse_sum n ts') (fun a => trailers n (Call f Star a))
      | TLpar :: TDoubleStar :: ts' =>
          expect_rpar (parse_sum n ts') (fun a => trailers n (Call f DoubleStar a))
      | TLpar :: ts' =>
          expect_rpar (parse_sum n ts') (fun a => trailers n (Call f Positional a))
      | _ => Parsed f ts
      end
  end
with parse_atom (fuel : nat) (ts : list token) : parsed :=
  match fuel with
  | O => OutOfFuel
  | S n =>
      match ts with
      | TInt ds :: ts' => Parsed (Constant (CInt ds)) ts'
      | TFloat t :: ts' => Parsed (Constant (CFloat t)) ts'
      | TEllipsis :: ts' => Parsed (Constant CEllipsis) ts'
      | TLpar :: TRpar :: ts' => Parsed EmptyTuple ts'
      | TLpar :: ts' => expect_rpar (parse_sum n ts') Parsed
      | _ => NoParse
      end
  end.

(** Fuel that no token list exhausts (see [parse_fuel_enough]). *)
Definition parse_fuel (ts : list token) : nat := 9 * length ts + 9.

(** [ast.parse(s, mode='eval')]: the whole line must be one expression. *)
Definition parse_tokens (ts : list token) : result expr :=
  match parse_sum (parse_fuel ts) ts with
  | Parsed e [] => Ret e
  | _ => Raise SyntaxError
  end.

Definition ast_parse (s : string) : result expr :=
  let* ts := tokenize s in parse_tokens ts.

End Calc.

Module CalcEval.
Import Calc.

Section Eval.
Context {F : Type} {RT : PyRuntime F}.

(** Values that expressions over the calculator alphabet can take.
    A complex number arises from a negative base with a fractional
    exponent; only its type matters afterwards, since no operation of
    the alphabet turns it back into a real number and [round] rejects
    it. *)
Inductive value :=
  | VInt (z : Z)
  | VFloat (f : F)
  | VComplex
  | VTuple
  | VEllipsis.

Definition opt_or {A} (o : option A) (e : exn) : result A :=
  match o with
  | Some a => Ret a
  | None => Raise e
  end.

(** Number of digits within the interpreter's cap. *)
Definition within_cap (digits : nat) : bool :=
  (int_max_str_digits =? 0)%N || (N.of_nat digits <=? int_max_str_digits)%N.

(** The operand as a C double, as the float operations receive it. *)
Definition as_float (v : value) : result (option F) :=
  match v with
  | VInt z => let* f := opt_or (float_of_int z) OverflowError in Ret (Some f)
  | VFloat f => Ret (Some f)
  | _ => Ret None
  end.

Definition is_number (v : value) : bool :=
  match v with
  | VInt _ | VFloat _ => true
  | _ => false
  end.

(** [a op b] for the operators that floats implement directly. *)
Definition float_arith (fop : F -> F -> F) (a b : value) : result value :=
  let* x := as_float a in
  let* y := as_float b in
  match x, y with
  | Some x, Some y => Ret (VFloat (fop x y))
  | _, _ => Raise TypeError
  end.

(** Arithmetic with a complex operand: the other operand must be a
    number, and an integer must fit a double. *)
Definition complex_arith (a b : value) : result value :=
  match a, b with
  | VComplex, VComplex => Ret VComplex
  | VComplex, (VInt _ | VFloat _) => let* _ := as_float b in Ret VComplex
  | (VInt _ | VFloat _), VComplex => let* _ := as_float a in Ret VComplex
  | _, _ => Raise TypeError
  end.

Definition is_complex (v : value) : bool :=
  match v with VComplex => true | _ => false end.

Definition eval_binop (op : operator) (a b : value) : result value :=
  if is_complex a || is_complex b then
    match op with
    | FloorDiv => Raise TypeError
    | _ => complex_arith a b
    end
  else
  match op with
  | Add =>
      match a, b with
      | VInt x, VInt y => Ret (VInt (x + y))
      | VTuple, VTuple => Ret VTuple
      | _, _ => float_arith float_add a b
      end
  | Sub =>
      match a, b with
      | VInt x, VInt y => Ret (VInt (x - y))
      | _, _ => float_arith float_sub a b
      end
  | Mult =>
      match a, b with
      | VInt x, VInt y => Ret (VInt (x * y))
      | VTuple, VInt _ | VInt _, VTuple => Ret VTuple
      | _, _ => float_arith float_mul a b
      end
  | Div =>
      match a, b with
      | VInt x, VInt y =>
          if (y =? 0)%Z then Raise ZeroDivisionError
          else let* f := opt_or (int_truediv x y) OverflowError in Ret (VFloat f)
      | _, _ =>
          let* x := as_float a in
          let* y := as_float b in
          match x, y with
          | Some x, Some y =>
              if float_is_zero y then Raise ZeroDivisionError
              else Ret (VFloat (float_div x y))
          | _, _ => Raise TypeError
          end
      end
  | FloorDiv =>
      match a, b with
      | VInt x, VInt y =>
          if (y =? 0)%Z then Raise ZeroDivisionError else Ret (VInt (x / y))
      | _, _ =>
          let* x := as_float a in
          let* y := as_float b in
          match x, y with
          | Some x, Some y =>
              if float_is_zero y then Raise ZeroDivisionError
              else Ret (VFloat (float_floordiv x y))
          | _, _ => Raise TypeError
          end
      end
  | Pow =>
      match a, b with
      | VInt x, VInt y =>
          if (0 <=? y)%Z then Ret (VInt (x ^ y))
          else
            let* fx := opt_or (float_of_int x) OverflowError in
            let* fy := opt_or (float_of_int y) OverflowError in
            match float_pow fx fy with
            | PowFloat f => Ret (VFloat f)
            | PowComplex => Ret VComplex
            | PowZeroDivision => Raise ZeroDivisionError
            | PowOverflow => Raise OverflowError
            end
      | _, _ =>
          let* x := as_float a in
          let* y := as_float b in
          match x, y with
          | Some x, Some y =>
              match float_pow x y with
              | PowFloat f => Ret (VFloat f)
              | PowComplex => Ret VComplex
              | PowZeroDivision => Raise ZeroDivisionError
              | PowOverflow => Raise OverflowError
              end
          | _, _ => Raise TypeError
          end
      end
  end.

Definition eval_unaryop (op : unaryop) (v : value) : result value :=
  match v, op with
  | VInt z, UAdd => Ret (VInt z)
  | VInt z, USub => Ret (VInt (- z))
  | VFloat f, UAdd => Ret (VFloat f)
  | VFloat f, USub => Ret (VFloat (float_neg f))
  | VComplex, _ => Ret VComplex
  | _, _ => Raise TypeError
  end.

Definition eval_constant (c : constant) : value :=
  match c with
  | CInt ds => VInt (digits_value ds)
  | CFloat t => VFloat (float_of_literal t)
  | CEllipsis => VEllipsis
  end.

(** [eval(compile(tree, '', 'eval'))].  Operands are evaluated left to
    right; a call evaluates the callee and the argument and then fails,
    because no value here is callable. *)
Fixpoint eval (e : expr) : result value :=
  match e with
  | Constant c => Ret (eval_constant c)
  | BinOp l op r =>
      let* a := eval l in
      let* b := eval r in
      eval_binop op a b
  | UnaryOp op x => let* v := eval x in eval_unaryop op v
  | EmptyTuple => Ret VTuple
  | CallNoArgs f => let* _ := eval f in Raise TypeError
  | Call f _ a =>
      let* _ := eval f in
      let* _ := eval a in
      Raise TypeError
  end.

(** Integer literals longer than the cap do not compile. *)
Fixpoint literals_within_cap (e : expr) : bool :=
  match e with
  | Constant (CInt ds) => within_cap (String.length ds)
  | Constant _ => true
  | BinOp l _ r => literals_within_cap l && literals_within_cap r
  | UnaryOp _ x => literals_within_cap x
  | EmptyTuple => true
  | CallNoArgs f => literals_within_cap f
  | Call f _ a => literals_within_cap f && literals_within_cap a
  end.

(** [str(round(v, 4))]: an integer rounds to itself, a float is
    rounded by the platform, every other type has no [__round__]. *)
Definition str_round4 (v : value) : result string :=
  match v with
  | VInt z =>
      if within_cap (String.length (str_of_Z (Z.abs z)))
      then Ret (str_of_Z z) else Raise ValueError
  | VFloat f => Ret (float_repr (float_round4 f))
  | VComplex | VTuple | VEllipsis => Raise TypeError
  end.

(** The body of the [try] in [tool_calc]. *)
Definition calc_body (expr : string) : result string :=
  let clean := sanitize expr in
  let* tree := ast_parse clean in
  let* _ := (if literals_within_cap tree then Ret tt else Raise SyntaxError) in
  let* v := eval tree in
  str_round4 v.

Definition MATH_ERROR : string :=
  "Math error. Schei" +:+ bytes [195; 131; 197; 184]%nat +:+ "e.".

Definition tool_calc (expr : string) : result string :=
  try_except_Exception (calc_body expr) (fun _ => Ret MATH_ERROR).

End Eval.
Arguments value F : clear implicits.
End CalcEval.

(** ** Web search (lines 86-115) *)

Module WebSearch.

(** What the search provider did with a query: the hits of its news and
    text sources (each hit a dictionary of text fields), no answer
    within the ten seconds allowed, or an error with its text. *)
Inductive provider_outcome :=
  | Hits (news text : list (gmap string string))
  | TimedOut
  | Failed (reason : string).

(** [r.get("title", "")] *)
Definition hit_title (r : gmap string string) : string :=
  default "" (r !! "title").

(** [r.get("body") or r.get("snippet", "")] *)
Definition hit_body (r : gmap string string) : string :=
  match r !! "body" with
  | Some (String c b) => String c b
  | _ => default "" (r !! "snippet")
  end.

Definition signature (title body : string) : string * string :=
  (take_chars 20 title, take_chars 20 body).

Definition entry (title body : string) : string :=
  "- " +:+ title +:+ ": " +:+ body.

(** The loop over [raw]: [seen] and [results] are the two accumulators
    of the source. *)
Fixpoint collect (raw : list (gmap string string)) (seen : gset (string * string))
    (results : list string) : list string :=
  match raw with
  | [] => results
  | r :: raw' =>
      let title := hit_title r in
      let body := hit_body r in
      if String.eqb body "" then collect raw' seen results
      else if decide (signature title body ∈ seen) then collect raw' seen results
      else collect raw' ({[signature title body]} ∪ seen) (results ++ [entry title body])
  end.

Definition NO_RESULTS : string := "No results found. Nichts.".
Definition SEARCH_TIMEOUT : string := "Search timed out. Internet is kaputt.".

(** The inner function [_search]. *)
Definition _search (news text : list (gmap string string)) : string :=
  let results := collect (news ++ text) ∅ [] in
  match results with
  | [] => NO_RESULTS
  | _ => join NL (take 3 results)
  end.

Definition tool_search (o : provider_outcome) : string :=
  match o with
  | Hits news text => _search news text
  | TimedOut => SEARCH_TIMEOUT
  | Failed reason => "Search failed: " +:+ reason
  end.

End WebSearch.

(** ** Cleaning roster (lines 120-231) *)

Module Schedule.

Open Scope Z_scope.

(** *** Calendar arithmetic of [datetime] *)

Record datetime := {
  year : Z; month : Z; day : Z;
  hour : Z; minute : Z; second : Z; microsecond : Z
}.

Definition is_leap (y : Z) : bool :=
  (y mod 4 =? 0) && (negb (y mod 100 =? 0) || (y mod 400 =? 0)).

Definition days_in_month (y m : Z) : Z :=
  if m =? 2 then (if is_leap y then 29 else 28)
  else if (m =? 4) || (m =? 6) || (m =? 9) || (m =? 11) then 30
  else 31.

(** The dates that the constructor [datetime(y, m, d)] accepts. *)
Definition valid_date (y m d : Z) : bool :=
  (1 <=? y) && (y <=? 9999) && (1 <=? m) && (m <=? 12) &&
  (1 <=? d) && (d <=? days_in_month y m).

Definition date (y m d : Z) : option datetime :=
  if valid_date y m d
  then Some {| year := y; month := m; day := d;
               hour := 0; minute := 0; second := 0; microsecond := 0 |}
  else None.

(** [d.replace(year=y)] *)
Definition replace_year (d : datetime) (y : Z) : option datetime :=
  if valid_date y (month d) (day d)
  then Some {| year := y; month := month d; day := day d;
               hour := hour d; minute := minute d; second := second d;
               microsecond := microsecond d |}
  else None.

Definition days_before_year (y : Z) : Z :=
  let p := y - 1 in p * 365 + p / 4 - p / 100 + p / 400.

Fixpoint days_before_month_go (y : Z) (m : nat) : Z :=
  match m with
  | O => 0
  | S k => days_before_month_go y k + days_in_month y (Z.of_nat (S k))
  end.

Definition days_before_month (y m : Z) : Z :=
  days_before_month_go y (Z.to_nat (m - 1)).

(** [d.toordinal()]: January 1 of year 1 is day 1. *)
Definition toordinal (d : datetime) : Z :=
  days_before_year (year d) + days_before_month (year d) (month d) + day d.

Definition microseconds (d : datetime) : Z :=
  ((toordinal d * 86400 + hour d * 3600 + minute d * 60 + second d) * 1000000)
  + microsecond d.

(** [(d - now).days]: a [timedelta] keeps its seconds and microseconds
    non-negative, so its days are the difference rounded down. *)
Definition delta_days (d now : datetime) : Z :=
  (microseconds d - microseconds now) / 86400000000.

(** *** The roster *)

Definition CLEANING_DATA : string := join NL [
  "Date Range,Kitchen,WC + Floor";
  "Jan 03 - 04,member3,member4";
  "Jan 10 - 11,member1,member2";
  "Jan 17 - 18,member4,member3";
  "Jan 24 - 25,member2,member1";
  "Jan 31 - Feb 01,member3,member4";
  "Feb 07 - 08,member1,member2";
  "Feb 14 - 15,member4,member3";
  "Feb 21 - 22,member2,member1";
  "Feb 28 - Mar 01,member3,member4";
  "Mar 07 - 08,member1,member2";
  "Mar 14 - 15,member4,member3";
  "Mar 21 - 22,member2,member1";
  "Mar 28 - 29,member3,member4";
  "Apr 04 - 05,member1,member2";
  "Apr 11 - 12,member4,member3";
  "Apr 18 - 19,member2,member1";
  "Apr 25 - 26,member3,member4";
  "May 02 - 03,member1,member2";
  "May 09 - 10,member4,member3";
  "May 16 - 17,member2,member1";
  "May 23 - 24,member3,member4";
  "May 30 - 31,member1,member2";
  "Jun 06 - 07,member4,member3";
  "Jun 13 - 14,member2,member1";
  "Jun 20 - 21,member3,member4";
  "Jun 27 - 28,member1,member2";
  "Jul 04 - 05,member4,member3";
  "Jul 11 - 12,member2,member1";
  "Jul 18 - 19,member3,member4";
  "Jul 25 - 26,member1,member2";
  "Aug 01 - 02,member4,member3";
  "Aug 08 - 09,member2,member1";
  "Aug 15 - 16,member3,member4";
  "Aug 22 - 23,member1,member2";
  "Aug 29 - 30,member4,member3";
  "Sep 05 - 06,member2,member1";
  "Sep 12 - 13,member3,member4";
  "Sep 19 - 20,member1,member2";
  "Sep 26 - 27,member4,member3";
  "Oct 03 - 04,member2,member1";
  "Oct 10 - 11,member3,member4";
  "Oct 17 - 18,member1,member2";
  "Oct 24 - 25,member4,member3";
  "Oct 31 - Nov 01,member2,member1";
  "Nov 07 - 08,member3,member4";
  "Nov 14 - 15,member1,member2";
  "Nov 21 - 22,member4,member3";
  "Nov 28 - 29,member2,member1";
  "Dec 05 - 06,member3,member4";
  "Dec 12 - 13,member1,member2";
  "Dec 19 - 20,member4,member3";
  "Dec 26 - 27,member2,member1" ].

Definition MONTH_MAP : gmap string Z := list_to_map [
  ("Jan", 1); ("Feb", 2); ("Mar", 3); ("Apr", 4); ("May", 5); ("Jun", 6);
  ("Jul", 7); ("Aug", 8); ("Sep", 9); ("Oct", 10); ("Nov", 11); ("Dec", 12) ].

Definition USER_MAP : gmap string string := list_to_map [
  ("member3", "@member3"); ("member4", "@member4");
  ("member1", "@member1"); ("member2", "@member2") ].

(** [csv.DictReader(StringIO(text))] on text without quoting: the first
    line names the columns, every other non-empty line is a row keyed by
    them. *)
Definition DictReader (text : string) : list (gmap string string) :=
  match lines text with
  | [] => []
  | header :: rows =>
      let names := split "," header in
      map (fun line => list_to_map (zip names (split "," line)))
          (filter (fun line => line ≠ "") rows)
  end.

(** [row[key]] for a column of the header *)
Definition field (row : gmap string string) (key : string) : string :=
  default "" (row !! key).

(** [parse_schedule_date]; [None] is both its [return None] and its
    [except Exception: return None]. *)
Definition parse_schedule_date (now : datetime) (date_range : string) : option datetime :=
  let y := year now in
  let first_part := strip (hd "" (split " - " date_range)) in
  match words first_part with
  | [month_str; day_str] =>
      match MONTH_MAP !! month_str with
      | None => None
      | Some m =>
          if m =? 0 then None else
          match int_of_string day_str with
          | None => None
          | Some dd =>
              match date y m dd with
              | None => None
              | Some d =>
                  if (month now =? 12) && (month d =? 1) then replace_year d (y + 1)
                  else if (month now =? 1) && (month d =? 12) then replace_year d (y - 1)
                  else Some d
              end
          end
      end
  | _ => None
  end.

(** [list.sort(key=...)] is stable: among equal keys the earlier element
    stays first. *)
Fixpoint insert_by_key {A} (x : Z * A) (l : list (Z * A)) : list (Z * A) :=
  match l with
  | [] => [x]
  | y :: l' => if x.1 <=? y.1 then x :: l else y :: insert_by_key x l'
  end.

Definition sort_by_key {A} (l : list (Z * A)) : list (Z * A) :=
  foldr insert_by_key [] l.

(** The loop that fills [future]. *)
Definition in_window (delta : Z) : bool := (-2 <=? delta) && (delta <=? 30).

Definition candidate (now : datetime) (row : gmap string string)
    : list (Z * gmap string string) :=
  match parse_schedule_date now (field row "Date Range") with
  | None => []
  | Some d =>
      let delta := delta_days d now in
      if in_window delta then [(delta, row)] else []
  end.

Definition future_rows (now : datetime) (rows : list (gmap string string))
    : list (Z * gmap string string) :=
  flat_map (candidate now) rows.

(** [USER_MAP.get(name, name)] *)
Definition display_name (name : string) : string :=
  default name (USER_MAP !! name).

Definition SCHEDULE_HEADER : string :=
  bytes [195; 176; 197; 184; 226; 128; 156; 226; 128; 185]%nat
  +:+ " **Cleaning Schedule:**" +:+ NL.

Definition render (r : gmap string string) : string :=
  NL +:+ bytes [195; 176; 197; 184; 226; 128; 148; 226; 128; 156]%nat
     +:+ " **" +:+ field r "Date Range" +:+ "**" +:+ NL
  +:+ "   " +:+ bytes [195; 176; 197; 184; 194; 179]%nat
     +:+ " Kitchen: " +:+ display_name (field r "Kitchen") +:+ NL
  +:+ "   " +:+ bytes [195; 176; 197; 184; 197; 161; 194; 189]%nat
     +:+ " WC: " +:+ display_name (field r "WC + Floor") +:+ NL.

Definition NO_SCHEDULE : string := "No upcoming schedule found.".

(** The rows shown: [future[:3]] after the sort. *)
Definition shown (now : datetime) (rows : list (gmap string string))
    : list (Z * gmap string string) :=
  take 3 (sort_by_key (future_rows now rows)).

Definition check_schedule (now : datetime) (rows : list (gmap string string)) : string :=
  match future_rows now rows with
  | [] => NO_SCHEDULE
  | _ => SCHEDULE_HEADER +:+ String.concat "" (map (fun x => render x.2) (shown now rows))
  end.

(** [tool_check_schedule], with the reading of the clock as argument. *)
Definition tool_check_schedule (now : datetime) : string :=
  check_schedule now (DictReader CLEANING_DATA).

(** *** The readings of the clock

    The definitions above take one reading of the clock as argument.
    The source reads the clock again and again: once in
    [tool_check_schedule] (line 206) and, in [parse_schedule_date], for
    every row once for the year (line 185) and, if the label gave a date
    of that year, once more for the year boundary (line 195).  A
    computation that reads the clock is a tree: a value, or a reading
    and what is done with it. *)
Inductive clocked (A : Type) : Type :=
  | Done (a : A)
  | Now (k : datetime -> clocked A).
Arguments Done {A} a.
Arguments Now {A} k.

Fixpoint clocked_bind {A B} (m : clocked A) (f : A -> clocked B) : clocked B :=
  match m with
  | Done a => f a
  | Now k => Now (fun now => clocked_bind (k now) f)
  end.

(** [parse_schedule_date] with its readings: [year] is of the first
    reading, the months of the boundary test are of the second. *)
Definition parse_schedule_date_clocked (date_range : string) : clocked (option datetime) :=
  Now (fun now1 =>
    let y := year now1 in
    let first_part := strip (hd "" (split " - " date_range)) in
    match words first_part with
    | [month_str; day_str] =>
        match MONTH_MAP !! month_str with
        | None => Done None
        | Some m =>
            if m =? 0 then Done None else
            match int_of_string day_str with
            | None => Done None
            | Some dd =>
                match date y m dd with
                | None => Done None
                | Some d =>
                    Now (fun now =>
                      Done (if (month now =? 12) && (month d =? 1)
                            then replace_year d (y + 1)
                            else if (month now =? 1) && (month d =? 12)
                            then replace_year d (y - 1)
                            else Some d))
                end
            end
        end
    | _ => Done None
    end).

(** What one row adds to [future], given the date of its label. *)
Definition candidate_of (now : datetime) (row : gmap string string) (d : option datetime)
    : list (Z * gmap string string) :=
  match d with
  | None => []
  | Some d =>
      let delta := delta_days d now in
      if in_window delta then [(delta, row)] else []
  end.

(** The loop over the rows; [now] is the reading of line 206. *)
Fixpoint future_clocked (now : datetime) (rows : list (gmap string string))
    (future : list (Z * gmap string string)) : clocked (list (Z * gmap string string)) :=
  match rows with
  | [] => Done future
  | row :: rows' =>
      clocked_bind (parse_schedule_date_clocked (field row "Date Range"))
        (fun d => future_clocked now rows' (future ++ candidate_of now row d))
  end.

(** Lines 220-231: the text for the rows collected. *)
Definition schedule_text (future : list (Z * gmap string string)) : string :=
  match future with
  | [] => NO_SCHEDULE
  | _ =>
      SCHEDULE_HEADER
      +:+ String.concat "" (map (fun x => render x.2) (take 3 (sort_by_key future)))
  end.

(** [tool_check_schedule] as the source runs it. *)
Definition tool_check_schedule_clocked : clocked string :=
  Now (fun now =>
    clocked_bind (future_clocked now (DictReader CLEANING_DATA) [])
      (fun future => Done (schedule_text future))).

(** A computation on a clock that answers [clock t] when asked for the
    [t]-th time: its value and the readings it took, first asking for
    the [t]-th. *)
Fixpoint run_on {A} (clock : nat -> datetime) (t : nat) (m : clocked A)
    : A * list datetime :=
  match m with
  | Done a => (a, [])
  | Now k =>
      let now := clock t in
      let r := run_on clock (S t) (k now) in
      (r.1, now :: r.2)
  end.

End Schedule.


(** ** The action directive (line 314) *)

Module Directive.

(** The pattern of line 314 under [re.IGNORECASE]: the word ACTION and a
    colon, any blanks, one of the four tool names (group 1), any blanks,
    and the rest of the line (group 2). *)

Definition TOOLS : list string := ["SEARCH"; "CALC"; "REMIND"; "CHECK_SCHEDULE"].

(** [pat] matched at the head of [s] without regard to case: the matched
    text and what follows it. *)
Fixpoint match_literal (pat s : string) : option (string * string) :=
  match pat, s with
  | "", _ => Some ("", s)
  | String p pat', String c s' =>
      if Ascii.eqb (lower p) (lower c)
      then (fun '(m, rest) => (String c m, rest)) <$> match_literal pat' s'
      else None
  | String _ _, "" => None
  end.

(** The alternation: the first tool name that matches. *)
Fixpoint match_tool (tools : list string) (s : string) : option (string * string) :=
  match tools with
  | [] => None
  | t :: tools' =>
      match match_literal t s with
      | Some m => Some m
      | None => match_tool tools' s
      end
  end.

(** Any characters but a newline, as many as there are. *)
Fixpoint until_newline (s : string) : string :=
  match s with
  | "" => ""
  | String c r => if Ascii.eqb c (ascii_of_nat 10) then "" else String c (until_newline r)
  end.

(** The pattern anchored at the head of [s]: groups 1 and 2.  Both runs
    of blanks take every blank there is; giving one back cannot help,
    since no tool name starts with a blank and group 2 may be empty. *)
Definition match_here (s : string) : option (string * string) :=
  match match_literal "ACTION:" s with
  | None => None
  | Some (_, r1) =>
      match match_tool TOOLS (lstrip_by is_space r1) with
      | None => None
      | Some (tool, r2) => Some (tool, until_newline (lstrip_by is_space r2))
      end
  end.

(** [re.search]: the leftmost position at which the pattern matches. *)
Fixpoint re_search (s : string) : option (string * string) :=
  match match_here s with
  | Some m => Some m
  | None =>
      match s with
      | "" => None
      | String _ r => re_search r
      end
  end.

End Directive.

(** ** The handler and its environment (lines 61-69, 236-243, 280-362) *)

Module Bot.
Import WebSearch Schedule Calc CalcEval Directive.

Definition MAX_STEPS : nat := 5.

Inductive ChatType := PRIVATE | GROUP | SUPERGROUP | CHANNEL | SENDER.

(** The fields of an incoming message that the handler reads.
    [reply_to_message] is the message answered, if any, with the id of its
    sender, if it has one. *)
Record Message := {
  text : option string;
  chat_type : ChatType;
  reply_to_message : option (option Z);
}.

Record Update := {
  message : option Message;
  effective_chat_id : Z;
}.

Section Handler.
Context {F : Type} {RT : PyRuntime F}.

(** A call that left the process, with what came back. *)
Inductive Event :=
  | SendMessage (chat_id : Z) (text : string) (outcome : result Z)
  | EditMessageText (chat_id message_id : Z) (text : string) (outcome : result unit)
  | ChatCompletion (messages : list Turn) (outcome : result string)
  | WebSearch (query : string) (outcome : provider_outcome)
  | ClockRead (now : datetime)
  | RunOnce (chat_id : Z) (delay : F) (data : string) (outcome : result unit)
  | Log (level text : string).

(** The world outside.  Each oracle is asked with the number of events so
    far, so that it may answer the same request differently over time.
    [send_message] returns the id of the new message;
    [chat_completion] returns [resp.choices[0].message.content], and
    raises when the backend fails or the response has no such text. *)
Record Env := {
  bot_id : Z;
  bot_username : string;
  send_message : nat -> Z -> string -> result Z;
  edit_message_text : nat -> Z -> Z -> string -> result unit;
  chat_completion : nat -> list Turn -> result string;
  ddgs : nat -> string -> provider_outcome;
  datetime_now : nat -> datetime;
  run_once : nat -> Z -> F -> string -> result unit;
}.

(** The state of the process and the history of its outside calls. *)
Record World := {
  ANNOUNCE_CHAT_ID : option Z;
  session_memory : gmap Z (list Turn);
  trace : list Event;
}.

Definition M (A : Type) : Type := World -> result A * World.

Definition ret {A} (a : A) : M A := fun w => (Ret a, w).
Definition raise {A} (e : exn) : M A := fun w => (Raise e, w).

Definition bind_M {A B} (m : M A) (k : A -> M B) : M B :=
  fun w =>
    match m w with
    | (Ret a, w') => k a w'
    | (Raise e, w') => (Raise e, w')
    end.

#[local] Instance M_bind : MBind M := fun A B k m => bind_M m k.

(** [try: body / except Exception as e: handler(e)] *)
Definition try_Exception {A} (body : M A) (handler : exn -> M A) : M A :=
  fun w =>
    match body w with
    | (Raise e, w') => if is_Exception e then handler e w' else (Raise e, w')
    | r => r
    end.

(** [try: body / except: handler] *)
Definition try_bare {A} (body : M A) (handler : M A) : M A :=
  fun w =>
    match body w with
    | (Raise _, w') => handler w'
    | r => r
    end.

Definition emit (ev : Event) : M unit :=
  fun w => (Ret tt, {| ANNOUNCE_CHAT_ID := ANNOUNCE_CHAT_ID w;
                       session_memory := session_memory w;
                       trace := trace w ++ [ev] |}).

(** An outside call: ask the oracle, record the event, return or raise. *)
Definition call {A} (ask : nat -> result A) (ev : result A -> Event) : M A :=
  fun w =>
    let r := ask (length (trace w)) in
    (r, (emit (ev r) w).2).

Definition set_announce_chat (chat_id : Z) : M unit :=
  fun w => (Ret tt, {| ANNOUNCE_CHAT_ID := Some chat_id;
                       session_memory := session_memory w;
                       trace := trace w |}).

Definition remember (chat_id : Z) (r c : string) : M unit :=
  fun w => (Ret tt, {| ANNOUNCE_CHAT_ID := ANNOUNCE_CHAT_ID w;
                       session_memory := update_memory chat_id r c (session_memory w);
                       trace := trace w |}).

Definition recall (chat_id : Z) : M (list Turn) :=
  fun w => (Ret (get_memory chat_id (session_memory w)), w).

Variable env : Env.

Definition bot_send_message (chat_id : Z) (txt : string) : M Z :=
  call (fun t => send_message env t chat_id txt) (SendMessage chat_id txt).

Definition bot_edit_message_text (chat_id message_id : Z) (txt : string) : M unit :=
  call (fun t => edit_message_text env t chat_id message_id txt)
       (EditMessageText chat_id message_id txt).

(** [safe_edit_message] (lines 61-69): only [BadRequest] is caught. *)
Definition safe_edit_message (chat_id message_id : Z) (txt : string) : M unit :=
  fun w =>
    match bot_edit_message_text chat_id message_id txt w with
    | (Raise (BadRequest msg), w') =>
        if contains "Message is not modified" msg then (Ret tt, w')
        else emit (Log "WARNING" ("Edit failed: " +:+ msg)) w'
    | r => r
    end.

(** [await tool_search(arg)] *)
Definition run_search (query : string) : M string :=
  fun w =>
    let o := ddgs env (length (trace w)) query in
    (Ret (tool_search o), (emit (WebSearch query o) w).2).

(** [datetime.now()] *)
Definition read_clock : M datetime :=
  fun w =>
    let now := datetime_now env (length (trace w)) in
    (Ret now, (emit (ClockRead now) w).2).

Fixpoint run_clocked {A} (m : clocked A) : M A :=
  match m with
  | Done a => ret a
  | Now k => now ← read_clock ; run_clocked (k now)
  end.

(** [tool_check_schedule()], with every reading of the clock *)
Definition run_check_schedule : M string :=
  run_clocked tool_check_schedule_clocked.

Definition lift {A} (r : result A) : M A := fun w => (r, w).

(** The body of the [try] of the REMIND branch (lines 334-339). *)
Definition remind_body (chat_id : Z) (arg : string) : M string :=
  let clean_arg := strip_chars (DQ +:+ ".") arg in
  let '(first, rest) := split_space_once clean_arg in
  minutes ← lift (opt_or (float_of_string first) ValueError) ;
  let reason := default "timer" rest in
  sixty ← lift (opt_or (float_of_int 60) OverflowError) ;
  let delay := float_mul minutes sixty in
  _ ← call (fun t => run_once env t chat_id delay reason) (RunOnce chat_id delay reason) ;
  ret ("Timer set for " +:+ float_repr minutes +:+ " minutes.").

Definition FORMAT_ERROR : string := "Format error. Use: REMIND <minutes> <reason>".

(** The [if tool == ...] chain (lines 321-344): the observation. *)
Definition dispatch (chat_id status_id : Z) (tool arg : string) : M string :=
  if String.eqb tool "SEARCH" then
    _ ← safe_edit_message chat_id status_id
      (bytes [195; 176; 197; 184; 226; 128; 157]%nat +:+ " checking " +:+ arg +:+ "...") ;
    run_search arg
  else if String.eqb tool "CALC" then
    lift (tool_calc arg)
  else if String.eqb tool "CHECK_SCHEDULE" then
    _ ← safe_edit_message chat_id status_id
      (bytes [195; 176; 197; 184; 226; 128; 156; 226; 128; 166]%nat +:+ " checking roster...") ;
    run_check_schedule
  else if String.eqb tool "REMIND" then
    try_bare (remind_body chat_id arg) (ret FORMAT_ERROR)
  else
    ret "Unknown tool.".

Definition create_completion (messages : list Turn) : M string :=
  call (fun t => chat_completion env t messages) (ChatCompletion messages).

(** The [for _ in range(MAX_STEPS)] loop (lines 305-350), with [steps]
    iterations left.  The result is the value of [final_reply] when the
    loop is left. *)
Fixpoint agent_loop (steps : nat) (chat_id status_id : Z) (messages : list Turn)
    (final_reply : string) : M string :=
  match steps with
  | O => ret final_reply
  | S n =>
      content ← create_completion messages ;
      let reply := strip content in
      match re_search reply with
      | Some (group1, group2) =>
          let tool := upper group1 in
          let arg := strip group2 in
          let messages1 := messages ++ [{| role := "assistant"; content := reply |}] in
          obs ← dispatch chat_id status_id tool arg ;
          agent_loop n chat_id status_id
            (messages1 ++ [{| role := "user"; content := "OBSERVATION: " +:+ obs |}])
            final_reply
      | None => ret (strip (replace "FINAL ANSWER:" "" reply))
      end
  end.

Definition COOKED : string := "cooked.".
Definition BRAIN_DIED : string := "nein... my brain died. try again.".
Definition ALLES_GUT : string := "Done. Alles gut.".

(** Lines 302-356: the loop inside its [try], then the check for a
    leaked directive. *)
Definition agent_reply (chat_id status_id : Z) (messages : list Turn) : M string :=
  final_reply ←
    try_Exception (agent_loop MAX_STEPS chat_id status_id messages COOKED)
      (fun e => _ ← emit (Log "ERROR" ("Error: " +:+ exn_text e)) ; ret BRAIN_DIED) ;
  ret (if contains "ACTION:" final_reply then ALLES_GUT else final_reply).

(** Lines 358-362: the final reply replaces the status message. *)
Definition deliver (chat_id status_id : Z) (final_reply : string) : M unit :=
  try_bare
    (_ ← safe_edit_message chat_id status_id final_reply ;
     remember chat_id "assistant" final_reply)
    (_ ← bot_send_message chat_id final_reply ; ret tt).

(** The admission test of lines 292-294, with Python's short-circuit
    evaluation: the sender of the message replied to is only looked at
    outside private chats, and the mention only if that did not decide. *)
Definition is_direct (msg : Message) (txt : string) : M bool :=
  match chat_type msg with
  | PRIVATE => ret true
  | _ =>
      let mentioned := contains ("@" +:+ bot_username env) txt in
      match reply_to_message msg with
      | None => ret mentioned
      | Some None => raise AttributeError
      | Some (Some sender) => ret ((sender =? bot_id env)%Z || mentioned)
      end
  end.
Definition SYSTEM_PROMPT : string := join NL [
  "";
  "You are BotBro, the flatmate AI.";
  "You are sarcastic, chill, and slightly German.";
  "";
  "PERSONALITY:";
  "- You are NOT a polite assistant. You are a roommate.";
  "- German Flavor: Sprinkle words like (genau, nat" +:+ bytes [195; 131; 194; 188]%nat +:+ "rlich, schei" +:+ bytes [195; 131; 197; 184]%nat +:+ "e, bitte, alles klar, nein, achtung) into your English.";
  "- Chill: Use emojis " +:+ bytes [195; 176; 197; 184; 226; 132; 162; 226; 128; 158; 195; 176; 197; 184; 194; 186; 195; 176; 197; 184; 194; 165; 194; 168; 195; 176; 197; 184; 194; 171; 194; 161]%nat +:+ ". Lowercase mostly.";
  "- Roaster: If someone asks a dumb question or tries to dodge cleaning, ROAST THEM. ";
  "- But deep down, you are helpful. Always do the task requested.";
  "";
  "TOOLS:";
  "1. SEARCH <query>";
  "2. CALC <expr>";
  "3. REMIND <minutes> <reason>";
  "   - Example: ACTION: REMIND 30 turn off oven";
  "4. CHECK_SCHEDULE";
  "   - Output: ACTION: CHECK_SCHEDULE";
  "   - Use for ANY cleaning/roster question.";
  "   - Never search the web for the roster. It is local.";
  "";
  "Examples:";
  "User: " +:+ DQ +:+ "Who cleans today?" +:+ DQ;
  "You: " +:+ DQ +:+ "ugh, did you forget again? schei" +:+ bytes [195; 131; 197; 184]%nat +:+ "e... ACTION: CHECK_SCHEDULE" +:+ DQ;
  "";
  "User: " +:+ DQ +:+ "What is 2+2?" +:+ DQ;
  "You: " +:+ DQ +:+ "really? you waste my cpu cycles on this? 4. bitte sch" +:+ bytes [195; 131; 194; 182]%nat +:+ "n." +:+ DQ;
  "" ].

Definition MOMENT_MAL : string :=
  bytes [195; 176; 197; 184; 226; 128; 152; 226; 130; 172]%nat +:+ " moment mal...".

(** [handle_message] (lines 280-362) *)
Definition handle_message (upd : Update) : M unit :=
  match message upd with
  | None => ret tt
  | Some msg =>
      match text msg with
      | None | Some "" => ret tt
      | Some raw =>
          let chat_id := effective_chat_id upd in
          let txt := strip raw in
          _ ← set_announce_chat chat_id ;
          direct ← is_direct msg txt ;
          if negb direct then ret tt else
          _ ← remember chat_id "user" txt ;
          status_id ← bot_send_message chat_id MOMENT_MAL ;
          history ← recall chat_id ;
          let messages := {| role := "system"; content := SYSTEM_PROMPT |} :: history in
          final_reply ← agent_reply chat_id status_id messages ;
          deliver chat_id status_id final_reply
      end
  end.

(** [weekly_announce_callback] (lines 240-243): [if ANNOUNCE_CHAT_ID]
    is false for [None] and for 0. *)
Definition weekly_announce_callback : M unit :=
  fun w =>
    match ANNOUNCE_CHAT_ID w with
    | Some chat_id =>
        if (chat_id =? 0)%Z then (Ret tt, w) else
        (sched ← run_check_schedule ;
         _ ← bot_send_message chat_id
           (bytes [195; 176; 197; 184; 226; 128; 157; 226; 128; 157]%nat
            +:+ " **SATURDAY CLEANING CHECK:**" +:+ NL +:+ NL +:+ sched) ;
         ret tt) w
    | None => (Ret tt, w)
    end.

(** *** What a run did, read off the trace *)

Definition is_completion (ev : Event) : bool :=
  match ev with ChatCompletion _ _ => true | _ => false end.

(** Number of calls of the language model. *)
Definition model_calls (w : World) : nat :=
  length (filter (fun ev => is_completion ev = true) (trace w)).

(** Calls of the transport, successful or not. *)
Definition is_outbound (ev : Event) : bool :=
  match ev with
  | SendMessage _ _ _ | EditMessageText _ _ _ _ => true
  | _ => false
  end.

Definition outbound (w : World) : list Event :=
  filter (fun ev => is_outbound ev = true) (trace w).

(** The chat got [txt]: a send or an edit with that text went through. *)
Definition delivers (chat_id : Z) (txt : string) (ev : Event) : bool :=
  match ev with
  | SendMessage c t (Ret _) => (c =? chat_id)%Z && String.eqb t txt
  | EditMessageText c _ t (Ret _) => (c =? chat_id)%Z && String.eqb t txt
  | _ => false
  end.

Definition delivered (chat_id : Z) (txt : string) (w : World) : bool :=
  existsb (delivers chat_id txt) (trace w).

End Handler.

Arguments Event F : clear implicits.
Arguments Env F : clear implicits.
Arguments World F : clear implicits.

End Bot.

(** ** A runtime for running examples *)

(** A platform on which all floats look alike.  It serves to run the
    handler on inputs whose outcome does not depend on any float; the
    theorems below hold for every runtime. *)
#[export] Instance opaque_runtime : PyRuntime unit := {|
  float_of_literal := fun _ => tt;
  float_of_string := fun s => (fun _ => tt) <$> int_of_string s;
  float_of_int := fun _ => Some tt;
  int_truediv := fun _ _ => Some tt;
  float_is_zero := fun _ => false;
  float_neg := fun _ => tt;
  float_add := fun _ _ => tt;
  float_sub := fun _ _ => tt;
  float_mul := fun _ _ => tt;
  float_div := fun _ _ => tt;
  float_floordiv := fun _ _ => tt;
  float_pow := fun _ _ => PowFloat tt;
  float_round4 := fun _ => tt;
  float_repr := fun _ => "<float>";
  int_max_str_digits := 4300;
|}.

(** ** Vocabulary of the statements *)

(** The last [n] elements of a list. *)
Definition lastn {A} (n : nat) (l : list A) : list A := drop (length l - n) l.

(** A sequence of calls of [update_memory], oldest first. *)
Definition appends (ops : list (Z * string * string)) (m : gmap Z (list Turn))
    : gmap Z (list Turn) :=
  foldl (fun m op => update_memory op.1.1 op.1.2 op.2 m) m ops.

(** The turns that [ops] add to one chat, oldest first. *)
Definition turns_of (chat_id : Z) (ops : list (Z * string * string)) : list Turn :=
  flat_map (fun op => if decide (op.1.1 = chat_id)
                      then [{| role := op.1.2; content := op.2 |}] else []) ops.



(** The exceptions that [calc_body] can raise. *)
Definition arithmetic_exn (e : exn) : bool :=
  match e with
  | SyntaxError | ZeroDivisionError | OverflowError | TypeError | ValueError => true
  | _ => false
  end.

Definition raises_only {A} (P : exn -> bool) (r : result A) : Prop :=
  match r with
  | Raise e => P e = true
  | Ret _ => True
  end.

(** What is left after a parse is shorter than [n] (strictly, or not). *)
Definition rest_lt (p : Calc.parsed) (n : nat) : Prop :=
  match p with Calc.Parsed _ rest => length rest < n | _ => True end.

Definition rest_le (p : Calc.parsed) (n : nat) : Prop :=
  match p with Calc.Parsed _ rest => length rest <= n | _ => True end.

(** A text without a newline. *)
Definition single_line (s : string) : bool :=
  all_chars (fun c => negb (Ascii.eqb c (ascii_of_nat 10))) s.

(** [line] is the rendering of a hit among [raw] whose body (or, failing
    that, snippet) is not empty. *)
Definition entry_of (raw : list (gmap string string)) (line : string) : Prop :=
  exists r, r ∈ raw /\ WebSearch.hit_body r <> "" /\
            line = WebSearch.entry (WebSearch.hit_title r) (WebSearch.hit_body r).

(** A field that is absent or empty. *)
Definition blank_field (r : gmap string string) (key : string) : Prop :=
  r !! key = None \/ r !! key = Some "".

(** The year that the specification assigns to a row of month
    [row_month] when the clock shows [now_year], [now_month]. *)
Definition expected_year (now_year now_month row_month : Z) : Z :=
  if ((now_month =? 12) && (row_month =? 1))%Z then (now_year + 1)%Z
  else if ((now_month =? 1) && (row_month =? 12))%Z then (now_year - 1)%Z
  else now_year.

(** Month and day that a label starts with, if it starts with a month
    abbreviation and a number. *)
Definition first_date (date_range : string) : option (Z * Z) :=
  match words (strip (hd "" (split " - " date_range))) with
  | [month_str; day_str] =>
      match Schedule.MONTH_MAP !! month_str, int_of_string day_str with
      | Some m, Some dd => Some (m, dd)
      | _, _ => None
      end
  | _ => None
  end.

Definition midnight (y m d : Z) : Schedule.datetime :=
  {| Schedule.year := y; Schedule.month := m; Schedule.day := d;
     Schedule.hour := 0; Schedule.minute := 0; Schedule.second := 0;
     Schedule.microsecond := 0 |}.

(** Microseconds since midnight. *)
Definition time_of_day (d : Schedule.datetime) : Z :=
  ((Schedule.hour d * 3600 + Schedule.minute d * 60 + Schedule.second d) * 1000000
   + Schedule.microsecond d)%Z.

(** The day-delta of a row, when its label resolves to a date. *)
Definition row_delta (now : Schedule.datetime) (row : gmap string string) : option Z :=
  (fun d => Schedule.delta_days d now)
    <$> Schedule.parse_schedule_date now (Schedule.field row "Date Range").

(** The labels of the rows shown, in the order shown. *)
Definition shown_labels (now : Schedule.datetime) : list string :=
  map (fun x => Schedule.field x.2 "Date Range")
      (Schedule.shown now (Schedule.DictReader Schedule.CLEANING_DATA)).

Definition key_le {A} (x y : Z * A) : Prop := (x.1 <= y.1)%Z.

(** Day numbers that exist in their month in every year. *)
Definition in_every_year (m dd : Z) : bool :=
  ((1 <=? m) && (m <=? 12) && (1 <=? dd)
   && (dd <=? (if m =? 2 then 28 else Schedule.days_in_month 1 m)))%Z.

(** Two clock readings on the same calendar day. *)
Definition same_day (a b : Schedule.datetime) : Prop :=
  Schedule.year a = Schedule.year b /\ Schedule.month a = Schedule.month b /\
  Schedule.day a = Schedule.day b.

Definition noon (y m d : Z) : Schedule.datetime :=
  {| Schedule.year := y; Schedule.month := m; Schedule.day := d;
     Schedule.hour := 12; Schedule.minute := 0; Schedule.second := 0;
     Schedule.microsecond := 0 |}.

Section HandlerVocabulary.
Import Bot Directive.
Context {F : Type} {RT : PyRuntime F}.

(** The language model always answers, and its answer always holds an
    action directive. *)
Definition always_directive (env : Env F) : Prop :=
  forall t messages, exists content,
    chat_completion env t messages = Ret content /\
    is_Some (re_search (strip content)).


(** The text of the last reply that the language model gave, as the loop
    reads it. *)
Definition model_text (ev : Event F) : option string :=
  match ev with
  | ChatCompletion _ (Ret content) => Some (strip content)
  | _ => None
  end.

Definition last_model_text (w : World F) : option string :=
  last (omap model_text (trace w)).

(** The substitution of line 356. *)
Definition without_leak (final_reply : string) : string :=
  if contains "ACTION:" final_reply then ALLES_GUT else final_reply.

(** The message is not addressed to the agent: not in a private chat,
    not a reply to a message of the agent, and without its handle. *)
Definition not_addressed (env : Env F) (msg : Message) (raw : string) : Prop :=
  chat_type msg <> PRIVATE /\
  reply_to_message msg <> Some (Some (bot_id env)) /\
  contains ("@" +:+ bot_username env) (strip raw) = false.

Definition is_send (ev : Event F) : bool :=
  match ev with SendMessage _ _ _ => true | _ => false end.

(** A computation that does not call the model. *)
Definition calls_kept {A} (m : M A) : Prop :=
  forall w : World F, model_calls (m w).2 = model_calls w.

End HandlerVocabulary.

(** Worlds and environments of the examples. *)
Definition fresh_world : Bot.World unit :=
  {| Bot.ANNOUNCE_CHAT_ID := None; Bot.session_memory := ∅; Bot.trace := [] |}.

Definition jan_5_2025 : Schedule.datetime := midnight 2025 1 5.

(** An environment whose model always gives [reply] and whose edits all
    end as [edit]; everything else succeeds. *)
Definition scripted_env (reply : string) (edit : result unit) : Bot.Env unit :=
  {| Bot.bot_id := 42;
     Bot.bot_username := "botbro";
     Bot.send_message := fun _ _ _ => Ret 1000%Z;
     Bot.edit_message_text := fun _ _ _ _ => edit;
     Bot.chat_completion := fun _ _ => Ret reply;
     Bot.ddgs := fun _ _ => WebSearch.Hits [] [];
     Bot.datetime_now := fun _ => jan_5_2025;
     Bot.run_once := fun _ _ _ _ => Ret tt |}.

Definition group_message (txt : string) : Bot.Update :=
  {| Bot.message := Some {| Bot.text := Some txt; Bot.chat_type := Bot.GROUP;
                            Bot.reply_to_message := None |};
     Bot.effective_chat_id := 7 |}.

(** ** Vocabulary of the further properties *)

Section FrameVocabulary.
Import Bot.
Context {F : Type} {RT : PyRuntime F}.

(** A computation that leaves the announcement target and the
    conversation memory as they are. *)
Definition globals_kept {A} (m : M A) : Prop :=
  forall w : World F,
    ANNOUNCE_CHAT_ID (m w).2 = ANNOUNCE_CHAT_ID w /\
    session_memory (m w).2 = session_memory w.

(** A computation that only adds events to the trace. *)
Definition trace_grows {A} (m : M A) : Prop :=
  forall w : World F, exists evs, trace (m w).2 = trace w ++ evs.

(** The message is addressed to the agent and its sender, if it answers
    a message, can be read: a private chat, or else an answer to the
    agent, or else a mention that does not answer a message without
    sender. *)
Definition addressed (env : Env F) (msg : Message) (raw : string) : Prop :=
  chat_type msg = PRIVATE \/
  reply_to_message msg = Some (Some (bot_id env)) \/
  (reply_to_message msg <> Some None /\
   contains ("@" +:+ bot_username env) (strip raw) = true).

(** The world after the first lines of the handler: target set, user
    turn stored. *)
Definition after_intake (chat_id : Z) (txt : string) (w : World F) : World F :=
  {| ANNOUNCE_CHAT_ID := Some chat_id;
     session_memory := update_memory chat_id "user" txt (session_memory w);
     trace := trace w |}.

End FrameVocabulary.

(** An environment for examples in which every send ends as [send], every
    edit as [edit] and every call of the model as [completion]. *)
Definition example_env (send : result Z) (completion : result string)
    (edit : result unit) : Bot.Env unit :=
  {| Bot.bot_id := 42;
     Bot.bot_username := "botbro";
     Bot.send_message := fun _ _ _ => send;
     Bot.edit_message_text := fun _ _ _ _ => edit;
     Bot.chat_completion := fun _ _ => completion;
     Bot.ddgs := fun _ _ => WebSearch.Hits [] [];
     Bot.datetime_now := fun _ => jan_5_2025;
     Bot.run_once := fun _ _ _ _ => Ret tt |}.

Definition private_message (txt : string) : Bot.Update :=
  {| Bot.message := Some {| Bot.text := Some txt; Bot.chat_type := Bot.PRIVATE;
                            Bot.reply_to_message := None |};
     Bot.effective_chat_id := 7 |}.

(** An answer, in a group, to a message that has no sender. *)
Definition reply_to_senderless (txt : string) : Bot.Update :=
  {| Bot.message := Some {| Bot.text := Some txt; Bot.chat_type := Bot.GROUP;
                            Bot.reply_to_message := Some None |};
     Bot.effective_chat_id := 7 |}.

(** The signature by which the search tells two hits apart. *)
Definition hit_signature (r : gmap string string) : string * string :=
  WebSearch.signature (WebSearch.hit_title r) (WebSearch.hit_body r).

Definition hit_entry (r : gmap string string) : string :=
  WebSearch.entry (WebSearch.hit_title r) (WebSearch.hit_body r).

(** The hits that the loop of [_search] keeps, given the signatures
    already seen. *)
Fixpoint kept_hits (raw : list (gmap string string)) (seen : gset (string * string))
    : list (gmap string string) :=
  match raw with
  | [] => []
  | r :: raw' =>
      if String.eqb (WebSearch.hit_body r) "" then kept_hits raw' seen
      else if decide (hit_signature r ∈ seen) then kept_hits raw' seen
      else r :: kept_hits raw' ({[hit_signature r]} ∪ seen)
  end.

(** A decimal integer literal of Python: digits, without a leading zero
    unless all of them are zeros. *)
Definition int_literal (s : string) : bool :=
  match s with
  | "" => false
  | _ => all_chars is_digit s && Calc.int_literal_ok s
  end.

Definition operator_text (op : Calc.operator) : string :=
  match op with
  | Calc.Add => "+"
  | Calc.Sub => "-"
  | Calc.Mult => "*"
  | Calc.Div => "/"
  | Calc.FloorDiv => "//"
  | Calc.Pow => "**"
  end.

(** The integer that arithmetic gives for two integers that are not
    negative; [None] where the result is no integer: a true division,
    or a division by zero. *)
Definition int_result (op : Calc.operator) (a b : Z) : option Z :=
  match op with
  | Calc.Add => Some (a + b)%Z
  | Calc.Sub => Some (a - b)%Z
  | Calc.Mult => Some (a * b)%Z
  | Calc.Div => None
  | Calc.FloorDiv => if (b =? 0)%Z then None else Some (a / b)%Z
  | Calc.Pow => Some (a ^ b)%Z
  end.

Definition operator_token (op : Calc.operator) : Calc.token :=
  match op with
  | Calc.Add => Calc.TPlus
  | Calc.Sub => Calc.TMinus
  | Calc.Mult => Calc.TStar
  | Calc.Div => Calc.TSlash
  | Calc.FloorDiv => Calc.TDoubleSlash
  | Calc.Pow => Calc.TDoubleStar
  end.

(** The calendar without the year: only whether the year is a leap year
    matters within it. *)
Definition month_length (leap : bool) (m : Z) : Z :=
  (if m =? 2 then (if leap then 29 else 28)
   else if (m =? 4) || (m =? 6) || (m =? 9) || (m =? 11) then 30
   else 31)%Z.

Fixpoint days_before_go (leap : bool) (k : nat) : Z :=
  match k with
  | O => 0%Z
  | S k' => (days_before_go leap k' + month_length leap (Z.of_nat (S k')))%Z
  end.

Definition day_of_year (leap : bool) (m d : Z) : Z :=
  (days_before_go leap (Z.to_nat (m - 1)) + d)%Z.

(** Calendar days from the day [nd] of month [nm] to the row dated [dd]
    of month [m], as the resolver places the row: in the same year, but
    a January row seen in December in the next one. *)
Definition days_until (leap : bool) (nm nd m dd : Z) : Z :=
  (if (nm =? 12) && (m =? 1) then 31 - nd + dd
   else day_of_year leap m dd - day_of_year leap nm nd)%Z.

(** Month and day of every row of the roster. *)
Definition roster_dates : list (Z * Z) :=
  omap (fun row => first_date (Schedule.field row "Date Range"))
       (Schedule.DictReader Schedule.CLEANING_DATA).

(** Some row of the roster starts on that day or within the 7 days after
    it. *)
Definition row_within_a_week (leap : bool) (nm nd : Z) : bool :=
  existsb (fun md : Z * Z =>
             negb ((nm =? 1) && (md.1 =? 12))%Z && in_every_year md.1 md.2
             && (0 <=? days_until leap nm nd md.1 md.2)%Z
             && (days_until leap nm nd md.1 md.2 <=? 7)%Z)
          roster_dates.

(** Turns that tool steps add to the working history: an assistant turn
    holding a directive, followed by the observation as a user turn. *)
Inductive tool_turns : list Turn -> Prop :=
  | tool_turns_nil : tool_turns []
  | tool_turns_step (reply obs : string) (rest : list Turn) :
      Directive.re_search reply <> None ->
      tool_turns rest ->
      tool_turns ({| role := "assistant"; content := reply |}
                  :: {| role := "user"; content := "OBSERVATION: " +:+ obs |}
                  :: rest).

Section RunVocabulary.
Import Bot Directive.
Context {F : Type} {RT : PyRuntime F}.

(** The events that a computation added to the trace, from the world
    [w] it started in to the world [w'] it left. *)
Definition events_since (w w' : World F) : list (Event F) :=
  drop (length (trace w)) (trace w').

(** The event is no call of the model, or a call that the model
    answered with a text that holds a directive. *)
Definition directive_reply (ev : Event F) : bool :=
  match ev with
  | ChatCompletion _ (Ret content) =>
      match re_search (strip content) with Some _ => true | None => false end
  | ChatCompletion _ (Raise _) => false
  | _ => true
  end.

(** An edit that raised something other than [BadRequest]. *)
Definition edit_failed_hard (ev : Event F) : bool :=
  match ev with
  | EditMessageText _ _ _ (Raise (BadRequest _)) => false
  | EditMessageText _ _ _ (Raise _) => true
  | _ => false
  end.

(** What a computation added to the trace: events that are no calls of
    the model; if it raised, a hard failure of an edit is among them. *)
Definition tool_events {A} (m : M A) : Prop :=
  forall w : World F, exists evs,
    trace (m w).2 = trace w ++ evs
    /\ Forall (fun ev => is_completion ev = false) evs
    /\ forall e, (m w).1 = Raise e -> Exists (fun ev => edit_failed_hard ev = true) evs.

End RunVocabulary.

(** A model that answers its first five calls with a directive and every
    later one with plain text; everything else succeeds. *)
Definition five_then_plain : Bot.Env unit :=
  {| Bot.bot_id := 42;
     Bot.bot_username := "botbro";
     Bot.send_message := fun _ _ _ => Ret 1000%Z;
     Bot.edit_message_text := fun _ _ _ _ => Ret tt;
     Bot.chat_completion :=
       fun t _ => if (t <? 5)%nat then Ret "ACTION: CALC 1+1" else Ret "fertig";
     Bot.ddgs := fun _ _ => WebSearch.Hits [] [];
     Bot.datetime_now := fun _ => jan_5_2025;
     Bot.run_once := fun _ _ _ _ => Ret tt |}.

(** * Theorems *)

(** * Conversation memory *)

Section Memory.
Implicit Types (m : gmap Z (list Turn)) (ops : list (Z * string * string)).

Lemma lastn_short {A} (n : nat) (l : list A) : length l <= n -> lastn n l = l.
Proof. intros H. unfold lastn. replace (length l - n) with 0 by lia. done. Qed.

Lemma lastn_length {A} (n : nat) (l : list A) : length (lastn n l) = min n (length l).
Proof. unfold lastn. rewrite length_drop. lia. Qed.

Lemma lastn_app_lastn {A} (n : nat) (l k : list A) :
  lastn n (lastn n l ++ k) = lastn n (l ++ k).
Proof.
  destruct (decide (length l <= n)) as [Hle|Hgt].
  - by rewrite (lastn_short n l).
  - unfold lastn at 1 3. rewrite !length_app, lastn_length.
    unfold lastn. rewrite <- (drop_app_le l k (length l - n)) by lia.
    rewrite drop_drop. f_equal. lia.
Qed.

Lemma deque_append_lastn {A} (n : nat) (d : list A) (x : A) :
  length d <= n -> deque_append n d x = lastn n (d ++ [x]).
Proof.
  intros H. unfold deque_append, lastn. rewrite length_app. simpl.
  case_bool_decide.
  - replace (length d + 1 - n) with 1 by lia. by destruct (d ++ [x]).
  - replace (length d + 1 - n) with 0 by lia. done.
Qed.

Lemma get_update_same m c r t :
  get_memory c (update_memory c r t m)
  = deque_append 10 (get_memory c m) {| role := r; content := t |}.
Proof. unfold get_memory, update_memory. by rewrite lookup_insert_eq. Qed.

Lemma get_update_other m c c' r t :
  c <> c' -> get_memory c' (update_memory c r t m) = get_memory c' m.
Proof. intros H. unfold get_memory, update_memory. by rewrite lookup_insert_ne. Qed.

Lemma appends_history ops : forall m c,
  length (get_memory c m) <= 10 ->
  get_memory c (appends ops m) = lastn 10 (get_memory c m ++ turns_of c ops).
Proof.
  induction ops as [|[[c0 r] t] ops IH]; intros m c Hlen; simpl.
  - rewrite app_nil_r. by rewrite lastn_short.
  - destruct (decide (c0 = c)) as [->|Hne]; simpl.
    + rewrite IH; rewrite get_update_same, deque_append_lastn by done.
      * rewrite lastn_app_lastn. by rewrite <- app_assoc.
      * rewrite lastn_length. lia.
    + rewrite IH; rewrite get_update_other by done; done.
Qed.

(** The deque of a full history drops its oldest turn and keeps the rest
    in order. *)
Lemma update_memory_evicts_oldest m c r t old rest :
  get_memory c m = old :: rest -> length rest = 9 ->
  get_memory c (update_memory c r t m) = rest ++ [{| role := r; content := t |}].
Proof.
  intros Hm Hlen. rewrite get_update_same, Hm. unfold deque_append.
  rewrite bool_decide_eq_true_2; [done|]. simpl. rewrite length_app. simpl. lia.
Qed.

(** C3.  Whatever calls of [update_memory] are made, starting from the
    empty [session_memory] of a fresh process, the history of every chat
    holds at most 10 turns, and it is exactly the last 10 turns added to
    that chat, in the order they were added: what was dropped is always
    the oldest. *)
Theorem memory_bounded_fifo ops (chat_id : Z) :
  length (get_memory chat_id (appends ops ∅)) <= 10 /\
  get_memory chat_id (appends ops ∅) = lastn 10 (turns_of chat_id ops).
Proof.
  assert (H : get_memory chat_id (appends ops ∅) = lastn 10 (turns_of chat_id ops)).
  { rewrite appends_history; [done|]. unfold get_memory. rewrite lookup_empty. simpl. lia. }
  split; [|done]. rewrite H, lastn_length. lia.
Qed.

End Memory.
(** * Calculator *)

Section Parser.
Import Calc.

Lemma sanitize_allowed (s : string) : all_chars allowed (sanitize s) = true.
Proof.
  unfold sanitize. induction s as [|c s IH]; simpl; [done|].
  destruct (allowed c) eqn:Hc; simpl; [by rewrite Hc|done].
Qed.

(** Unfolding equations of the parser. *)
Lemma parse_sum_eq n ts : parse_sum (S n) ts = andthen (parse_term n ts) (sum_rest n).
Proof. reflexivity. Qed.

Lemma sum_rest_eq n l ts :
  sum_rest (S n) l ts =
  match ts with
  | TPlus :: ts' => andthen (parse_term n ts') (fun r => sum_rest n (BinOp l Add r))
  | TMinus :: ts' => andthen (parse_term n ts') (fun r => sum_rest n (BinOp l Sub r))
  | _ => Parsed l ts
  end.
Proof. reflexivity. Qed.

Lemma parse_term_eq n ts : parse_term (S n) ts = andthen (parse_factor n ts) (term_rest n).
Proof. reflexivity. Qed.

Lemma term_rest_eq n l ts :
  term_rest (S n) l ts =
  match ts with
  | TStar :: ts' => andthen (parse_factor n ts') (fun r => term_rest n (BinOp l Mult r))
  | TSlash :: ts' => andthen (parse_factor n ts') (fun r => term_rest n (BinOp l Div r))
  | TDoubleSlash :: ts' =>
      andthen (parse_factor n ts') (fun r => term_rest n (BinOp l FloorDiv r))
  | _ => Parsed l ts
  end.
Proof. reflexivity. Qed.

Lemma parse_factor_eq n ts :
  parse_factor (S n) ts =
  match ts with
  | TPlus :: ts' => andthen (parse_factor n ts') (fun e => Parsed (UnaryOp UAdd e))
  | TMinus :: ts' => andthen (parse_factor n ts') (fun e => Parsed (UnaryOp USub e))
  | _ => parse_power n ts
  end.
Proof. reflexivity. Qed.

Lemma parse_power_eq n ts :
  parse_power (S n) ts =
  andthen (parse_primary n ts) (fun b rest =>
    match rest with
    | TDoubleStar :: rest' =>
        andthen (parse_factor n rest') (fun e => Parsed (BinOp b Pow e))
    | _ => Parsed b rest
    end).
Proof. reflexivity. Qed.

Lemma parse_primary_eq n ts :
  parse_primary (S n) ts = andthen (parse_atom n ts) (trailers n).
Proof. reflexivity. Qed.

Lemma trailers_eq n f ts :
  trailers (S n) f ts =
  match ts with
  | TLpar :: TRpar :: ts' => trailers n (CallNoArgs f) ts'
  | TLpar :: TStar :: ts' =>
      expect_rpar (parse_sum n ts') (fun a => trailers n (Call f Star a))
  | TLpar :: TDoubleStar :: ts' =>
      expect_rpar (parse_sum n ts') (fun a => trailers n (Call f DoubleStar a))
  | TLpar :: ts' =>
      expect_rpar (parse_sum n ts') (fun a => trailers n (Call f Positional a))
  | _ => Parsed f ts
  end.
Proof. reflexivity. Qed.

Lemma parse_atom_eq n ts :
  parse_atom (S n) ts =
  match ts with
  | TInt ds :: ts' => Parsed (Constant (CInt ds)) ts'
  | TFloat t :: ts' => Parsed (Constant (CFloat t)) ts'
  | TEllipsis :: ts' => Parsed (Constant CEllipsis) ts'
  | TLpar :: TRpar :: ts' => Parsed EmptyTuple ts'
  | TLpar :: ts' => expect_rpar (parse_sum n ts') Parsed
  | _ => NoParse
  end.
Proof. reflexivity. Qed.


Lemma rest_lt_le p n m : rest_lt p n -> n <= S m -> rest_le p m.
Proof. destruct p; simpl; lia. Qed.

Lemma rest_le_lt p n m : rest_le p n -> n < m -> rest_lt p m.
Proof. destruct p; simpl; lia. Qed.

Lemma rest_lt_mono p n m : rest_lt p n -> n <= m -> rest_lt p m.
Proof. destruct p; simpl; lia. Qed.

Lemma andthen_rest_lt p k n :
  rest_lt p n -> (forall e r, rest_le (k e r) (length r)) -> rest_lt (andthen p k) n.
Proof.
  destruct p as [e r| |]; simpl; try done.
  intros H Hk. specialize (Hk e r). destruct (k e r); simpl in *; lia.
Qed.

Lemma expect_rpar_rest_lt p k n :
  rest_lt p n -> (forall e r, rest_le (k e r) (length r)) -> rest_lt (expect_rpar p k) n.
Proof.
  intros H Hk. unfold expect_rpar. apply andthen_rest_lt; [done|].
  intros e [|[] r]; simpl; try done.
  specialize (Hk e r). destruct (k e r); simpl in *; lia.
Qed.

Lemma Parsed_rest_le e r : rest_le (Parsed e r) (length r).
Proof. simpl. lia. Qed.

(** Every parsing function returns a suffix no longer than its input, and
    strictly shorter where the function reads a token. *)
Lemma parse_consumes n :
  (forall ts, rest_lt (parse_sum n ts) (length ts)) /\
  (forall l ts, rest_le (sum_rest n l ts) (length ts)) /\
  (forall ts, rest_lt (parse_term n ts) (length ts)) /\
  (forall l ts, rest_le (term_rest n l ts) (length ts)) /\
  (forall ts, rest_lt (parse_factor n ts) (length ts)) /\
  (forall ts, rest_lt (parse_power n ts) (length ts)) /\
  (forall ts, rest_lt (parse_primary n ts) (length ts)) /\
  (forall f ts, rest_le (trailers n f ts) (length ts)) /\
  (forall ts, rest_lt (parse_atom n ts) (length ts)).
Proof.
  induction n as [|n (Hsum & Hsumr & Hterm & Htermr & Hfac & Hpow & Hprim & Htr & Hatom)].
  { repeat split; intros; exact I. }
  assert (Hsub : forall (p : parsed) k (a m : nat),
             rest_lt p a -> a < m ->
             (forall e r, rest_le (k e r) (length r)) -> rest_le (andthen p k) m).
  { intros p k a m H1 H2 H3.
    eapply rest_lt_le; [apply andthen_rest_lt; eauto|lia]. }
  assert (Hsub' : forall (p : parsed) k (a m : nat),
             rest_lt p a -> a < m ->
             (forall e r, rest_le (k e r) (length r)) -> rest_lt (andthen p k) m).
  { intros p k a m H1 H2 H3.
    eapply rest_lt_mono; [apply andthen_rest_lt; eauto|lia]. }
  assert (Hpar : forall (p : parsed) k (a m : nat),
             rest_lt p a -> a < m ->
             (forall e r, rest_le (k e r) (length r)) -> rest_le (expect_rpar p k) m).
  { intros p k a m H1 H2 H3.
    eapply rest_lt_le; [apply expect_rpar_rest_lt; eauto|lia]. }
  assert (Hpar' : forall (p : parsed) k (a m : nat),
             rest_lt p a -> a < m ->
             (forall e r, rest_le (k e r) (length r)) -> rest_lt (expect_rpar p k) m).
  { intros p k a m H1 H2 H3.
    eapply rest_lt_mono; [apply expect_rpar_rest_lt; eauto|lia]. }
  repeat split.
  - intros ts. rewrite parse_sum_eq. apply andthen_rest_lt; auto.
  - intros l ts. rewrite sum_rest_eq.
    destruct ts as [|[] ts']; try apply Parsed_rest_le;
      (eapply Hsub; [apply Hterm|simpl; lia|auto]).
  - intros ts. rewrite parse_term_eq. apply andthen_rest_lt; auto.
  - intros l ts. rewrite term_rest_eq.
    destruct ts as [|[] ts']; try apply Parsed_rest_le;
      (eapply Hsub; [apply Hfac|simpl; lia|intros; auto]).
  - intros ts. rewrite parse_factor_eq.
    destruct ts as [|[] ts']; try apply Hpow;
      (eapply Hsub'; [apply Hfac|simpl; lia|intros; apply Parsed_rest_le]).
  - intros ts. rewrite parse_power_eq. apply andthen_rest_lt; [apply Hprim|].
    intros e [|[] r]; try apply Parsed_rest_le.
    eapply Hsub; [apply Hfac|simpl; lia|intros; apply Parsed_rest_le].
  - intros ts. rewrite parse_primary_eq. apply andthen_rest_lt; auto.
  - intros f ts. rewrite trailers_eq.
    destruct ts as [|[] ts']; try apply Parsed_rest_le.
    destruct ts' as [|[] ts'']; try apply Parsed_rest_le;
      try (eapply Hpar; [apply Hsum|simpl; lia|intros; auto]).
    specialize (Htr (CallNoArgs f) ts'').
    destruct (trailers n (CallNoArgs f) ts''); simpl in *; lia.
  - intros ts. rewrite parse_atom_eq.
    destruct ts as [|[] ts']; simpl; try lia; try exact I.
    destruct ts' as [|[] ts'']; simpl; try lia; try exact I;
      try (eapply Hpar'; [apply Hsum|simpl; lia|intros; apply Parsed_rest_le]).
Qed.


Lemma parse_sum_shorter n ts e r : parse_sum n ts = Parsed e r -> length r < length ts.
Proof. intros H. pose proof (proj1 (parse_consumes n) ts) as B. by rewrite H in B. Qed.

Lemma parse_term_shorter n ts e r : parse_term n ts = Parsed e r -> length r < length ts.
Proof.
  intros H. destruct (parse_consumes n) as (_ & _ & B & _). specialize (B ts).
  by rewrite H in B.
Qed.

Lemma parse_factor_shorter n ts e r : parse_factor n ts = Parsed e r -> length r < length ts.
Proof.
  intros H. destruct (parse_consumes n) as (_ & _ & _ & _ & B & _). specialize (B ts).
  by rewrite H in B.
Qed.

Lemma parse_primary_shorter n ts e r :
  parse_primary n ts = Parsed e r -> length r < length ts.
Proof.
  intros H. destruct (parse_consumes n) as (_ & _ & _ & _ & _ & _ & B & _).
  specialize (B ts). by rewrite H in B.
Qed.

Lemma parse_atom_shorter n ts e r : parse_atom n ts = Parsed e r -> length r < length ts.
Proof.
  intros H. destruct (parse_consumes n) as (_ & _ & _ & _ & _ & _ & _ & _ & B).
  specialize (B ts). by rewrite H in B.
Qed.

Lemma andthen_fuel p k :
  p <> OutOfFuel -> (forall e r, p = Parsed e r -> k e r <> OutOfFuel) ->
  andthen p k <> OutOfFuel.
Proof. destruct p; simpl; auto. Qed.

Lemma expect_rpar_fuel p k :
  p <> OutOfFuel -> (forall e r, p = Parsed e (TRpar :: r) -> k e r <> OutOfFuel) ->
  expect_rpar p k <> OutOfFuel.
Proof.
  intros Hp Hk. unfold expect_rpar. apply andthen_fuel; [done|].
  intros e [|[] r] He; try done. by apply Hk.
Qed.

(** With nine units of fuel per token and a few to spare, no parsing
    function runs out. *)
Lemma parse_fuel_suffices n :
  (forall ts, 9 * length ts + 6 <= n -> parse_sum n ts <> OutOfFuel) /\
  (forall l ts, 9 * length ts + 1 <= n -> sum_rest n l ts <> OutOfFuel) /\
  (forall ts, 9 * length ts + 5 <= n -> parse_term n ts <> OutOfFuel) /\
  (forall l ts, 9 * length ts + 1 <= n -> term_rest n l ts <> OutOfFuel) /\
  (forall ts, 9 * length ts + 4 <= n -> parse_factor n ts <> OutOfFuel) /\
  (forall ts, 9 * length ts + 3 <= n -> parse_power n ts <> OutOfFuel) /\
  (forall ts, 9 * length ts + 2 <= n -> parse_primary n ts <> OutOfFuel) /\
  (forall f ts, 9 * length ts + 1 <= n -> trailers n f ts <> OutOfFuel) /\
  (forall ts, 9 * length ts + 1 <= n -> parse_atom n ts <> OutOfFuel).
Proof.
  induction n as [|n (Hsum & Hsumr & Hterm & Htermr & Hfac & Hpow & Hprim & Htr & Hatom)].
  { repeat split; intros; lia. }
  repeat split.
  - intros ts Hn. rewrite parse_sum_eq. apply andthen_fuel; [apply Hterm; lia|].
    intros e r He%parse_term_shorter. apply Hsumr. lia.
  - intros l ts Hn. rewrite sum_rest_eq.
    destruct ts as [|[] ts']; try done; simpl in Hn;
      (apply andthen_fuel; [apply Hterm; lia|];
       intros e r He%parse_term_shorter; apply Hsumr; lia).
  - intros ts Hn. rewrite parse_term_eq. apply andthen_fuel; [apply Hfac; lia|].
    intros e r He%parse_factor_shorter. apply Htermr. lia.
  - intros l ts Hn. rewrite term_rest_eq.
    destruct ts as [|[] ts']; try done; simpl in Hn;
      (apply andthen_fuel; [apply Hfac; lia|];
       intros e r He%parse_factor_shorter; apply Htermr; lia).
  - intros ts Hn. rewrite parse_factor_eq.
    destruct ts as [|[] ts']; try (apply Hpow; lia); simpl in Hn;
      (apply andthen_fuel; [apply Hfac; lia|done]).
  - intros ts Hn. rewrite parse_power_eq. apply andthen_fuel; [apply Hprim; lia|].
    intros e r He%parse_primary_shorter. destruct r as [|[] r']; try done.
    simpl in He. apply andthen_fuel; [apply Hfac; lia|done].
  - intros ts Hn. rewrite parse_primary_eq. apply andthen_fuel; [apply Hatom; lia|].
    intros e r He%parse_atom_shorter. apply Htr. lia.
  - intros f ts Hn. rewrite trailers_eq.
    destruct ts as [|[] ts']; try done.
    destruct ts' as [|[] ts'']; try done; simpl in Hn;
      try (apply expect_rpar_fuel; [apply Hsum; simpl; lia|];
           intros e r He%parse_sum_shorter; simpl in He; apply Htr; lia).
    apply Htr. lia.
  - intros ts Hn. rewrite parse_atom_eq.
    destruct ts as [|[] ts']; try done.
    destruct ts' as [|[] ts'']; try done; simpl in Hn;
      (apply expect_rpar_fuel; [apply Hsum; simpl; lia|done]).
Qed.

(** The parser of a token list never stops for lack of fuel: when
    [parse_tokens] reports a syntax error, the grammar rejected the
    tokens. *)
Lemma parse_fuel_enough (ts : list token) : parse_sum (parse_fuel ts) ts <> OutOfFuel.
Proof. apply parse_fuel_suffices. unfold parse_fuel. lia. Qed.

End Parser.

Section Calculator.
Import Calc CalcEval.
Context {F : Type} {RT : PyRuntime F}.

Lemma raises_only_bind {A B} P (r : result A) (k : A -> result B) :
  raises_only P r -> (forall a, raises_only P (k a)) -> raises_only P (bind r k).
Proof. destruct r; simpl; auto. Qed.

Lemma raises_only_opt_or {A} P (o : option A) e :
  P e = true -> raises_only P (opt_or o e).
Proof. by destruct o. Qed.

Lemma tokenize_raises s : raises_only arithmetic_exn (tokenize s).
Proof. unfold tokenize. repeat case_match; done. Qed.

Lemma parse_tokens_raises ts : raises_only arithmetic_exn (parse_tokens ts).
Proof. unfold parse_tokens. repeat case_match; done. Qed.

Lemma ast_parse_raises s : raises_only arithmetic_exn (ast_parse s).
Proof.
  unfold ast_parse. apply raises_only_bind; [apply tokenize_raises|].
  intros ts. apply parse_tokens_raises.
Qed.

Lemma as_float_raises v : raises_only arithmetic_exn (as_float v).
Proof. destruct v; simpl; try done. by destruct (float_of_int z). Qed.

Lemma float_arith_raises fop a b : raises_only arithmetic_exn (float_arith fop a b).
Proof.
  unfold float_arith. apply raises_only_bind; [apply as_float_raises|]. intros x.
  apply raises_only_bind; [apply as_float_raises|]. intros y. by destruct x, y.
Qed.

Lemma complex_arith_raises a b : raises_only arithmetic_exn (complex_arith a b).
Proof.
  destruct a, b; simpl; try done;
    match goal with |- context [float_of_int ?z] => by destruct (float_of_int z) end.
Qed.

Lemma float_pow_raises (x y : F) :
  raises_only arithmetic_exn
    match float_pow x y with
    | PowFloat f => Ret (VFloat f)
    | PowComplex => Ret VComplex
    | PowZeroDivision => Raise ZeroDivisionError
    | PowOverflow => Raise OverflowError
    end.
Proof. by destruct (float_pow x y). Qed.

Lemma eval_binop_raises op a b : raises_only arithmetic_exn (eval_binop op a b).
Proof.
  unfold eval_binop. destruct (is_complex a || is_complex b).
  { destruct op; try apply complex_arith_raises; done. }
  destruct op.
  - destruct a, b; try apply float_arith_raises; done.
  - destruct a, b; try apply float_arith_raises; done.
  - destruct a, b; try apply float_arith_raises; done.
  - destruct a as [x|x| | |], b as [y|y| | |];
      try (apply raises_only_bind; [apply as_float_raises|]; intros [u|];
           (apply raises_only_bind; [apply as_float_raises|]); intros [v|];
           try done; by destruct (float_is_zero v)).
    destruct (y =? 0)%Z; [done|].
    apply raises_only_bind; [by apply raises_only_opt_or|done].
  - destruct a as [x|x| | |], b as [y|y| | |];
      try (apply raises_only_bind; [apply as_float_raises|]; intros [u|];
           (apply raises_only_bind; [apply as_float_raises|]); intros [v|];
           try done; by destruct (float_is_zero v)).
    by destruct (y =? 0)%Z.
  - destruct a as [x|x| | |], b as [y|y| | |];
      try (apply raises_only_bind; [apply as_float_raises|]; intros [u|];
           (apply raises_only_bind; [apply as_float_raises|]); intros [v|];
           try done; apply float_pow_raises).
    destruct (0 <=? y)%Z; [done|].
    apply raises_only_bind; [by apply raises_only_opt_or|]. intros u.
    apply raises_only_bind; [by apply raises_only_opt_or|]. intros v.
    apply float_pow_raises.
Qed.

Lemma eval_unaryop_raises op v : raises_only arithmetic_exn (eval_unaryop op v).
Proof. by destruct v, op. Qed.

Lemma eval_raises e : raises_only arithmetic_exn (eval e).
Proof.
  induction e; simpl; try done.
  - apply raises_only_bind; [done|]. intros a.
    apply raises_only_bind; [done|]. intros b. apply eval_binop_raises.
  - apply raises_only_bind; [done|]. intros v. apply eval_unaryop_raises.
  - by apply raises_only_bind.
  - apply raises_only_bind; [done|]. intros _. by apply raises_only_bind.
Qed.

Lemma str_round4_raises v : raises_only arithmetic_exn (str_round4 v).
Proof. destruct v; simpl; try done. by case_match. Qed.

(** Whatever goes wrong inside the [try] of [tool_calc] is an arithmetic
    or syntax error, hence an [Exception]. *)
Lemma calc_body_raises s : raises_only arithmetic_exn (calc_body s).
Proof.
  unfold calc_body. apply raises_only_bind; [apply ast_parse_raises|]. intros tree.
  apply raises_only_bind; [by case_match|]. intros _.
  apply raises_only_bind; [apply eval_raises|]. intros v. apply str_round4_raises.
Qed.

Lemma arithmetic_is_Exception e : arithmetic_exn e = true -> is_Exception e = true.
Proof. by destruct e. Qed.

Lemma tool_calc_spec s :
  tool_calc s = Ret match calc_body s with Ret out => out | Raise _ => MATH_ERROR end.
Proof.
  unfold tool_calc, try_except_Exception.
  pose proof (calc_body_raises s) as H. destruct (calc_body s) as [out|e]; [done|].
  simpl in H. by rewrite (arithmetic_is_Exception e H).
Qed.

Lemma sanitize_import_os : sanitize "import os" = " ".
Proof. reflexivity. Qed.

Lemma tool_calc_division_by_zero : tool_calc "10/0" = Ret MATH_ERROR.
Proof.
  rewrite tool_calc_spec. f_equal. unfold calc_body.
  change (ast_parse (sanitize "10/0"))
    with (Ret (BinOp (Constant (CInt "10")) Div (Constant (CInt "0")))).
  simpl. by destruct (within_cap 2 && within_cap 1).
Qed.

Lemma tool_calc_import_os : tool_calc "import os" = Ret MATH_ERROR.
Proof. reflexivity. Qed.

Lemma tool_calc_malformed : tool_calc "2+" = Ret MATH_ERROR /\ tool_calc "(1" = Ret MATH_ERROR.
Proof. split; reflexivity. Qed.

#[local] Arguments within_cap {F RT} digits : simpl never.




(** C7.  [tool_calc] returns for every input and never raises: its result
    is the text computed by the body of its [try] when that body returns,
    and the one fixed error string when it raises anything.  Division by
    zero, text that sanitizes to a lone blank, and malformed expressions
    give the error string. *)
Theorem tool_calc_total (expr : string) :
  tool_calc expr = Ret match calc_body expr with Ret out => out | Raise _ => MATH_ERROR end
  /\ tool_calc "10/0" = Ret MATH_ERROR
  /\ sanitize "import os" = " "
  /\ tool_calc "import os" = Ret MATH_ERROR
  /\ tool_calc "2+" = Ret MATH_ERROR
  /\ tool_calc "(1" = Ret MATH_ERROR.
Proof.
  split; [apply tool_calc_spec|].
  split; [apply tool_calc_division_by_zero|].
  split; [apply sanitize_import_os|].
  split; [apply tool_calc_import_os|].
  apply tool_calc_malformed.
Qed.

End Calculator.

Section CalculatorGrammar.
Import Calc CalcEval.
#[local] Arguments within_cap {F RT} digits : simpl never.


Lemma all_chars_impl (p q : ascii -> bool) s :
  (forall c, p c = true -> q c = true) -> all_chars p s = true -> all_chars q s = true.
Proof.
  intros Hpq. induction s as [|c s IH]; simpl; [done|].
  intros [Hc Hs]%andb_prop. rewrite (Hpq c Hc). simpl. auto.
Qed.



End CalculatorGrammar.

(** * Web search *)

Section SearchFacts.
Import WebSearch.

Lemma rev_app_append (s1 s2 s3 : string) :
  String.rev_app s1 s2 +:+ s3 = String.rev_app s1 (s2 +:+ s3).
Proof. revert s2. induction s1 as [|c s1 IH]; intros s2; simpl; [done|]. by rewrite IH. Qed.

Lemma prefix_newline (c : ascii) (s : string) :
  String.prefix NL (String c s) = Ascii.eqb c (ascii_of_nat 10).
Proof.
  destruct c as [[] [] [] [] [] [] [] []], s; reflexivity.
Qed.

Lemma split_go_step (c : ascii) (r cur : string) :
  split_go NL 0 cur (String c r) =
  if Ascii.eqb c (ascii_of_nat 10)
  then String.rev cur :: split_go NL 0 "" r
  else split_go NL 0 (String c cur) r.
Proof.
  change (split_go NL 0 cur (String c r))
    with (if String.prefix NL (String c r)
          then String.rev cur :: split_go NL (String.length NL - 1) "" r
          else split_go NL 0 (String c cur) r).
  by rewrite prefix_newline.
Qed.

Lemma split_go_single_line (s cur : string) :
  single_line s = true -> split_go NL 0 cur s = [String.rev_app cur s].
Proof.
  revert cur. induction s as [|c s IH]; intros cur H.
  - done.
  - simpl in H. apply andb_prop in H as [Hc Hs]. rewrite split_go_step.
    destruct (Ascii.eqb c (ascii_of_nat 10)); [done|]. by rewrite IH.
Qed.

Lemma split_go_first_line (x rest cur : string) :
  single_line x = true ->
  split_go NL 0 cur (x +:+ NL +:+ rest) = String.rev_app cur x :: split_go NL 0 "" rest.
Proof.
  revert cur. induction x as [|c x IH]; intros cur H.
  - change ("" +:+ NL +:+ rest) with (String (ascii_of_nat 10) rest).
    by rewrite split_go_step.
  - simpl in H. apply andb_prop in H as [Hc Hs].
    change (String c x +:+ NL +:+ rest) with (String c (x +:+ NL +:+ rest)).
    rewrite split_go_step.
    destruct (Ascii.eqb c (ascii_of_nat 10)); [done|]. by rewrite IH.
Qed.

(** Splitting at newlines undoes joining with newlines, for lines that
    hold none. *)
Lemma lines_join (l : list string) :
  l <> [] -> Forall (fun s => single_line s = true) l -> lines (join NL l) = l.
Proof.
  unfold lines, split, join. induction l as [|x l IH]; [done|]. intros _ H.
  apply Forall_cons in H as [Hx Hl]. destruct l as [|y l].
  - simpl. by rewrite split_go_single_line.
  - change (String.concat NL (x :: y :: l)) with (x +:+ NL +:+ String.concat NL (y :: l)).
    rewrite split_go_first_line by done. simpl. f_equal. by apply IH.
Qed.

Lemma blank_body (r : gmap string string) :
  hit_body r = "" <-> blank_field r "body" /\ blank_field r "snippet".
Proof.
  unfold hit_body, blank_field.
  destruct (r !! "body") as [[|c b]|]; destruct (r !! "snippet") as [[|d s]|]; simpl;
    intuition congruence.
Qed.

(** A hit without body text is skipped before its signature is looked
    at, whatever its title. *)
Lemma collect_skips_blank r raw seen results :
  hit_body r = "" -> collect (r :: raw) seen results = collect raw seen results.
Proof. intros H. simpl. by rewrite H. Qed.

Lemma collect_entries (all : list (gmap string string)) raw :
  forall seen results,
    raw ⊆ all -> Forall (entry_of all) results ->
    Forall (entry_of all) (collect raw seen results).
Proof.
  induction raw as [|r raw IH]; intros seen results Hsub Hres; simpl; [done|].
  assert (Hraw : raw ⊆ all) by set_solver.
  destruct (String.eqb (hit_body r) "") eqn:E; [by apply IH|].
  case_decide; [by apply IH|]. apply IH; [done|].
  apply Forall_app; split; [done|]. apply Forall_singleton.
  exists r. split; [set_solver|]. split; [|done]. by apply String.eqb_neq.
Qed.

(** C10, as stated, fails on its count of lines: a body that spans
    several lines is copied as it is. *)
Lemma search_output_more_than_three_lines :
  ~ (forall news text : list (gmap string string),
       _search news text <> NO_RESULTS -> length (lines (_search news text)) <= 3).
Proof.
  intros H.
  specialize (H [ {[ "title" := "t"; "body" := "a" +:+ NL +:+ "b" +:+ NL +:+ "c" +:+ NL +:+ "d" ]} ] []).
  vm_compute in H. apply (Nat.nle_succ_diag_l 3). apply H. discriminate.
Qed.

(** C10, amended.  A hit whose body and snippet are both absent or empty
    is skipped before deduplication, whatever its title.  The output of a
    search is either the fixed no-results text or at most 3 entries
    joined by newlines, each the rendering [- title: body] of a hit with
    a non-empty body; it has as many lines as entries when no entry holds
    a newline. *)
Theorem search_output_entries (news text : list (gmap string string)) :
  (forall r raw seen results,
      blank_field r "body" -> blank_field r "snippet" ->
      collect (r :: raw) seen results = collect raw seen results)
  /\ exists entries : list string,
       length entries <= 3
       /\ Forall (entry_of (news ++ text)) entries
       /\ _search news text
          = match entries with [] => NO_RESULTS | _ => join NL entries end
       /\ (entries <> [] -> Forall (fun s => single_line s = true) entries ->
           lines (_search news text) = entries).
Proof.
  split.
  { intros r raw seen results Hb Hs. apply collect_skips_blank. by apply blank_body. }
  exists (take 3 (collect (news ++ text) ∅ [])).
  assert (Hall : Forall (entry_of (news ++ text)) (collect (news ++ text) ∅ []))
    by (by apply collect_entries).
  assert (Hout : _search news text
                 = match take 3 (collect (news ++ text) ∅ []) with
                   | [] => NO_RESULTS
                   | _ => join NL (take 3 (collect (news ++ text) ∅ []))
                   end).
  { unfold _search. by destruct (collect (news ++ text) ∅ []). }
  split; [rewrite length_take; lia|].
  split; [by apply Forall_take|].
  split; [done|].
  intros Hne Hlines. rewrite Hout.
  destruct (take 3 (collect (news ++ text) ∅ [])) eqn:E; [done|]. by apply lines_join.
Qed.

End SearchFacts.

(** * Cleaning roster *)

Section ScheduleFacts.
Import Schedule.
Open Scope Z_scope.

Lemma month_map_nonzero (s : string) (m : Z) : MONTH_MAP !! s = Some m -> (m =? 0) = false.
Proof.
  intros H. apply Z.eqb_neq. intros ->.
  assert (Hin : (s, 0) ∈ map_to_list MONTH_MAP) by by apply elem_of_map_to_list.
  apply list_elem_of_In in Hin. vm_compute in Hin. intuition discriminate.
Qed.

Lemma parse_schedule_date_spec (now : datetime) (date_range : string) :
  parse_schedule_date now date_range
  = match first_date date_range with
    | None => None
    | Some (m, dd) =>
        let y := expected_year (year now) (month now) m in
        if valid_date (year now) m dd && valid_date y m dd
        then Some (midnight y m dd) else None
    end.
Proof.
  unfold parse_schedule_date, first_date.
  destruct (words _) as [|month_str [|day_str [|]]]; try done.
  destruct (MONTH_MAP !! month_str) as [m|] eqn:Hm; [|done].
  rewrite (month_map_nonzero _ _ Hm).
  destruct (int_of_string day_str) as [dd|]; [|done].
  unfold date, expected_year, replace_year.
  destruct (valid_date (year now) m dd) eqn:Hv; simpl; [|done].
  destruct ((month now =? 12) && (m =? 1)); [done|].
  destruct ((month now =? 1) && (m =? 12)); [done|].
  by rewrite Hv.
Qed.

Lemma jan_03_seen_in_december (now : datetime) :
  parse_schedule_date
    {| year := year now; month := 12; day := 28;
       hour := hour now; minute := minute now; second := second now;
       microsecond := microsecond now |} "Jan 03 - 04"
  = if (1 <=? year now) && (year now <=? 9998)
    then Some (midnight (year now + 1) 1 3) else None.
Proof.
  rewrite parse_schedule_date_spec.
  change (first_date "Jan 03 - 04") with (Some (1, 3)). cbv zeta.
  unfold expected_year, valid_date. simpl.
  change (days_in_month (year now) 1) with 31.
  change (days_in_month (year now + 1) 1) with 31.
  destruct (1 <=? year now) eqn:E1, (year now <=? 9998) eqn:E2,
           (year now <=? 9999) eqn:E3, (1 <=? year now + 1) eqn:E4,
           (year now + 1 <=? 9999) eqn:E5; simpl; try reflexivity; lia.
Qed.


Lemma in_every_year_valid (y m dd : Z) :
  in_every_year m dd = true -> 1 <= y <= 9999 -> valid_date y m dd = true.
Proof.
  unfold in_every_year, valid_date, days_in_month. intros H Hy.
  destruct (m =? 2); [destruct (is_leap y)|]; lia.
Qed.

(** Every label of the roster resolves to a date, whatever the clock
    shows between the years 2 and 9998. *)
Lemma roster_rows_resolve (now : datetime) (row : gmap string string) :
  row ∈ DictReader CLEANING_DATA -> 2 <= year now <= 9998 ->
  is_Some (parse_schedule_date now (field row "Date Range")).
Proof.
  intros Hrow Hy.
  assert (Hall : forallb (fun r => match first_date (field r "Date Range") with
                                   | Some (m, dd) => in_every_year m dd
                                   | None => false
                                   end) (DictReader CLEANING_DATA) = true)
    by (vm_compute; reflexivity).
  rewrite forallb_forall in Hall. specialize (Hall row).
  rewrite <- list_elem_of_In in Hall. specialize (Hall Hrow).
  rewrite parse_schedule_date_spec.
  destruct (first_date (field row "Date Range")) as [[m dd]|]; [|done]. cbv zeta.
  rewrite !in_every_year_valid; [by eexists|done| |done|lia].
  unfold expected_year. repeat case_match; lia.
Qed.

(** C8.  The date that a label resolves to has the month and day that
    the label starts with, at midnight, in the current year, except that
    a January row seen in December belongs to the next year and a
    December row seen in January to the previous one; the label resolves
    exactly when it starts with a month abbreviation and a day that form
    a date in the current year and in the year chosen.  Seen on December
    28, the label [Jan 03 - 04] is January 3 of the next year. *)
Theorem parse_schedule_date_year (now : datetime) (date_range : string) :
  parse_schedule_date now date_range
  = match first_date date_range with
    | None => None
    | Some (m, dd) =>
        let y := expected_year (year now) (month now) m in
        if valid_date (year now) m dd && valid_date y m dd
        then Some (midnight y m dd) else None
    end
  /\ parse_schedule_date
       {| year := year now; month := 12; day := 28;
          hour := hour now; minute := minute now; second := second now;
          microsecond := microsecond now |} "Jan 03 - 04"
     = if (1 <=? year now) && (year now <=? 9998)
       then Some (midnight (year now + 1) 1 3) else None.
Proof.
  split; [|apply jan_03_seen_in_december].
  apply parse_schedule_date_spec.
Qed.


(** *** Sorting *)

Lemma insert_by_key_perm {A} (x : Z * A) l : Permutation (insert_by_key x l) (x :: l).
Proof.
  induction l as [|y l IH]; simpl; [done|].
  destruct (x.1 <=? y.1); [done|]. rewrite IH. apply perm_swap.
Qed.

Lemma sort_by_key_perm {A} (l : list (Z * A)) : Permutation (sort_by_key l) l.
Proof.
  induction l as [|x l IH]; simpl; [done|].
  rewrite insert_by_key_perm. by constructor.
Qed.

Lemma insert_by_key_sorted {A} (x : Z * A) l :
  StronglySorted key_le l -> StronglySorted key_le (insert_by_key x l).
Proof.
  induction 1 as [|y l Hl IH Hy]; simpl.
  - repeat constructor.
  - destruct (x.1 <=? y.1) eqn:E.
    + constructor; [by constructor|]. apply Z.leb_le in E. constructor; [done|].
      eapply Forall_impl; [exact Hy|]. unfold key_le. intros; lia.
    + constructor; [done|]. apply Z.leb_gt in E.
      rewrite (insert_by_key_perm x l). constructor; [|done]. unfold key_le. lia.
Qed.

Lemma sort_by_key_sorted {A} (l : list (Z * A)) : StronglySorted key_le (sort_by_key l).
Proof.
  induction l as [|x l IH]; simpl; [constructor|]. by apply insert_by_key_sorted.
Qed.

(** *** The window *)

Lemma future_rows_spec (now : datetime) (rows : list (gmap string string))
    (delta : Z) (row : gmap string string) :
  (delta, row) ∈ future_rows now rows
  <-> row ∈ rows /\ row_delta now row = Some delta /\ -2 <= delta <= 30.
Proof.
  unfold future_rows. rewrite list_elem_of_In, in_flat_map. unfold candidate, row_delta.
  split.
  - intros (r & Hr & Hin). apply list_elem_of_In in Hr.
    destruct (parse_schedule_date now (field r "Date Range")) as [d|] eqn:Hp; [|done].
    destruct (in_window (delta_days d now)) eqn:Hw; [|done].
    destruct Hin as [[= <- <-]|[]]. unfold in_window in Hw. rewrite Hp. simpl.
    split; [done|]. split; [done|lia].
  - intros (Hr & Hd & Hw). exists row. split; [by apply list_elem_of_In|].
    destruct (parse_schedule_date now (field row "Date Range")) as [d|]; [|done].
    injection Hd as <-. unfold in_window.
    replace ((-2 <=? delta_days d now) && (delta_days d now <=? 30)) with true by lia.
    by left.
Qed.

(** *** The clock within a day *)

Lemma microseconds_split (d : datetime) :
  microseconds d = toordinal d * 86400000000 + time_of_day d.
Proof. unfold microseconds, time_of_day. lia. Qed.

Lemma delta_days_at_midnight (y m dd : Z) (now : datetime) :
  time_of_day now = 0 ->
  delta_days (midnight y m dd) now = toordinal (midnight y m dd) - toordinal now.
Proof.
  intros H. unfold delta_days. rewrite !microseconds_split, H.
  change (time_of_day (midnight y m dd)) with 0.
  generalize (toordinal (midnight y m dd)) (toordinal now). intros a b.
  replace (a * 86400000000 + 0 - (b * 86400000000 + 0))
    with ((a - b) * 86400000000) by lia.
  apply Z.div_mul. lia.
Qed.

Lemma delta_days_after_midnight (y m dd : Z) (now : datetime) :
  0 < time_of_day now < 86400000000 ->
  delta_days (midnight y m dd) now = toordinal (midnight y m dd) - toordinal now - 1.
Proof.
  intros H. unfold delta_days. rewrite !microseconds_split.
  change (time_of_day (midnight y m dd)) with 0.
  generalize dependent (time_of_day now).
  generalize (toordinal (midnight y m dd)) (toordinal now). intros a b t Ht.
  replace (a * 86400000000 + 0 - (b * 86400000000 + t))
    with ((a - b - 1) * 86400000000 + (86400000000 - t)) by lia.
  rewrite Z.div_add_l by lia. rewrite Z.div_small by lia. lia.
Qed.


(** After midnight, the rows kept depend on the day only. *)
Lemma candidate_after_midnight (now now' : datetime) (row : gmap string string) :
  same_day now now' ->
  0 < time_of_day now < 86400000000 -> 0 < time_of_day now' < 86400000000 ->
  candidate now row = candidate now' row.
Proof.
  intros (Hy & Hm & Hd) Ht Ht'. unfold candidate.
  rewrite !parse_schedule_date_spec, Hy, Hm.
  destruct (first_date (field row "Date Range")) as [[m dd]|]; [|done]. cbv zeta.
  destruct (valid_date (year now') m dd && _); [|done].
  rewrite !delta_days_after_midnight by done.
  unfold toordinal at 2 4. by rewrite Hy, Hm, Hd.
Qed.

Lemma shown_after_midnight (now now' : datetime) (rows : list (gmap string string)) :
  same_day now now' ->
  0 < time_of_day now < 86400000000 -> 0 < time_of_day now' < 86400000000 ->
  shown now rows = shown now' rows.
Proof.
  intros Hs Ht Ht'. unfold shown, future_rows. do 2 f_equal.
  apply flat_map_ext. intros row. by apply candidate_after_midnight.
Qed.


Lemma shown_labels_jan_5_after_midnight (now : datetime) :
  same_day now (midnight 2025 1 5) ->
  0 < time_of_day now < 86400000000 ->
  shown_labels now = ["Jan 10 - 11"; "Jan 17 - 18"; "Jan 24 - 25"].
Proof.
  intros Hs Ht. unfold shown_labels.
  rewrite (shown_after_midnight now (noon 2025 1 5)); [by vm_compute|done|done|].
  by vm_compute.
Qed.

(** C5, as stated, fails: on January 5, 2025 at noon the row
    [Jan 03 - 04] lies more than two days back and is not shown. *)
Lemma jan_03_not_shown_at_noon :
  ~ (forall now : datetime,
       same_day now (midnight 2025 1 5) ->
       0 <= time_of_day now < 86400000000 ->
       "Jan 03 - 04" ∈ shown_labels now).
Proof.
  intros H. specialize (H (noon 2025 1 5)).
  assert (Hl : shown_labels (noon 2025 1 5)
               = ["Jan 10 - 11"; "Jan 17 - 18"; "Jan 24 - 25"]) by (by vm_compute).
  rewrite Hl in H.
  assert (Hin : "Jan 03 - 04" ∈ ["Jan 10 - 11"; "Jan 17 - 18"; "Jan 24 - 25"]).
  { apply H; [done|]. by vm_compute. }
  apply list_elem_of_In in Hin. simpl in Hin. intuition discriminate.
Qed.

(** C5, amended.  With the day-delta of a row being the whole days from
    [now] to the midnight that starts the row's date, rounded down, the
    rows kept are exactly those with a delta from -2 to 30; they are
    sorted by ascending delta and the first 3 are rendered.  On January
    5, 2025 at midnight exactly, the rows shown are [Jan 03 - 04] (delta
    -2) and the next two; at any later time of that day they are the rows
    of January 10, 17 and 24. *)
Theorem check_schedule_window (now : datetime) (rows : list (gmap string string)) :
  (forall delta row,
      (delta, row) ∈ future_rows now rows
      <-> row ∈ rows /\ row_delta now row = Some delta /\ -2 <= delta <= 30)
  /\ StronglySorted key_le (sort_by_key (future_rows now rows))
  /\ Permutation (sort_by_key (future_rows now rows)) (future_rows now rows)
  /\ shown now rows = take 3 (sort_by_key (future_rows now rows))
  /\ check_schedule now rows
     = match future_rows now rows with
       | [] => NO_SCHEDULE
       | _ => SCHEDULE_HEADER +:+ String.concat "" (map (fun x => render x.2) (shown now rows))
       end
  /\ map (fun x => x.1) (shown (midnight 2025 1 5) (DictReader CLEANING_DATA)) = [-2; 5; 12]
  /\ shown_labels (midnight 2025 1 5) = ["Jan 03 - 04"; "Jan 10 - 11"; "Jan 17 - 18"]
  /\ (same_day now (midnight 2025 1 5) -> 0 < time_of_day now < 86400000000 ->
      shown_labels now = ["Jan 10 - 11"; "Jan 17 - 18"; "Jan 24 - 25"]).
Proof.
  split; [intros; apply future_rows_spec|].
  split; [apply sort_by_key_sorted|].
  split; [apply sort_by_key_perm|].
  split; [done|]. split; [done|].
  split; [by vm_compute|]. split; [by vm_compute|].
  apply shown_labels_jan_5_after_midnight.
Qed.

End ScheduleFacts.

(** * The handler *)

Section HandlerFacts.
Import Bot Directive CalcEval.
Context {F : Type} {RT : PyRuntime F}.
Variable env : Env F.
Implicit Types (w : World F) (ev : Event F).
#[local] Existing Instance M_bind.

(** *** Counting the calls of the model *)

Lemma model_calls_emit ev w :
  model_calls (emit ev w).2 = model_calls w + (if is_completion ev then 1 else 0).
Proof.
  unfold model_calls, emit. simpl. rewrite filter_app, length_app. f_equal.
  destruct ev; reflexivity.
Qed.


Lemma calls_kept_ret {A} (a : A) : calls_kept (F:=F) (ret a).
Proof. done. Qed.

Lemma calls_kept_lift {A} (r : result A) : calls_kept (F:=F) (lift r).
Proof. done. Qed.

Lemma calls_kept_bind {A B} (m : M A) (k : A -> M B) :
  calls_kept (F:=F) m -> (forall a, calls_kept (F:=F) (k a)) -> calls_kept (F:=F) (m ≫= k).
Proof.
  intros Hm Hk w. unfold mbind, M_bind, bind_M. specialize (Hm w).
  destruct (m w) as [[a|e] w1]; simpl in *; [|done]. by rewrite Hk.
Qed.

Lemma calls_kept_try_bare {A} (m h : M A) :
  calls_kept (F:=F) m -> calls_kept (F:=F) h -> calls_kept (F:=F) (try_bare m h).
Proof.
  intros Hm Hh w. unfold try_bare. specialize (Hm w).
  destruct (m w) as [[a|e] w1]; simpl in *; [done|]. by rewrite Hh.
Qed.

Lemma calls_kept_emit ev : is_completion ev = false -> calls_kept (F:=F) (emit ev).
Proof. intros H w. rewrite model_calls_emit, H. lia. Qed.

Lemma calls_kept_call {A} (ask : nat -> result A) (mk : result A -> Event F) :
  (forall r, is_completion (mk r) = false) -> calls_kept (F:=F) (call ask mk).
Proof. intros H w. unfold call. cbn [snd]. rewrite model_calls_emit, H. lia. Qed.

(** Running a computation that reads the clock: it returns the value
    that the clock of the environment leads to, and adds the readings,
    and nothing else, to the trace. *)
Lemma run_clocked_run_on {A} (m : Schedule.clocked A) : forall w,
  run_clocked env m w
  = (Ret (Schedule.run_on (datetime_now env) (length (trace w)) m).1,
     {| ANNOUNCE_CHAT_ID := ANNOUNCE_CHAT_ID w;
        session_memory := session_memory w;
        trace := trace w
                 ++ map ClockRead
                      (Schedule.run_on (datetime_now env) (length (trace w)) m).2 |}).
Proof.
  induction m as [a|k IH]; intros w.
  - destruct w. cbn. by rewrite app_nil_r.
  - cbn [run_clocked Schedule.run_on]. unfold mbind, M_bind, bind_M, read_clock.
    cbn [fst snd emit]. rewrite IH.
    cbn [trace ANNOUNCE_CHAT_ID session_memory fst snd map].
    rewrite length_app. cbn [length].
    replace (length (trace w) + 1) with (S (length (trace w))) by lia.
    by rewrite <- app_assoc.
Qed.

Lemma clock_reads_are_no_calls (l : list Schedule.datetime) :
  filter (fun ev : Event F => is_completion ev = true) (map ClockRead l) = [].
Proof.
  induction l as [|now l IH]; [done|]. cbn [map].
  by rewrite filter_cons_False.
Qed.

Lemma calls_kept_run_clocked {A} (m : Schedule.clocked A) :
  calls_kept (F:=F) (run_clocked env m).
Proof.
  intros w. rewrite run_clocked_run_on. unfold model_calls. cbn [snd trace].
  by rewrite filter_app, clock_reads_are_no_calls, app_nil_r.
Qed.

Lemma calls_kept_safe_edit chat_id message_id txt :
  calls_kept (F:=F) (safe_edit_message env chat_id message_id txt).
Proof.
  intros w. unfold safe_edit_message.
  pose proof (calls_kept_call (fun t => edit_message_text env t chat_id message_id txt)
                (EditMessageText chat_id message_id txt) (fun _ => eq_refl) w) as H.
  fold (bot_edit_message_text env chat_id message_id txt) in H.
  destruct (bot_edit_message_text env chat_id message_id txt w) as [[u|e] w1];
    cbn [snd] in *; [done|].
  destruct e; try done. destruct (contains "Message is not modified" msg); [done|].
  rewrite model_calls_emit. cbn [is_completion]. lia.
Qed.

Lemma calls_kept_remind chat_id arg : calls_kept (F:=F) (remind_body env chat_id arg).
Proof.
  unfold remind_body. destruct (split_space_once _) as [first rest].
  apply calls_kept_bind; [apply calls_kept_lift|]. intros minutes.
  apply calls_kept_bind; [apply calls_kept_lift|]. intros sixty.
  apply calls_kept_bind; [by apply calls_kept_call|]. intros _. apply calls_kept_ret.
Qed.

Lemma calls_kept_dispatch chat_id status_id tool arg :
  calls_kept (F:=F) (dispatch env chat_id status_id tool arg).
Proof.
  unfold dispatch. repeat case_match.
  - apply calls_kept_bind; [apply calls_kept_safe_edit|]. intros _ w.
    unfold run_search. cbn [snd]. rewrite model_calls_emit. simpl. lia.
  - apply calls_kept_lift.
  - apply calls_kept_bind; [apply calls_kept_safe_edit|]. intros _.
    apply calls_kept_run_clocked.
  - apply calls_kept_try_bare; [apply calls_kept_remind|apply calls_kept_ret].
  - apply calls_kept_ret.
Qed.



(** *** Tools that cannot fail *)




(** When every reply holds a directive, the loop can only end by running
    out of steps or by an exception: it never adopts a reply. *)
Lemma agent_loop_never_adopts steps :
  always_directive env ->
  forall chat_id status_id messages final_reply w,
    match (agent_loop env steps chat_id status_id messages final_reply w).1 with
    | Ret r => r = final_reply
    | Raise _ => True
    end.
Proof.
  intros Hd. induction steps as [|n IH]; intros chat_id status_id messages final_reply w.
  { done. }
  simpl. unfold mbind, M_bind, bind_M.
  destruct (Hd (length (trace w)) messages) as (content & Hcontent & [[g1 g2] Hre]).
  unfold create_completion, call. rewrite Hcontent. simpl. rewrite Hre.
  destruct (dispatch env _ _ _ _ _) as [[obs|e] w2]; [|done]. apply IH.
Qed.

End HandlerFacts.

Section HandlerClaims.
Import Bot Directive CalcEval.
Context {F : Type} {RT : PyRuntime F}.
Variable env : Env F.
Implicit Types (w : World F) (ev : Event F).
#[local] Existing Instance M_bind.




(** C1, as stated, fails: after five directives the reply is not the
    model's last text, nor its substitute for a leaked directive. *)
Lemma exhausted_loop_ignores_model_text :
  ~ (forall (e : Env unit) (messages : list Turn) (w : World unit),
       always_directive e ->
       exists txt,
         last_model_text (agent_reply e 7 1000 messages w).2 = Some txt /\
         (agent_reply e 7 1000 messages w).1 = Ret (without_leak txt)).
Proof.
  intros H.
  specialize (H (scripted_env "ACTION: CALC 1+1" (Ret tt)) [] fresh_world).
  destruct H as (txt & Hlast & Hreply).
  { intros t messages. exists "ACTION: CALC 1+1". split; [done|].
    exists ("CALC", "1+1"). reflexivity. }
  vm_compute in Hlast. injection Hlast as <-. vm_compute in Hreply. discriminate Hreply.
Qed.

(** *** Admission *)

(** C4, amended.  A text message that is not admitted causes no outside
    call at all (so no outbound message) and leaves the conversation
    memory as it was; it does set the announcement target to its chat,
    as every text message does, admitted or not. *)
Theorem unaddressed_message (upd : Update) (msg : Message) (raw : string) w :
  message upd = Some msg -> text msg = Some raw -> raw <> "" ->
  not_addressed env msg raw ->
  trace (handle_message env upd w).2 = trace w
  /\ outbound (handle_message env upd w).2 = outbound w
  /\ session_memory (handle_message env upd w).2 = session_memory w
  /\ ANNOUNCE_CHAT_ID (handle_message env upd w).2 = Some (effective_chat_id upd).
Proof.
  intros Hmsg Htext Hraw (Hty & Hreply & Hmention).
  unfold handle_message. rewrite Hmsg, Htext.
  destruct raw as [|c raw']; [done|].
  unfold mbind, M_bind, bind_M, set_announce_chat, is_direct, outbound.
  rewrite Hmention.
  destruct (chat_type msg); try done;
    (destruct (reply_to_message msg) as [[sender|]|]; cbn;
     [destruct (sender =? bot_id env)%Z eqn:E; [apply Z.eqb_eq in E; congruence|done]
     |done|done]).
Qed.

(** *** Delivery of the final reply *)

(** A final edit rejected as a bad request, other than for unchanged
    content, is logged and nothing more is sent. *)
Lemma deliver_bad_request (chat_id status_id : Z) (final_reply msg : string) w :
  edit_message_text env (length (trace w)) chat_id status_id final_reply
    = Raise (BadRequest msg) ->
  contains "Message is not modified" msg = false ->
  deliver env chat_id status_id final_reply w
  = (Ret tt,
     {| ANNOUNCE_CHAT_ID := ANNOUNCE_CHAT_ID w;
        session_memory := update_memory chat_id "assistant" final_reply (session_memory w);
        trace := trace w
                 ++ [EditMessageText chat_id status_id final_reply (Raise (BadRequest msg))]
                 ++ [Log "WARNING" ("Edit failed: " +:+ msg)] |}).
Proof.
  intros Hedit Hmsg.
  unfold deliver, try_bare, mbind, M_bind, bind_M, safe_edit_message,
    bot_edit_message_text, call.
  rewrite Hedit. cbn. rewrite Hmsg. cbn. by rewrite <- app_assoc.
Qed.

(** A final edit that fails with any other exception is followed by a
    fresh message with the reply. *)
Lemma deliver_falls_back (chat_id status_id : Z) (final_reply : string) (e : exn) w :
  edit_message_text env (length (trace w)) chat_id status_id final_reply = Raise e ->
  (forall msg, e <> BadRequest msg) ->
  exists outcome,
    trace (deliver env chat_id status_id final_reply w).2
    = trace w ++ [EditMessageText chat_id status_id final_reply (Raise e);
                  SendMessage chat_id final_reply outcome].
Proof.
  intros Hedit He.
  unfold deliver, try_bare, mbind, M_bind, bind_M, safe_edit_message,
    bot_edit_message_text, call.
  rewrite Hedit. cbn.
  exists (send_message env (length (trace w ++ [EditMessageText chat_id status_id final_reply (Raise e)])) chat_id final_reply).
  destruct e; try (by specialize (He msg));
    cbn; (destruct (send_message env _ chat_id final_reply); cbn; by rewrite <- app_assoc).
Qed.

End HandlerClaims.

(** *** Runs in which every reply holds a directive *)

Section RunFacts.
Import Bot Directive CalcEval.
Context {F : Type} {RT : PyRuntime F}.
Variable env : Env F.
Implicit Types (w : World F) (ev : Event F).
#[local] Existing Instance M_bind.

Lemma events_since_app w w' evs : trace w' = trace w ++ evs -> events_since w w' = evs.
Proof. intros H. unfold events_since. by rewrite H, drop_app_length. Qed.

Lemma tool_events_safe_edit chat_id message_id txt :
  tool_events (F:=F) (safe_edit_message env chat_id message_id txt).
Proof.
  intros w. unfold safe_edit_message, bot_edit_message_text, call.
  destruct (edit_message_text env (length (trace w)) chat_id message_id txt) as [[]|e] eqn:E.
  { eexists. cbn [fst snd emit trace]. split; [reflexivity|].
    split; [by repeat constructor|]. intros e [=]. }
  destruct e;
    try (eexists; cbn [fst snd emit trace]; split; [reflexivity|];
         split; [by repeat constructor|]; intros e' [= <-]; by left).
  destruct (contains "Message is not modified" msg).
  - eexists. cbn [fst snd emit trace]. split; [reflexivity|].
    split; [by repeat constructor|]. intros e [=].
  - eexists. cbn [fst snd emit trace]. rewrite <- app_assoc. split; [reflexivity|].
    split; [by repeat constructor|]. intros e [=].
Qed.

Lemma tool_events_dispatch chat_id status_id tool arg :
  tool_events (F:=F) (dispatch env chat_id status_id tool arg).
Proof.
  assert (Hthen : forall txt (m : M string),
            (forall w, exists obs evs,
                m w = (Ret obs, {| ANNOUNCE_CHAT_ID := ANNOUNCE_CHAT_ID w;
                                   session_memory := session_memory w;
                                   trace := trace w ++ evs |})
                /\ Forall (fun ev => is_completion ev = false) evs) ->
            tool_events (F:=F) (_ ← safe_edit_message env chat_id status_id txt ; m)).
  { intros txt m Hm w. unfold mbind, M_bind, bind_M.
    destruct (tool_events_safe_edit chat_id status_id txt w) as (l1 & H1 & Hc1 & Hr1).
    destruct (safe_edit_message env chat_id status_id txt w) as [[[]|e] w1];
      cbn [fst snd] in *.
    - destruct (Hm w1) as (obs & l2 & -> & Hc2). cbn [fst snd trace].
      exists (l1 ++ l2). rewrite H1, <- app_assoc. split; [done|].
      split; [by apply Forall_app|]. intros e [=].
    - exists l1. split; [done|]. split; [done|]. intros e' [= <-]. by apply (Hr1 e). }
  intros w. unfold dispatch. repeat case_match.
  - apply Hthen. intros w1. eexists _, [_]. unfold run_search, emit. cbn [snd].
    split; [reflexivity|]. by repeat constructor.
  - exists []. unfold lift. cbn [fst snd]. rewrite app_nil_r. split; [done|].
    split; [done|]. rewrite tool_calc_spec. intros e [=].
  - apply Hthen. intros w1. unfold run_check_schedule. rewrite run_clocked_run_on.
    eexists _, _. split; [reflexivity|].
    apply Forall_forall. intros ev Hev. apply list_elem_of_fmap in Hev as (now & -> & _).
    reflexivity.
  - unfold try_bare, remind_body.
    destruct (split_space_once (strip_chars (DQ +:+ ".") arg)) as [first rest].
    unfold mbind, M_bind, bind_M, lift, opt_or.
    destruct (float_of_string first) as [minutes|].
    2: { exists []. cbn. rewrite app_nil_r. by repeat split. }
    destruct (float_of_int 60) as [sixty|].
    2: { exists []. cbn. rewrite app_nil_r. by repeat split. }
    unfold call.
    destruct (run_once env (length (trace w)) chat_id (float_mul minutes sixty)
                (default "timer" rest)) as [[]|e'];
      (eexists [_]; cbn; split; [reflexivity|];
       split; [by repeat constructor|]; intros e [=]).
  - exists []. cbn. rewrite app_nil_r. by repeat split.
Qed.

(** A run in which every reply of the model holds a directive never
    adopts a reply: it ends with [final_reply] as it was, or with the
    exception of a status edit that failed hard. *)
Lemma agent_loop_directives_only steps : forall chat_id status_id messages final_reply w,
  exists evs,
    trace (agent_loop env steps chat_id status_id messages final_reply w).2
    = trace w ++ evs
    /\ (Forall (fun ev => directive_reply ev = true) evs ->
        match (agent_loop env steps chat_id status_id messages final_reply w).1 with
        | Ret r => r = final_reply
        | Raise _ => Exists (fun ev => edit_failed_hard ev = true) evs
        end).
Proof.
  induction steps as [|n IH]; intros chat_id status_id messages final_reply w.
  { exists []. split; [by rewrite app_nil_r|]. done. }
  simpl. unfold mbind, M_bind, bind_M, create_completion, call.
  destruct (chat_completion env (length (trace w)) messages) as [content|e0].
  2: { eexists [_]. cbn [fst snd emit trace]. split; [reflexivity|].
       intros H. apply Forall_cons in H as [H _]. discriminate H. }
  cbn [fst snd].
  set (first := ChatCompletion messages (Ret content)).
  set (w1 := (emit first w).2).
  assert (H1 : trace w1 = trace w ++ [first]) by reflexivity.
  destruct (re_search (strip content)) as [[g1 g2]|] eqn:Hre.
  2: { exists [first]. split; [exact H1|]. intros H. apply Forall_cons in H as [H _].
       cbn in H. by rewrite Hre in H. }
  destruct (tool_events_dispatch chat_id status_id (upper g1) (strip g2) w1)
    as (l2 & H2 & Hc2 & Hr2).
  destruct (dispatch env chat_id status_id (upper g1) (strip g2) w1) as [[obs|e] w2];
    cbn [fst snd] in *.
  2: { exists (first :: l2). split; [by rewrite H2, H1, <- app_assoc|].
       intros _. right. by apply (Hr2 e). }
  set (messages' := (messages ++ _) ++ _).
  destruct (IH chat_id status_id messages' final_reply w2) as (l3 & H3 & Hl3).
  exists (first :: l2 ++ l3). split.
  { rewrite H3, H2, H1. by rewrite <- !app_assoc. }
  intros H. apply Forall_cons in H as [_ H]. apply Forall_app in H as [_ H].
  specialize (Hl3 H).
  destruct (agent_loop env n chat_id status_id messages' final_reply w2).1; [done|].
  right. apply Exists_app. by right.
Qed.

Lemma forallb_Forall {A} (f : A -> bool) (l : list A) :
  forallb f l = true <-> Forall (fun x => f x = true) l.
Proof.
  induction l as [|x l IH]; simpl; [by split|].
  rewrite andb_true_iff, IH, Forall_cons. tauto.
Qed.

(** C1, amended.  In every run in which each reply of the model holds a
    directive, the final reply is one of two fixed texts, never a text of
    the model: the initial value of [final_reply] when the loop runs out
    of steps, or the failure text when a status edit raised an exception
    (an exception outside [Exception] leaves the handler).  It is the
    initial value whenever no status edit of the run raised anything but
    [BadRequest]. *)
Theorem exhausted_loop_reply (chat_id status_id : Z) (messages : list Turn) w :
  forallb directive_reply
    (events_since w (agent_reply env chat_id status_id messages w).2) = true ->
  match (agent_reply env chat_id status_id messages w).1 with
  | Ret final_reply => final_reply = COOKED \/ final_reply = BRAIN_DIED
  | Raise e => is_Exception e = false
  end
  /\ (forallb (fun ev => negb (edit_failed_hard ev))
        (events_since w (agent_reply env chat_id status_id messages w).2) = true ->
      (agent_reply env chat_id status_id messages w).1 = Ret COOKED).
Proof.
  destruct (agent_loop_directives_only MAX_STEPS chat_id status_id messages COOKED w)
    as (evs & Hevs & Hall).
  assert (Hclash : forall l,
            Exists (fun ev => edit_failed_hard ev = true) l ->
            forallb (fun ev => negb (edit_failed_hard ev)) l = true -> False).
  { intros l Hex Hok. apply forallb_Forall in Hok.
    apply Exists_exists in Hex as (ev & Hin & Hev).
    rewrite Forall_forall in Hok. specialize (Hok ev Hin). by rewrite Hev in Hok. }
  unfold agent_reply, mbind, M_bind, bind_M, try_Exception.
  destruct (agent_loop env MAX_STEPS chat_id status_id messages COOKED w) as [[r|e] w1];
    cbn [fst snd] in *.
  - unfold ret. cbn [fst snd]. rewrite (events_since_app w w1 evs Hevs). intros Hd.
    apply forallb_Forall in Hd. rewrite (Hall Hd). by split; [left|].
  - destruct (is_Exception e) eqn:He.
    + unfold ret, emit. cbn [fst snd trace].
      rewrite (events_since_app w _ (evs ++ [Log "ERROR" ("Error: " +:+ exn_text e)]))
        by (cbn [trace]; by rewrite Hevs, <- app_assoc).
      rewrite !forallb_app. intros [Hd _]%andb_prop.
      apply forallb_Forall in Hd. specialize (Hall Hd).
      split; [by right|]. intros [Hok _]%andb_prop. by destruct (Hclash evs).
    + cbn [fst snd]. rewrite (events_since_app w w1 evs Hevs). intros Hd.
      apply forallb_Forall in Hd. specialize (Hall Hd). split; [done|]. intros Hok.
      by destruct (Hclash evs).
Qed.

End RunFacts.

Section RunExamples.
Import Bot Directive CalcEval.

(** The run on [five_then_plain], a model that is not bound to answer
    with a directive forever: five calls, five directives. *)
Lemma exhausted_loop_reply_witness :
  model_calls (agent_reply five_then_plain 7 1000 [] fresh_world).2 = MAX_STEPS
  /\ forallb directive_reply
       (events_since fresh_world (agent_reply five_then_plain 7 1000 [] fresh_world).2)
     = true
  /\ (agent_reply five_then_plain 7 1000 [] fresh_world).1 = Ret COOKED.
Proof.
  assert (Hd : forallb directive_reply
                 (events_since fresh_world
                    (agent_reply five_then_plain 7 1000 [] fresh_world).2) = true)
    by (vm_compute; reflexivity).
  split; [vm_compute; reflexivity|]. split; [exact Hd|].
  apply (exhausted_loop_reply five_then_plain 7 1000 [] fresh_world Hd).
  vm_compute. reflexivity.
Defined.

End RunExamples.

Section HandlerExamples.
Import Bot Directive CalcEval.

(** C4, as stated, fails: a group message without mention changes the
    announcement target. *)
Lemma unaddressed_message_changes_target :
  ~ (forall (env : Env unit) (upd : Update) (msg : Message) (raw : string) (w : World unit),
       message upd = Some msg -> text msg = Some raw -> raw <> "" ->
       not_addressed env msg raw ->
       outbound (handle_message env upd w).2 = outbound w /\
       (handle_message env upd w).2 = w).
Proof.
  intros H.
  assert (Hn : not_addressed (scripted_env "ja" (Ret tt))
                 {| text := Some "hallo zusammen"; chat_type := GROUP;
                    reply_to_message := None |} "hallo zusammen").
  { split; [discriminate|]. split; [discriminate|]. reflexivity. }
  destruct (H (scripted_env "ja" (Ret tt)) (group_message "hallo zusammen") _
              "hallo zusammen" fresh_world eq_refl eq_refl ltac:(discriminate) Hn)
    as [_ Hw].
  vm_compute in Hw. discriminate Hw.
Qed.

Lemma unaddressed_message_witness :
  not_addressed (scripted_env "ja" (Ret tt))
    {| text := Some "hallo zusammen"; chat_type := GROUP; reply_to_message := None |}
    "hallo zusammen"
  /\ ANNOUNCE_CHAT_ID
       (handle_message (scripted_env "ja" (Ret tt)) (group_message "hallo zusammen")
          fresh_world).2 = Some 7%Z.
Proof.
  assert (Hn : not_addressed (scripted_env "ja" (Ret tt))
                 {| text := Some "hallo zusammen"; chat_type := GROUP;
                    reply_to_message := None |} "hallo zusammen").
  { split; [discriminate|]. split; [discriminate|]. reflexivity. }
  split; [exact Hn|].
  apply (unaddressed_message (scripted_env "ja" (Ret tt))
           (group_message "hallo zusammen") _ "hallo zusammen" fresh_world
           eq_refl eq_refl ltac:(discriminate) Hn).
Defined.



(** C6.  The code at the failing input: the final edit is rejected with
    a [BadRequest] other than unchanged content.  The handler logs a
    warning, sends nothing, and records the reply in memory as if it had
    been delivered. *)
Theorem rejected_final_edit_is_not_resent :
  let env := scripted_env "ja" (Raise (BadRequest "Message to edit not found")) in
  let out := deliver env 7 1000 "ja" fresh_world in
  out.1 = Ret tt
  /\ trace out.2
     = [EditMessageText 7 1000 "ja" (Raise (BadRequest "Message to edit not found"));
        Log "WARNING" "Edit failed: Message to edit not found"]
  /\ filter (fun ev => is_send ev = true) (trace out.2) = []
  /\ delivered 7 "ja" out.2 = false
  /\ get_memory 7 (session_memory out.2) = [{| role := "assistant"; content := "ja" |}].
Proof. cbv zeta. rewrite (deliver_bad_request _ 7 1000 "ja" "Message to edit not found");
  [|reflexivity|reflexivity]. repeat split. Qed.

End HandlerExamples.

(** * Further properties of the memory, the calculator and the search *)

Section MemoryIsolation.

(** X1.  Chats do not share memory: calls of [update_memory] for other
    chats, however many, leave the history of a chat as it is. *)
Theorem memory_of_other_chats_untouched (ops : list (Z * string * string))
    (m : gmap Z (list Turn)) (chat_id : Z) :
  Forall (fun op => op.1.1 <> chat_id) ops ->
  get_memory chat_id (appends ops m) = get_memory chat_id m.
Proof.
  intros H. revert m. induction H as [|[[c r] t] ops Hc Hops IH]; intros m; [done|].
  simpl in *. rewrite IH. by apply get_update_other.
Qed.

Lemma memory_of_other_chats_untouched_witness :
  Forall (fun op : Z * string * string => op.1.1 <> 7%Z)
    [(8%Z, "user", "hallo"); (9%Z, "user", "servus")]
  /\ get_memory 7 (appends [(8%Z, "user", "hallo"); (9%Z, "user", "servus")]
                     (update_memory 7 "user" "moin" ∅))
     = [{| role := "user"; content := "moin" |}].
Proof.
  assert (H : Forall (fun op : Z * string * string => op.1.1 <> 7%Z)
                [(8%Z, "user", "hallo"); (9%Z, "user", "servus")]).
  { repeat constructor; simpl; lia. }
  split; [exact H|].
  rewrite (memory_of_other_chats_untouched _ (update_memory 7 "user" "moin" ∅) 7%Z H).
  reflexivity.
Defined.

End MemoryIsolation.

Section CalculatorInput.
Import Calc CalcEval.
Context {F : Type} {RT : PyRuntime F}.

Lemma filter_chars_app (p : ascii -> bool) (a b : string) :
  filter_chars p (a +:+ b) = filter_chars p a +:+ filter_chars p b.
Proof.
  induction a as [|c a IH]; simpl; [done|]. rewrite IH. by destruct (p c).
Qed.

Lemma filter_chars_all (p : ascii -> bool) (s : string) :
  all_chars p s = true -> filter_chars p s = s.
Proof.
  induction s as [|c s IH]; simpl; [done|].
  intros [Hc Hs]%andb_prop. rewrite Hc. by rewrite IH.
Qed.

Lemma filter_chars_none (p : ascii -> bool) (s : string) :
  all_chars (fun c => negb (p c)) s = true -> filter_chars p s = "".
Proof.
  induction s as [|c s IH]; simpl; [done|].
  intros [Hc Hs]%andb_prop. apply negb_true_iff in Hc. rewrite Hc. by apply IH.
Qed.

(** X2.  The calculator sees its input only through the sanitizer:
    sanitizing twice is sanitizing once, text made of allowed characters
    passes unchanged, and removed text leaves no gap, so that what stood
    on its two sides is joined ([2x3] is computed as [23]). *)
Theorem calc_reads_only_allowed_characters (a noise b : string) :
  sanitize (sanitize a) = sanitize a
  /\ tool_calc (sanitize a) = tool_calc a
  /\ (all_chars (fun c => negb (allowed c)) noise = true ->
      sanitize (a +:+ noise +:+ b) = sanitize a +:+ sanitize b /\
      tool_calc (a +:+ noise +:+ b) = tool_calc (sanitize a +:+ sanitize b))
  /\ ast_parse (sanitize "2x3") = Ret (Constant (CInt "23")).
Proof.
  assert (Hidem : forall s, sanitize (sanitize s) = sanitize s).
  { intros s. unfold sanitize at 1. apply filter_chars_all, sanitize_allowed. }
  split; [apply Hidem|].
  split; [unfold tool_calc, calc_body; by rewrite Hidem|].
  split.
  - intros Hn.
    assert (Hs : sanitize (a +:+ noise +:+ b) = sanitize a +:+ sanitize b).
    { unfold sanitize. rewrite !filter_chars_app. by rewrite (filter_chars_none _ noise Hn). }
    split; [exact Hs|]. unfold tool_calc, calc_body. rewrite Hs.
    by rewrite <- (filter_chars_app allowed), Hidem.
  - reflexivity.
Qed.

(** X3.  Text that, once sanitized, starts with a blank is never
    computed: the calculator answers with its error string.  A question
    such as [what is 2+2] ends so, since its letters are removed and the
    blank after them stays. *)
Theorem calc_rejects_leading_blank (expr rest : string) :
  sanitize expr = String " " rest -> tool_calc expr = Ret MATH_ERROR.
Proof.
  intros H. rewrite tool_calc_spec. f_equal.
  unfold calc_body, ast_parse, tokenize. by rewrite H.
Qed.

End CalculatorInput.

Section CalculatorInputExamples.
Import Calc CalcEval.

Lemma calc_rejects_leading_blank_witness :
  sanitize "what is 2+2" = String " " " 2+2"
  /\ tool_calc (RT:=opaque_runtime) "what is 2+2" = Ret MATH_ERROR.
Proof.
  split; [reflexivity|].
  apply (calc_rejects_leading_blank (RT:=opaque_runtime) "what is 2+2" " 2+2" eq_refl).
Defined.

End CalculatorInputExamples.

Section CalculatorArithmetic.
Import Calc CalcEval.
Context {F : Type} {RT : PyRuntime F}.
#[local] Arguments within_cap {F RT} digits : simpl never.

Lemma rev_rev_app (a b : string) : String.rev (String.rev_app a b) = String.rev_app b a.
Proof.
  revert b. induction a as [|c a IH]; intros b; [done|]. simpl. by rewrite IH.
Qed.

Lemma append_empty_r (s : string) : s +:+ "" = s.
Proof.
  induction s as [|c s IH]; [done|].
  change (String c s +:+ "") with (String c (s +:+ "")). by rewrite IH.
Qed.

Lemma all_chars_app (p : ascii -> bool) (a b : string) :
  all_chars p (a +:+ b) = all_chars p a && all_chars p b.
Proof. induction a as [|c a IH]; simpl; [done|]. by rewrite IH, andb_assoc. Qed.

Lemma is_digit_allowed (c : ascii) : is_digit c = true -> allowed c = true.
Proof. unfold allowed. by intros ->. Qed.

(** A run of digits only extends the integer in progress. *)
Lemma lex_digits (ds acc rest : string) :
  all_chars is_digit ds = true ->
  lex (LInt acc) (ds +:+ rest) = lex (LInt (String.rev_app ds acc)) rest.
Proof.
  revert acc. induction ds as [|c ds IH]; intros acc; simpl; [done|].
  intros [Hc Hds]%andb_prop. unfold lex_step. rewrite Hc, IH by done.
  by destruct (lex _ rest).
Qed.

Lemma lex_literal (c : ascii) (ds rest : string) :
  is_digit c = true -> all_chars is_digit ds = true ->
  lex LStart (String c ds +:+ rest) = lex (LInt (String.rev_app ds (String c ""))) rest.
Proof.
  intros Hc Hds. simpl. unfold lex_step. rewrite Hc. cbn [flush].
  rewrite lex_digits by done. by destruct (lex _ rest).
Qed.

Lemma lex_cons (st : lex_state) (c : ascii) (r : string) :
  lex st (String c r)
  = match lex_step st c with
    | Some (out, st') => app out <$> lex st' r
    | None => None
    end.
Proof. reflexivity. Qed.

(** A literal that ends the line, after an operator. *)
Lemma lex_last_literal (st : lex_state) (c : ascii) (ds : string) :
  st = LStart \/ st = LStar \/ st = LSlash ->
  is_digit c = true -> all_chars is_digit ds = true ->
  lex st (String c ds) = Some (flush st ++ [TInt (String c ds)]).
Proof.
  intros Hst Hc Hds.
  assert (Hrun : lex (LInt (String c "")) ds = Some [TInt (String c ds)]).
  { rewrite <- (append_empty_r ds) at 1.
    rewrite lex_digits by done. cbn [lex flush]. by rewrite rev_rev_app. }
  rewrite lex_cons. unfold lex_step. rewrite Hc.
  destruct Hst as [->|[->| ->]]; by rewrite Hrun.
Qed.

Lemma lex_operator (op : operator) (acc : string) (c : ascii) (ds : string) :
  is_digit c = true -> all_chars is_digit ds = true ->
  lex (LInt acc) (operator_text op +:+ String c ds)
  = Some [TInt (String.rev acc); operator_token op; TInt (String c ds)].
Proof.
  intros Hc Hds. destruct op; cbn [operator_text operator_token].
  - change (lex (LInt acc) ("+" +:+ String c ds))
      with (app (flush (LInt acc) ++ [TPlus]) <$> lex LStart (String c ds)).
    rewrite lex_last_literal by auto. reflexivity.
  - change (lex (LInt acc) ("-" +:+ String c ds))
      with (app (flush (LInt acc) ++ [TMinus]) <$> lex LStart (String c ds)).
    rewrite lex_last_literal by auto. reflexivity.
  - change (lex (LInt acc) ("*" +:+ String c ds))
      with (app (flush (LInt acc)) <$> lex LStar (String c ds)).
    rewrite lex_last_literal by auto. reflexivity.
  - change (lex (LInt acc) ("/" +:+ String c ds))
      with (app (flush (LInt acc)) <$> lex LSlash (String c ds)).
    rewrite lex_last_literal by auto. reflexivity.
  - change (lex (LInt acc) ("//" +:+ String c ds))
      with (app (flush (LInt acc))
              <$> (app [TDoubleSlash] <$> lex LStart (String c ds))).
    rewrite lex_last_literal by auto. reflexivity.
  - change (lex (LInt acc) ("**" +:+ String c ds))
      with (app (flush (LInt acc))
              <$> (app [TDoubleStar] <$> lex LStart (String c ds))).
    rewrite lex_last_literal by auto. reflexivity.
Qed.

Lemma digit_not_blank (c : ascii) (r : string) :
  is_digit c = true ->
  tokenize (String c r)
  = match lex LStart (String c r) with
    | Some ts => if forallb token_ok ts then Ret ts else Raise SyntaxError
    | None => Raise SyntaxError
    end.
Proof. by destruct c as [[] [] [] [] [] [] [] []]. Qed.

Lemma digits_value_go_nonneg (s : string) (acc : Z) :
  all_chars is_digit s = true -> (0 <= acc)%Z -> (0 <= digits_value_go acc s)%Z.
Proof.
  revert acc. induction s as [|c s IH]; intros acc; simpl; [done|].
  intros [Hc Hs]%andb_prop Hacc. apply IH; [done|].
  assert (0 <= digit_value c)%Z; [|lia].
  clear -Hc. by destruct c as [[] [] [] [] [] [] [] []].
Qed.

(** X4.  The calculator computes with whole numbers exactly.  For two
    integer literals joined by [+], [-], [*], [//] or [**], [tool_calc]
    answers with the decimal text of the sum, difference, product,
    floored quotient or power, provided the divisor of [//] is not zero
    and literals and result stay within the interpreter's digit cap. *)
Theorem calc_integer_arithmetic (x y : string) (op : operator) (z : Z) :
  int_literal x = true -> int_literal y = true ->
  within_cap (String.length x) = true -> within_cap (String.length y) = true ->
  int_result op (digits_value x) (digits_value y) = Some z ->
  within_cap (String.length (str_of_Z (Z.abs z))) = true ->
  tool_calc (x +:+ operator_text op +:+ y) = Ret (str_of_Z z).
Proof.
  intros Hx Hy Hcx Hcy Hz Hcz.
  destruct x as [|cx x']; [done|]. destruct y as [|cy y']; [done|].
  unfold int_literal in Hx, Hy.
  apply andb_prop in Hx as [Hdx Hox]. apply andb_prop in Hy as [Hdy Hoy].
  pose proof Hdx as Hdx'. pose proof Hdy as Hdy'.
  simpl in Hdx', Hdy'.
  apply andb_prop in Hdx' as [Hcx0 Hx']. apply andb_prop in Hdy' as [Hcy0 Hy'].
  assert (Hyn : (0 <= digits_value (String cy y'))%Z)
    by (by apply digits_value_go_nonneg).
  assert (Hop : all_chars allowed (operator_text op) = true) by (by destruct op).
  assert (Hclean : sanitize (String cx x' +:+ operator_text op +:+ String cy y')
                   = String cx x' +:+ operator_text op +:+ String cy y').
  { apply filter_chars_all. rewrite !all_chars_app, Hop.
    rewrite (all_chars_impl is_digit allowed (String cx x')), 
            (all_chars_impl is_digit allowed (String cy y')); try done;
      intros c; apply is_digit_allowed. }
  assert (Htok : tokenize (String cx x' +:+ operator_text op +:+ String cy y')
                 = Ret [TInt (String cx x'); operator_token op; TInt (String cy y')]).
  { change (String cx x' +:+ operator_text op +:+ String cy y')
      with (String cx (x' +:+ operator_text op +:+ String cy y')).
    rewrite digit_not_blank by done.
    change (String cx (x' +:+ operator_text op +:+ String cy y'))
      with (String cx x' +:+ (operator_text op +:+ String cy y')).
    rewrite lex_literal, lex_operator by done. rewrite rev_rev_app.
    cbn [forallb token_ok String.rev_app]. rewrite Hox, Hoy. by destruct op. }
  assert (Hparse : parse_tokens [TInt (String cx x'); operator_token op; TInt (String cy y')]
                   = Ret (BinOp (Constant (CInt (String cx x'))) op
                                (Constant (CInt (String cy y'))))).
  { by destruct op. }
  rewrite tool_calc_spec. f_equal. unfold calc_body. rewrite Hclean.
  unfold ast_parse. rewrite Htok. cbn [bind]. rewrite Hparse.
  cbn [bind literals_within_cap]. rewrite Hcx, Hcy.
  cbn [andb bind eval eval_constant].
  set (a := digits_value (String cx x')) in *.
  set (b := digits_value (String cy y')) in *.
  assert (Hev : eval_binop op (VInt a) (VInt b) = Ret (VInt z)).
  { unfold eval_binop. cbn [is_complex orb]. destruct op; simpl in Hz.
    - by injection Hz as <-.
    - by injection Hz as <-.
    - by injection Hz as <-.
    - discriminate Hz.
    - destruct (b =? 0)%Z; [discriminate Hz|]. by injection Hz as <-.
    - injection Hz as <-. by rewrite (proj2 (Z.leb_le 0 b) Hyn). }
  rewrite Hev. cbn [bind str_round4]. by rewrite Hcz.
Qed.

End CalculatorArithmetic.

Section SearchDedup.
Import WebSearch.

Lemma collect_kept (raw : list (gmap string string)) : forall seen results,
  collect raw seen results = results ++ map hit_entry (kept_hits raw seen).
Proof.
  induction raw as [|r raw IH]; intros seen results; simpl.
  { by rewrite app_nil_r. }
  destruct (String.eqb (hit_body r) ""); [apply IH|].
  unfold hit_signature. case_decide; [apply IH|].
  rewrite IH. simpl. by rewrite <- app_assoc.
Qed.

Lemma kept_hits_sublist (raw : list (gmap string string)) : forall seen,
  sublist (kept_hits raw seen) raw.
Proof.
  induction raw as [|r raw IH]; intros seen; simpl; [constructor|].
  destruct (String.eqb (hit_body r) ""); [by constructor|].
  case_decide; [by constructor|]. by constructor.
Qed.

Lemma kept_hits_fresh (raw : list (gmap string string)) : forall seen r,
  r ∈ kept_hits raw seen -> (hit_signature r ∉ seen) /\ hit_body r <> "".
Proof.
  induction raw as [|r0 raw IH]; intros seen r; simpl; [by intros ?%elem_of_nil|].
  destruct (String.eqb (hit_body r0) "") eqn:E; [apply IH|].
  case_decide as Hin; [apply IH|].
  intros [->|Hr]%elem_of_cons.
  - split; [done|]. by apply String.eqb_neq.
  - destruct (IH _ _ Hr) as [H1 H2]. split; [|done].
    intros Hs. by apply H1, elem_of_union_r.
Qed.

Lemma kept_hits_NoDup (raw : list (gmap string string)) : forall seen,
  NoDup (map hit_signature (kept_hits raw seen)).
Proof.
  induction raw as [|r raw IH]; intros seen; simpl; [constructor|].
  destruct (String.eqb (hit_body r) ""); [apply IH|].
  case_decide as Hin; [apply IH|]. simpl. constructor; [|apply IH].
  intros Hdup. apply list_elem_of_In in Hdup. apply in_map_iff in Hdup as (r' & Hsig & Hr').
  apply list_elem_of_In in Hr'. apply kept_hits_fresh in Hr' as [Hfresh _].
  apply Hfresh. rewrite Hsig. by apply elem_of_union_l, elem_of_singleton.
Qed.

Lemma kept_hits_cover (raw : list (gmap string string)) : forall seen r,
  r ∈ raw -> hit_body r <> "" ->
  (hit_signature r ∈ seen) \/ (hit_signature r ∈ map hit_signature (kept_hits raw seen)).
Proof.
  induction raw as [|r0 raw IH]; intros seen r; simpl; [by intros ?%elem_of_nil|].
  intros [->|Hr]%elem_of_cons Hbody.
  - apply String.eqb_neq in Hbody. rewrite Hbody.
    case_decide; [by left|]. right. simpl. apply elem_of_cons. by left.
  - destruct (String.eqb (hit_body r0) ""); [by apply IH|].
    case_decide; [by apply IH|].
    destruct (IH ({[hit_signature r0]} ∪ seen) r Hr Hbody) as [Hs|Hk].
    + apply elem_of_union in Hs as [Hs|Hs]; [|by left].
      right. simpl. apply elem_of_cons. left. by apply elem_of_singleton in Hs.
    + right. simpl. apply elem_of_cons. by right.
Qed.

Lemma kept_hits_blank (raw : list (gmap string string)) :
  kept_hits raw ∅ = [] <-> Forall (fun r => hit_body r = "") raw.
Proof.
  induction raw as [|r raw IH]; simpl; [done|].
  destruct (String.eqb (hit_body r) "") eqn:E.
  - apply String.eqb_eq in E. rewrite IH. split; [by constructor|by inversion 1].
  - apply String.eqb_neq in E. case_decide as Hin; [by apply not_elem_of_empty in Hin|].
    split; [done|]. by inversion 1.
Qed.

Lemma join_entries_not_blank (r : gmap string string) (l : list string) :
  join NL (hit_entry r :: l) <> NO_RESULTS.
Proof. unfold join. destruct l; discriminate. Qed.

(** X5.  The search answers with its no-results text exactly when no
    hit of either source has body or snippet text; one hit with text is
    enough for a list of entries. *)
Theorem search_no_results_iff_all_blank (news text : list (gmap string string)) :
  _search news text = NO_RESULTS
  <-> Forall (fun r => blank_field r "body" /\ blank_field r "snippet") (news ++ text).
Proof.
  assert (Hb : Forall (fun r => blank_field r "body" /\ blank_field r "snippet")
                 (news ++ text)
               <-> Forall (fun r => hit_body r = "") (news ++ text)).
  { split; intros H; (eapply Forall_impl; [exact H|]); intros r Hr; by apply blank_body. }
  rewrite Hb, <- kept_hits_blank.
  unfold _search. rewrite collect_kept. simpl.
  destruct (kept_hits (news ++ text) ∅) as [|r l]; simpl; [done|].
  split; [|done]. intros H. by apply join_entries_not_blank in H.
Qed.

(** X6.  What deduplication keeps: the entries of the output render, in
    the order of the sources (news before text), the first 3 of a
    selection of hits in which no two hits share the signature of the
    first 20 characters of title and of body, every hit has body text,
    and every hit with body text of either source is represented by a
    hit of its signature. *)
Theorem search_deduplicates (news text : list (gmap string string)) :
  exists hits : list (gmap string string),
    sublist hits (news ++ text)
    /\ NoDup (map hit_signature hits)
    /\ Forall (fun r => hit_body r <> "") hits
    /\ (forall r, r ∈ news ++ text -> hit_body r <> "" ->
        hit_signature r ∈ map hit_signature hits)
    /\ _search news text
       = match hits with
         | [] => NO_RESULTS
         | _ => join NL (map hit_entry (take 3 hits))
         end.
Proof.
  exists (kept_hits (news ++ text) ∅).
  split; [apply kept_hits_sublist|]. split; [apply kept_hits_NoDup|].
  split.
  { apply Forall_forall. intros r Hr. by apply kept_hits_fresh in Hr as [_ ?]. }
  split.
  { intros r Hr Hbody. destruct (kept_hits_cover _ ∅ r Hr Hbody) as [H|H]; [by apply not_elem_of_empty in H|done]. }
  unfold _search. rewrite collect_kept. simpl.
  destruct (kept_hits (news ++ text) ∅) as [|r l] eqn:E; [done|].
  change (map hit_entry (take 3 (r :: l))) with (hit_entry <$> take 3 (r :: l)).
  rewrite fmap_take. reflexivity.
Qed.

End SearchDedup.

Section DirectiveFacts.
Import Directive.

Lemma all_chars_lstrip (p q : ascii -> bool) (s : string) :
  all_chars p s = true -> all_chars p (lstrip_by q s) = true.
Proof.
  induction s as [|c s IH]; simpl; [done|].
  intros H. destruct (q c); [|exact H]. apply andb_prop in H as [_ Hs]. by apply IH.
Qed.

Lemma all_chars_rstrip (p q : ascii -> bool) (s : string) :
  all_chars p s = true -> all_chars p (rstrip_by q s) = true.
Proof.
  induction s as [|c s IH]; simpl; [done|].
  intros [Hc Hs]%andb_prop. specialize (IH Hs).
  destruct (rstrip_by q s) as [|d r].
  - destruct (q c); simpl; [done|]. by rewrite Hc.
  - simpl in *. by rewrite Hc, IH.
Qed.

Lemma until_newline_single_line (s : string) : single_line (until_newline s) = true.
Proof.
  unfold single_line. induction s as [|c s IH]; simpl; [done|].
  destruct (Ascii.eqb c (ascii_of_nat 10)) eqn:E; simpl; [done|]. by rewrite E, IH.
Qed.

Lemma match_here_single_line (s g1 g2 : string) :
  match_here s = Some (g1, g2) -> single_line g2 = true.
Proof.
  unfold match_here. destruct (match_literal "ACTION:" s) as [[m r1]|]; [|done].
  destruct (match_tool TOOLS (lstrip_by is_space r1)) as [[tool r2]|]; [|done].
  intros [= _ <-]. apply until_newline_single_line.
Qed.

(** X7.  The argument handed to a tool is one line: group 2 of the
    match, and the argument obtained from it by removing surrounding
    blanks, hold no newline.  Whatever the reply holds after the line of
    the argument never reaches the tool. *)
Theorem directive_argument_is_one_line (reply : string) :
  match re_search reply with
  | Some (_, group2) => single_line group2 = true /\ single_line (strip group2) = true
  | None => True
  end.
Proof.
  assert (H : forall g1 g2, re_search reply = Some (g1, g2) -> single_line g2 = true).
  { induction reply as [|c s IH]; intros g1 g2; simpl.
    - done.
    - destruct (match_here (String c s)) as [[a b]|] eqn:E.
      + intros [= <- <-]. by apply match_here_single_line in E.
      + apply IH. }
  destruct (re_search reply) as [[g1 g2]|]; [|done].
  specialize (H g1 g2 eq_refl). split; [done|].
  unfold strip, strip_by. by apply all_chars_rstrip, all_chars_lstrip.
Qed.

End DirectiveFacts.

(** * Further properties of the roster *)

Section ScheduleCoverage.
Import Schedule.
Open Scope Z_scope.

(** X8.  The window in calendar days.  At midnight exactly the rows
    kept are those dated from 2 days before to 30 days after today; at
    any later time of the day they are those dated from yesterday to 31
    days after today. *)
Theorem window_in_calendar_days (now : datetime) (y m d : Z) :
  0 <= time_of_day now < 86400000000 ->
  in_window (delta_days (midnight y m d) now) = true
  <-> if time_of_day now =? 0
      then -2 <= toordinal (midnight y m d) - toordinal now <= 30
      else -1 <= toordinal (midnight y m d) - toordinal now <= 31.
Proof.
  intros Ht. unfold in_window. destruct (time_of_day now =? 0) eqn:E.
  - apply Z.eqb_eq in E. rewrite delta_days_at_midnight by done. lia.
  - apply Z.eqb_neq in E. rewrite delta_days_after_midnight by lia. lia.
Qed.

Lemma window_in_calendar_days_witness :
  0 <= time_of_day (noon 2025 1 5) < 86400000000
  /\ (in_window (delta_days (midnight 2025 1 4) (noon 2025 1 5)) = true
      <-> -1 <= toordinal (midnight 2025 1 4) - toordinal (noon 2025 1 5) <= 31).
Proof.
  assert (H : 0 <= time_of_day (noon 2025 1 5) < 86400000000) by (by vm_compute).
  split; [exact H|].
  apply (window_in_calendar_days (noon 2025 1 5) 2025 1 4 H).
Defined.

Lemma days_in_month_leap (y m : Z) : days_in_month y m = month_length (is_leap y) m.
Proof. reflexivity. Qed.

Lemma days_before_month_leap (y m : Z) :
  days_before_month y m = days_before_go (is_leap y) (Z.to_nat (m - 1)).
Proof.
  unfold days_before_month. induction (Z.to_nat (m - 1)) as [|k IH]; [done|].
  cbn [days_before_month_go days_before_go]. by rewrite IH, days_in_month_leap.
Qed.

Lemma toordinal_same_year (y m d nm nd : Z) (now : datetime) :
  year now = y -> month now = nm -> day now = nd ->
  toordinal (midnight y m d) - toordinal now
  = day_of_year (is_leap y) m d - day_of_year (is_leap y) nm nd.
Proof.
  intros <- <- <-. unfold toordinal, day_of_year. cbn [year month day midnight].
  rewrite !days_before_month_leap. lia.
Qed.

Lemma days_before_next_year (y : Z) :
  days_before_year (y + 1) = days_before_year y + 365 + (if is_leap y then 1 else 0).
Proof.
  unfold days_before_year, is_leap. cbv zeta.
  replace (y + 1 - 1) with y by lia.
  destruct (y mod 4 =? 0) eqn:E4, (y mod 100 =? 0) eqn:E100, (y mod 400 =? 0) eqn:E400;
    cbn [andb orb negb];
    rewrite ?Z.eqb_eq, ?Z.eqb_neq in *;
    Z.div_mod_to_equations; lia.
Qed.

Lemma toordinal_december_to_january (y d nd : Z) (now : datetime) :
  year now = y -> month now = 12 -> day now = nd ->
  toordinal (midnight (y + 1) 1 d) - toordinal now = 31 - nd + d.
Proof.
  intros <- Hm <-. unfold toordinal. cbn [year month day midnight]. rewrite Hm.
  rewrite days_before_next_year, !days_before_month_leap.
  destruct (is_leap (year now)); vm_compute (days_before_go _ _); lia.
Qed.

(** Checked by running through the 366 + 365 days of a leap year and of
    a common year. *)
Lemma every_day_has_a_row :
  forallb (fun leap =>
    forallb (fun nm =>
      forallb (fun nd => row_within_a_week leap nm nd)
              (seqZ 1 (month_length leap nm)))
            (seqZ 1 12))
    [true; false] = true.
Proof. vm_compute. reflexivity. Qed.

Lemma roster_date_row (m dd : Z) :
  (m, dd) ∈ roster_dates ->
  exists row, row ∈ DictReader CLEANING_DATA /\ first_date (field row "Date Range") = Some (m, dd).
Proof. unfold roster_dates. intros H. by apply list_elem_of_omap in H. Qed.

Lemma header_is_not_empty_text (s : string) : SCHEDULE_HEADER +:+ s <> NO_SCHEDULE.
Proof. intros H. vm_compute in H. discriminate H. Qed.

Lemma row_within_a_week_always (leap : bool) (nm nd : Z) :
  1 <= nm <= 12 -> 1 <= nd <= month_length leap nm ->
  row_within_a_week leap nm nd = true.
Proof.
  intros Hm Hd.
  assert (Hleap : In leap [true; false])
    by (destruct leap; [left|right; left]; reflexivity).
  pose proof every_day_has_a_row as Hall.
  rewrite forallb_forall in Hall. specialize (Hall leap).
  specialize (Hall Hleap). rewrite forallb_forall in Hall.
  specialize (Hall nm).
  assert (Hm' : In nm (seqZ 1 12)) by (apply list_elem_of_In, elem_of_seqZ; lia).
  specialize (Hall Hm'). rewrite forallb_forall in Hall. apply Hall.
  apply list_elem_of_In, elem_of_seqZ; lia.
Qed.

Lemma row_within_a_week_row (leap : bool) (nm nd : Z) :
  row_within_a_week leap nm nd = true ->
  exists row m dd,
    row ∈ DictReader CLEANING_DATA
    /\ first_date (field row "Date Range") = Some (m, dd)
    /\ ((nm =? 1) && (m =? 12)) = false
    /\ in_every_year m dd = true
    /\ 0 <= days_until leap nm nd m dd <= 7.
Proof.
  unfold row_within_a_week. intros Hall.
  apply existsb_exists in Hall as ([m dd] & Hin & Hok). cbn [fst snd] in Hok.
  apply list_elem_of_In, roster_date_row in Hin as (row & Hrow & Hfd).
  apply andb_prop in Hok as [Hok Hhi]. apply andb_prop in Hok as [Hok Hlo].
  apply andb_prop in Hok as [Hnj Hev]. apply negb_true_iff in Hnj.
  exists row, m, dd. repeat split; try done; lia.
Qed.

(** On every day some row resolves to a date from today to a week ahead. *)
Lemma upcoming_row (now : datetime) :
  valid_date (year now) (month now) (day now) = true -> year now <= 9998 ->
  exists row m dd,
    row ∈ DictReader CLEANING_DATA
    /\ parse_schedule_date now (field row "Date Range")
       = Some (midnight (expected_year (year now) (month now) m) m dd)
    /\ 0 <= toordinal (midnight (expected_year (year now) (month now) m) m dd)
            - toordinal now <= 7.
Proof.
  intros Hv Hy. unfold valid_date in Hv.
  assert (Hb : 1 <= year now <= 9999 /\ 1 <= month now <= 12 /\
               1 <= day now <= month_length (is_leap (year now)) (month now)).
  { rewrite <- days_in_month_leap. lia. }
  destruct Hb as (Hyear & Hmonth & Hday).
  destruct (row_within_a_week_row _ _ _
              (row_within_a_week_always (is_leap (year now)) _ _ Hmonth Hday))
    as (row & m & dd & Hrow & Hfd & Hnj & Hev & Hlo).
  exists row, m, dd. split; [exact Hrow|].
  assert (Hexp : expected_year (year now) (month now) m
                 = if (month now =? 12) && (m =? 1) then year now + 1 else year now).
  { unfold expected_year. destruct ((month now =? 12) && (m =? 1)); [done|]. by rewrite Hnj. }
  split.
  - rewrite parse_schedule_date_spec, Hfd. cbv zeta.
    rewrite (in_every_year_valid (year now) m dd Hev Hyear).
    rewrite (in_every_year_valid _ m dd Hev); [reflexivity|].
    rewrite Hexp. destruct ((month now =? 12) && (m =? 1)); lia.
  - rewrite Hexp. unfold days_until in Hlo.
    destruct ((month now =? 12) && (m =? 1)) eqn:E.
    + apply andb_prop in E as [E12 E1]. apply Z.eqb_eq in E12, E1. subst m.
      rewrite (toordinal_december_to_january (year now) dd (day now) now eq_refl E12 eq_refl).
      lia.
    + rewrite (toordinal_same_year (year now) m dd (month now) (day now) now
                 eq_refl eq_refl eq_refl). lia.
Qed.

Lemma sorted_head_least {A} (x : Z * A) (l : list (Z * A)) (y : Z * A) :
  StronglySorted key_le (x :: l) -> y ∈ x :: l -> x.1 <= y.1.
Proof.
  intros Hs [->|Hy]%elem_of_cons; [lia|].
  apply StronglySorted_inv in Hs as [_ Hall]. rewrite Forall_forall in Hall.
  by apply Hall.
Qed.

(** X9.  With the roster of the source the schedule is never empty: at
    every moment of every day up to the year 9998, [tool_check_schedule]
    shows at least one row, and the first row it shows is dated from 2
    days back to a week ahead. *)
Theorem schedule_is_never_empty (now : datetime) :
  valid_date (year now) (month now) (day now) = true -> year now <= 9998 ->
  0 <= time_of_day now < 86400000000 ->
  tool_check_schedule now <> NO_SCHEDULE
  /\ exists first later,
       shown now (DictReader CLEANING_DATA) = first :: later /\ -2 <= first.1 <= 7.
Proof.
  intros Hv Hy Ht.
  destruct (upcoming_row now Hv Hy) as (row & m & dd & Hrow & Hparse & Hdiff).
  set (d := midnight (expected_year (year now) (month now) m) m dd) in *.
  assert (Hdelta : -1 <= delta_days d now <= 7).
  { destruct (Z.eq_dec (time_of_day now) 0) as [E|E].
    - unfold d. rewrite delta_days_at_midnight by done. fold d. lia.
    - unfold d. rewrite delta_days_after_midnight by lia. fold d. lia. }
  assert (Hin : (delta_days d now, row) ∈ future_rows now (DictReader CLEANING_DATA)).
  { apply future_rows_spec. split; [done|]. split; [|lia].
    unfold row_delta. by rewrite Hparse. }
  split.
  - unfold tool_check_schedule, check_schedule.
    destruct (future_rows now (DictReader CLEANING_DATA)) as [|x l] eqn:E.
    + by apply elem_of_nil in Hin.
    + apply header_is_not_empty_text.
  - unfold shown.
    pose proof (sort_by_key_sorted (future_rows now (DictReader CLEANING_DATA))) as Hs.
    pose proof (sort_by_key_perm (future_rows now (DictReader CLEANING_DATA))) as Hp.
    assert (Hin' : (delta_days d now, row)
                   ∈ sort_by_key (future_rows now (DictReader CLEANING_DATA)))
      by (by rewrite Hp).
    destruct (sort_by_key (future_rows now (DictReader CLEANING_DATA))) as [|x l] eqn:E.
    + by apply elem_of_nil in Hin'.
    + exists x, (take 2 l). split; [reflexivity|].
      pose proof (sorted_head_least x l _ Hs Hin') as Hle. cbn [fst] in Hle.
      assert (Hx : x ∈ future_rows now (DictReader CLEANING_DATA)).
      { rewrite <- Hp. apply elem_of_cons. by left. }
      destruct x as [dx rx]. apply future_rows_spec in Hx as (_ & _ & Hw).
      cbn [fst] in Hle |- *. lia.
Qed.

End ScheduleCoverage.

(** * Further properties of the handler *)

Section HandlerFrames.
Import Bot Directive CalcEval.
Context {F : Type} {RT : PyRuntime F}.
Variable env : Env F.
Implicit Types (w : World F) (ev : Event F).
#[local] Existing Instance M_bind.

Lemma globals_kept_ret {A} (a : A) : globals_kept (F:=F) (ret a).
Proof. done. Qed.

Lemma globals_kept_lift {A} (r : result A) : globals_kept (F:=F) (lift r).
Proof. done. Qed.

Lemma globals_kept_emit ev : globals_kept (F:=F) (emit ev).
Proof. done. Qed.

Lemma globals_kept_call {A} (ask : nat -> result A) (mk : result A -> Event F) :
  globals_kept (F:=F) (call ask mk).
Proof. done. Qed.

Lemma globals_kept_bind {A B} (m : M A) (k : A -> M B) :
  globals_kept (F:=F) m -> (forall a, globals_kept (F:=F) (k a)) ->
  globals_kept (F:=F) (m ≫= k).
Proof.
  intros Hm Hk w. unfold mbind, M_bind, bind_M. specialize (Hm w).
  destruct (m w) as [[a|e] w1]; cbn [snd] in *; [|done].
  destruct (Hk a w1) as [H1 H2]. destruct Hm as [H3 H4]. split; congruence.
Qed.

Lemma globals_kept_try_bare {A} (m h : M A) :
  globals_kept (F:=F) m -> globals_kept (F:=F) h -> globals_kept (F:=F) (try_bare m h).
Proof.
  intros Hm Hh w. unfold try_bare. specialize (Hm w).
  destruct (m w) as [[a|e] w1]; cbn [snd] in *; [done|].
  destruct (Hh w1) as [H1 H2]. destruct Hm as [H3 H4]. split; congruence.
Qed.

Lemma globals_kept_try_Exception {A} (m : M A) (h : exn -> M A) :
  globals_kept (F:=F) m -> (forall e, globals_kept (F:=F) (h e)) ->
  globals_kept (F:=F) (try_Exception m h).
Proof.
  intros Hm Hh w. unfold try_Exception. specialize (Hm w).
  destruct (m w) as [[a|e] w1]; cbn [snd] in *; [done|].
  destruct (is_Exception e); [|done].
  destruct (Hh e w1) as [H1 H2]. destruct Hm as [H3 H4]. split; congruence.
Qed.

Lemma globals_kept_safe_edit chat_id message_id txt :
  globals_kept (F:=F) (safe_edit_message env chat_id message_id txt).
Proof.
  intros w. unfold safe_edit_message, bot_edit_message_text, call.
  destruct (edit_message_text env _ chat_id message_id txt) as [u|e]; [done|].
  destruct e; try done. by destruct (contains "Message is not modified" msg).
Qed.

Lemma globals_kept_remind chat_id arg : globals_kept (F:=F) (remind_body env chat_id arg).
Proof.
  unfold remind_body. destruct (split_space_once _) as [first rest].
  apply globals_kept_bind; [apply globals_kept_lift|]. intros minutes.
  apply globals_kept_bind; [apply globals_kept_lift|]. intros sixty.
  apply globals_kept_bind; [apply globals_kept_call|]. intros _. apply globals_kept_ret.
Qed.

Lemma globals_kept_dispatch chat_id status_id tool arg :
  globals_kept (F:=F) (dispatch env chat_id status_id tool arg).
Proof.
  unfold dispatch. repeat case_match.
  - apply globals_kept_bind; [apply globals_kept_safe_edit|]. by intros _ w.
  - apply globals_kept_lift.
  - apply globals_kept_bind; [apply globals_kept_safe_edit|]. intros _ w.
    unfold run_check_schedule. by rewrite run_clocked_run_on.
  - apply globals_kept_try_bare; [apply globals_kept_remind|apply globals_kept_ret].
  - apply globals_kept_ret.
Qed.

Lemma globals_kept_agent_loop steps : forall chat_id status_id messages final_reply,
  globals_kept (F:=F) (agent_loop env steps chat_id status_id messages final_reply).
Proof.
  induction steps as [|n IH]; intros chat_id status_id messages final_reply.
  { apply globals_kept_ret. }
  simpl. apply globals_kept_bind; [apply globals_kept_call|]. intros content.
  destruct (re_search (strip content)) as [[g1 g2]|]; [|apply globals_kept_ret].
  apply globals_kept_bind; [apply globals_kept_dispatch|]. intros obs. apply IH.
Qed.

Lemma globals_kept_agent_reply chat_id status_id messages :
  globals_kept (F:=F) (agent_reply env chat_id status_id messages).
Proof.
  unfold agent_reply. apply globals_kept_bind; [|intros r; apply globals_kept_ret].
  apply globals_kept_try_Exception; [apply globals_kept_agent_loop|].
  intros e. apply globals_kept_bind; [apply globals_kept_emit|].
  intros _. apply globals_kept_ret.
Qed.

(** X10.  The tool-calling loop works on a private copy of the history:
    whatever the model, the tools and the transport do, [agent_reply]
    leaves the conversation memory and the announcement target as they
    were.  The assistant turns and observations of the tool steps are
    never stored. *)
Theorem tool_steps_are_not_remembered (chat_id status_id : Z) (messages : list Turn) w :
  session_memory (agent_reply env chat_id status_id messages w).2 = session_memory w
  /\ ANNOUNCE_CHAT_ID (agent_reply env chat_id status_id messages w).2 = ANNOUNCE_CHAT_ID w.
Proof.
  destruct (globals_kept_agent_reply chat_id status_id messages w) as [H1 H2]. by split.
Qed.


(** X11.  The final reply never shows the literal directive marker: when
    [agent_reply] returns a text, that text does not contain [ACTION:]. *)
Theorem final_reply_hides_directive (chat_id status_id : Z) (messages : list Turn) w :
  match (agent_reply env chat_id status_id messages w).1 with
  | Ret final_reply => contains "ACTION:" final_reply = false
  | Raise _ => True
  end.
Proof.
  unfold agent_reply, mbind, M_bind, bind_M.
  destruct (try_Exception _ _ w) as [[r|e] w1]; [|done]. cbn [fst ret].
  destruct (contains "ACTION:" r) eqn:E; [reflexivity|exact E].
Qed.


(** *** The handler, step by step *)

Lemma is_direct_pure (msg : Message) (txt : string) w : (is_direct env msg txt w).2 = w.
Proof.
  unfold is_direct. destruct (chat_type msg); try done;
    by destruct (reply_to_message msg) as [[sender|]|].
Qed.

Lemma is_direct_addressed (msg : Message) (raw : string) w :
  addressed env msg raw -> is_direct env msg (strip raw) w = (Ret true, w).
Proof.
  intros H. unfold is_direct. destruct (chat_type msg) eqn:Ety; try done;
    (destruct H as [H|[H|[H1 H2]]]; [congruence| |];
     [rewrite H; unfold ret; by rewrite Z.eqb_refl
     |rewrite H2; destruct (reply_to_message msg) as [[sender|]|]; try done;
      unfold ret; by rewrite orb_true_r]).
Qed.

(** The handler on a message that is addressed to the agent. *)
Lemma handle_message_addressed (upd : Update) (msg : Message) (raw : string) w :
  message upd = Some msg -> text msg = Some raw -> raw <> "" -> addressed env msg raw ->
  handle_message env upd w
  = let chat_id := effective_chat_id upd in
    match bot_send_message env chat_id MOMENT_MAL (after_intake chat_id (strip raw) w) with
    | (Raise e, w2) => (Raise e, w2)
    | (Ret status_id, w2) =>
        let messages := {| role := "system"; content := SYSTEM_PROMPT |}
                        :: get_memory chat_id (session_memory w2) in
        match agent_reply env chat_id status_id messages w2 with
        | (Raise e, w3) => (Raise e, w3)
        | (Ret final_reply, w3) => deliver env chat_id status_id final_reply w3
        end
    end.
Proof.
  intros Hmsg Htext Hraw Haddr. unfold handle_message. rewrite Hmsg, Htext.
  destruct raw as [|c raw']; [done|].
  unfold mbind, M_bind, bind_M, set_announce_chat.
  rewrite (is_direct_addressed msg (String c raw') _ Haddr). cbn [negb].
  unfold remember, after_intake, recall. cbn [ANNOUNCE_CHAT_ID session_memory trace].
  destruct (bot_send_message env _ _ _) as [[status_id|e] w2]; [|done]. done.
Qed.

Lemma globals_kept_send chat_id txt : globals_kept (F:=F) (bot_send_message env chat_id txt).
Proof. apply globals_kept_call. Qed.

Lemma deliver_announce chat_id status_id final_reply w :
  ANNOUNCE_CHAT_ID (deliver env chat_id status_id final_reply w).2 = ANNOUNCE_CHAT_ID w.
Proof.
  unfold deliver, try_bare, mbind, M_bind, bind_M, ret.
  destruct (globals_kept_safe_edit chat_id status_id final_reply w) as [Ha _].
  destruct (safe_edit_message env chat_id status_id final_reply w) as [[u|e] w1];
    cbn [snd] in *; [done|].
  destruct (globals_kept_send chat_id final_reply w1) as [Hb _].
  destruct (bot_send_message env chat_id final_reply w1) as [[u|e'] w2]; cbn [snd] in *;
    congruence.
Qed.

Lemma deliver_memory chat_id status_id final_reply w :
  session_memory (deliver env chat_id status_id final_reply w).2 = session_memory w \/
  session_memory (deliver env chat_id status_id final_reply w).2
  = update_memory chat_id "assistant" final_reply (session_memory w).
Proof.
  unfold deliver, try_bare, mbind, M_bind, bind_M, ret.
  destruct (globals_kept_safe_edit chat_id status_id final_reply w) as [_ Ha].
  destruct (safe_edit_message env chat_id status_id final_reply w) as [[u|e] w1];
    cbn [snd] in *.
  - right. unfold remember. cbn. by rewrite Ha.
  - left. destruct (globals_kept_send chat_id final_reply w1) as [_ Hb].
    destruct (bot_send_message env chat_id final_reply w1) as [[u|e'] w2]; cbn [snd] in *;
      congruence.
Qed.

Lemma update_memory_bounded (m : gmap Z (list Turn)) (c : Z) (r t : string) :
  (forall c', length (get_memory c' m) <= 10) ->
  forall c', length (get_memory c' (update_memory c r t m)) <= 10.
Proof.
  intros H c'. destruct (decide (c = c')) as [<-|Hne].
  - rewrite get_update_same, deque_append_lastn by apply H. rewrite lastn_length. lia.
  - by rewrite get_update_other.
Qed.

(** *** The trace only grows *)

Lemma trace_grows_ret {A} (a : A) : trace_grows (F:=F) (ret a).
Proof. intros w. exists []. by rewrite app_nil_r. Qed.

Lemma trace_grows_lift {A} (r : result A) : trace_grows (F:=F) (lift r).
Proof. intros w. exists []. by rewrite app_nil_r. Qed.

Lemma trace_grows_emit ev : trace_grows (F:=F) (emit ev).
Proof. intros w. by exists [ev]. Qed.

Lemma trace_grows_call {A} (ask : nat -> result A) (mk : result A -> Event F) :
  trace_grows (F:=F) (call ask mk).
Proof. intros w. by exists [mk (ask (length (trace w)))]. Qed.

Lemma trace_grows_bind {A B} (m : M A) (k : A -> M B) :
  trace_grows (F:=F) m -> (forall a, trace_grows (F:=F) (k a)) ->
  trace_grows (F:=F) (m ≫= k).
Proof.
  intros Hm Hk w. unfold mbind, M_bind, bind_M. destruct (Hm w) as [l1 H1].
  destruct (m w) as [[a|e] w1]; cbn [snd] in *; [|by exists l1].
  destruct (Hk a w1) as [l2 H2]. exists (l1 ++ l2). by rewrite H2, H1, app_assoc.
Qed.

Lemma trace_grows_try_bare {A} (m h : M A) :
  trace_grows (F:=F) m -> trace_grows (F:=F) h -> trace_grows (F:=F) (try_bare m h).
Proof.
  intros Hm Hh w. unfold try_bare. destruct (Hm w) as [l1 H1].
  destruct (m w) as [[a|e] w1]; cbn [snd] in *; [by exists l1|].
  destruct (Hh w1) as [l2 H2]. exists (l1 ++ l2). by rewrite H2, H1, app_assoc.
Qed.

Lemma trace_grows_try_Exception {A} (m : M A) (h : exn -> M A) :
  trace_grows (F:=F) m -> (forall e, trace_grows (F:=F) (h e)) ->
  trace_grows (F:=F) (try_Exception m h).
Proof.
  intros Hm Hh w. unfold try_Exception. destruct (Hm w) as [l1 H1].
  destruct (m w) as [[a|e] w1]; cbn [snd] in *; [by exists l1|].
  destruct (is_Exception e); [|by exists l1].
  destruct (Hh e w1) as [l2 H2]. exists (l1 ++ l2). by rewrite H2, H1, app_assoc.
Qed.

Lemma trace_grows_safe_edit chat_id message_id txt :
  trace_grows (F:=F) (safe_edit_message env chat_id message_id txt).
Proof.
  intros w. unfold safe_edit_message, bot_edit_message_text, call.
  destruct (edit_message_text env _ chat_id message_id txt) as [u|e] eqn:E.
  { eexists. cbn [snd emit trace]. reflexivity. }
  destruct e; try (eexists; cbn [snd emit trace]; reflexivity).
  destruct (contains "Message is not modified" msg).
  - eexists. cbn [snd emit trace]. reflexivity.
  - eexists. cbn [snd emit trace]. rewrite <- app_assoc. reflexivity.
Qed.

Lemma trace_grows_dispatch chat_id status_id tool arg :
  trace_grows (F:=F) (dispatch env chat_id status_id tool arg).
Proof.
  unfold dispatch. repeat case_match.
  - apply trace_grows_bind; [apply trace_grows_safe_edit|]. intros _ w.
    eexists. unfold run_search. cbn [snd emit trace]. reflexivity.
  - apply trace_grows_lift.
  - apply trace_grows_bind; [apply trace_grows_safe_edit|]. intros _ w.
    eexists. unfold run_check_schedule. rewrite run_clocked_run_on.
    cbn [snd trace]. reflexivity.
  - apply trace_grows_try_bare; [|apply trace_grows_ret].
    unfold remind_body. destruct (split_space_once _) as [first rest].
    apply trace_grows_bind; [apply trace_grows_lift|]. intros minutes.
    apply trace_grows_bind; [apply trace_grows_lift|]. intros sixty.
    apply trace_grows_bind; [apply trace_grows_call|]. intros _. apply trace_grows_ret.
  - apply trace_grows_ret.
Qed.

Lemma trace_grows_agent_loop steps : forall chat_id status_id messages final_reply,
  trace_grows (F:=F) (agent_loop env steps chat_id status_id messages final_reply).
Proof.
  induction steps as [|n IH]; intros chat_id status_id messages final_reply.
  { apply trace_grows_ret. }
  simpl. apply trace_grows_bind; [apply trace_grows_call|]. intros content.
  destruct (re_search (strip content)) as [[g1 g2]|]; [|apply trace_grows_ret].
  apply trace_grows_bind; [apply trace_grows_dispatch|]. intros obs. apply IH.
Qed.

Lemma trace_grows_deliver chat_id status_id final_reply :
  trace_grows (F:=F) (deliver env chat_id status_id final_reply).
Proof.
  unfold deliver. apply trace_grows_try_bare.
  - apply trace_grows_bind; [apply trace_grows_safe_edit|]. intros _ w.
    exists []. unfold remember. cbn [snd trace]. by rewrite app_nil_r.
  - apply trace_grows_bind; [apply trace_grows_call|]. intros _. apply trace_grows_ret.
Qed.

(** A run of the loop starts by asking the model with the messages it
    was given. *)
Lemma agent_loop_starts_with_model n chat_id status_id messages final_reply w :
  exists reply later,
    trace (agent_loop env (S n) chat_id status_id messages final_reply w).2
    = trace w ++ ChatCompletion messages reply :: later.
Proof.
  exists (chat_completion env (length (trace w)) messages).
  simpl. unfold mbind, M_bind, bind_M, create_completion, call.
  set (w1 := (emit (ChatCompletion messages (chat_completion env (length (trace w)) messages)) w).2).
  assert (H1 : trace w1 = trace w ++ [ChatCompletion messages
                                        (chat_completion env (length (trace w)) messages)])
    by reflexivity.
  destruct (chat_completion env (length (trace w)) messages) as [content|e].
  - destruct (re_search (strip content)) as [[g1 g2]|].
    + destruct (trace_grows_dispatch chat_id status_id (upper g1) (strip g2) w1) as [l2 H2].
      destruct (dispatch env chat_id status_id (upper g1) (strip g2) w1) as [[obs|e] w2];
        cbn [snd] in *.
      * set (messages' := (messages ++ _) ++ _).
        destruct (trace_grows_agent_loop n chat_id status_id messages' final_reply w2)
          as [l3 H3].
        exists (l2 ++ l3). rewrite H3, H2, H1. by rewrite <- !app_assoc.
      * exists l2. rewrite H2, H1. by rewrite <- !app_assoc.
    + exists []. unfold ret. cbn [snd]. by rewrite H1.
  - exists []. cbn [snd]. by rewrite H1.
Qed.

Lemma agent_reply_starts_with_model chat_id status_id messages w :
  exists reply later,
    trace (agent_reply env chat_id status_id messages w).2
    = trace w ++ ChatCompletion messages reply :: later.
Proof.
  destruct (agent_loop_starts_with_model 4 chat_id status_id messages COOKED w)
    as (reply & l1 & H1).
  exists reply. unfold agent_reply, mbind, M_bind, bind_M, try_Exception, MAX_STEPS.
  destruct (agent_loop env 5 chat_id status_id messages COOKED w) as [[r|e] w1];
    cbn [snd] in *.
  - exists l1. unfold ret. cbn [snd]. exact H1.
  - destruct (is_Exception e).
    + exists (l1 ++ [Log "ERROR" ("Error: " +:+ exn_text e)]).
      unfold ret, emit. cbn [snd trace]. rewrite H1. by rewrite <- !app_assoc.
    + exists l1. cbn [snd]. exact H1.
Qed.

(** X13.  When the status message cannot be sent, the handler stops with
    that exception: the user's text is already stored and the chat is
    already the announcement target, but the model is not called and
    nothing else is sent. *)
Theorem status_send_failure_stops_handler (upd : Update) (msg : Message) (raw : string)
    (e : exn) w :
  message upd = Some msg -> text msg = Some raw -> raw <> "" -> addressed env msg raw ->
  send_message env (length (trace w)) (effective_chat_id upd) MOMENT_MAL = Raise e ->
  handle_message env upd w
  = (Raise e,
     {| ANNOUNCE_CHAT_ID := Some (effective_chat_id upd);
        session_memory := update_memory (effective_chat_id upd) "user" (strip raw)
                            (session_memory w);
        trace := trace w ++ [SendMessage (effective_chat_id upd) MOMENT_MAL (Raise e)] |}).
Proof.
  intros Hmsg Htext Hraw Haddr Hsend.
  rewrite (handle_message_addressed upd msg raw w Hmsg Htext Hraw Haddr). cbv zeta.
  unfold bot_send_message, call, after_intake. cbn [trace]. by rewrite Hsend.
Qed.

(** X14.  A message addressed to the agent is acknowledged first: the
    first thing the handler does outside is to send the status message to
    the chat of the message, and if that works the first call of the
    model gets the persona prompt followed by the stored history of the
    chat, whose last turn is the user's text without surrounding blanks. *)
Theorem addressed_message_is_acknowledged (upd : Update) (msg : Message) (raw : string) w :
  message upd = Some msg -> text msg = Some raw -> raw <> "" -> addressed env msg raw ->
  exists outcome later,
    trace (handle_message env upd w).2
    = trace w ++ SendMessage (effective_chat_id upd) MOMENT_MAL outcome :: later
    /\ match outcome with
       | Raise _ => later = []
       | Ret _ =>
           exists reply later',
             later = ChatCompletion
                       ({| role := "system"; content := SYSTEM_PROMPT |}
                        :: deque_append 10
                             (get_memory (effective_chat_id upd) (session_memory w))
                             {| role := "user"; content := strip raw |})
                       reply :: later'
       end.
Proof.
  intros Hmsg Htext Hraw Haddr.
  rewrite (handle_message_addressed upd msg raw w Hmsg Htext Hraw Haddr). cbv zeta.
  unfold bot_send_message at 1, call at 1.
  set (chat_id := effective_chat_id upd). set (w1 := after_intake chat_id (strip raw) w).
  exists (send_message env (length (trace w1)) chat_id MOMENT_MAL).
  destruct (send_message env (length (trace w1)) chat_id MOMENT_MAL) as [status_id|e] eqn:Es.
  2: { exists []. split; [reflexivity|reflexivity]. }
  set (w2 := (emit (SendMessage chat_id MOMENT_MAL (Ret status_id)) w1).2).
  assert (Hmem : get_memory chat_id (session_memory w2)
                 = deque_append 10 (get_memory chat_id (session_memory w))
                     {| role := "user"; content := strip raw |}).
  { unfold w2, w1, after_intake, emit. cbn [snd session_memory]. apply get_update_same. }
  rewrite Hmem.
  set (messages := {| role := "system"; content := SYSTEM_PROMPT |} :: _).
  destruct (agent_reply_starts_with_model chat_id status_id messages w2) as (reply & l1 & H1).
  destruct (agent_reply env chat_id status_id messages w2) as [[final_reply|e] w3];
    cbn [snd] in *.
  - destruct (trace_grows_deliver chat_id status_id final_reply w3) as [l2 H2].
    exists (ChatCompletion messages reply :: l1 ++ l2). split.
    + rewrite H2, H1. unfold w2, w1, after_intake, emit. cbn [snd trace].
      by rewrite <- !app_assoc.
    + by exists reply, (l1 ++ l2).
  - exists (ChatCompletion messages reply :: l1). split.
    + rewrite H1. unfold w2, w1, after_intake, emit. cbn [snd trace].
      by rewrite <- !app_assoc.
    + by exists reply, l1.
Qed.


(** X15.  Outside private chats the handler reads the sender of the
    message answered before it looks for a mention: an answer to a
    message without sender makes it raise [AttributeError], mention or
    not, after the chat has become the announcement target and before
    anything is stored or sent. *)
Theorem reply_to_senderless_message_raises (upd : Update) (msg : Message) (raw : string) w :
  message upd = Some msg -> text msg = Some raw -> raw <> "" ->
  chat_type msg <> PRIVATE -> reply_to_message msg = Some None ->
  handle_message env upd w
  = (Raise AttributeError,
     {| ANNOUNCE_CHAT_ID := Some (effective_chat_id upd);
        session_memory := session_memory w;
        trace := trace w |}).
Proof.
  intros Hmsg Htext Hraw Hty Hreply. unfold handle_message. rewrite Hmsg, Htext.
  destruct raw as [|c raw']; [done|].
  unfold mbind, M_bind, bind_M, set_announce_chat, is_direct. rewrite Hreply.
  by destruct (chat_type msg).
Qed.

(** X16.  A final reply that had to be sent as a fresh message is not
    remembered: when the final edit raises anything but [BadRequest], the
    reply is sent once as a new message, the handler ends as that send
    ends, and the conversation memory gets no assistant turn, whether or
    not the send worked. *)
Theorem fallback_reply_is_not_remembered (chat_id status_id : Z) (final_reply : string)
    (e : exn) w :
  edit_message_text env (length (trace w)) chat_id status_id final_reply = Raise e ->
  (forall msg, e <> BadRequest msg) ->
  session_memory (deliver env chat_id status_id final_reply w).2 = session_memory w
  /\ exists sent,
       trace (deliver env chat_id status_id final_reply w).2
       = trace w ++ [EditMessageText chat_id status_id final_reply (Raise e);
                     SendMessage chat_id final_reply sent]
       /\ (deliver env chat_id status_id final_reply w).1
          = match sent with Ret _ => Ret tt | Raise e' => Raise e' end.
Proof.
  intros Hedit He.
  unfold deliver, try_bare, mbind, M_bind, bind_M, safe_edit_message,
    bot_edit_message_text, bot_send_message, call.
  rewrite Hedit.
  destruct e; try (by specialize (He msg));
    (cbn; destruct (send_message env _ chat_id final_reply) as [mid|e'] eqn:Es; cbn;
     (split; [reflexivity|]); eexists;
     (split; [rewrite <- app_assoc; reflexivity|reflexivity])).
Qed.

(** The announcement target after any text message is the chat of that
    message. *)
Lemma handle_message_target (upd : Update) (msg : Message) (raw : string) w :
  message upd = Some msg -> text msg = Some raw -> raw <> "" ->
  ANNOUNCE_CHAT_ID (handle_message env upd w).2 = Some (effective_chat_id upd).
Proof.
  intros Hmsg Htext Hraw. unfold handle_message. rewrite Hmsg, Htext.
  destruct raw as [|c raw']; [done|].
  unfold mbind, M_bind, bind_M, set_announce_chat.
  set (w0 := {| ANNOUNCE_CHAT_ID := Some (effective_chat_id upd);
                session_memory := session_memory w; trace := trace w |}).
  pose proof (is_direct_pure msg (strip (String c raw')) w0) as Hpure.
  destruct (is_direct env msg (strip (String c raw')) w0) as [[[]|e] w1];
    cbn [snd] in Hpure; subst w1; cbn [negb]; [|done|done].
  unfold remember, recall. subst w0. cbn [ANNOUNCE_CHAT_ID session_memory trace].
  set (w1 := {| ANNOUNCE_CHAT_ID := Some (effective_chat_id upd); session_memory := _;
                trace := trace w |}).
  destruct (globals_kept_send (effective_chat_id upd) MOMENT_MAL w1) as [Hs _].
  destruct (bot_send_message env (effective_chat_id upd) MOMENT_MAL w1)
    as [[status_id|e] w2]; cbn [snd] in *; [|exact Hs].
  set (messages := {| role := "system"; content := SYSTEM_PROMPT |} :: _).
  destruct (globals_kept_agent_reply (effective_chat_id upd) status_id messages w2)
    as [Hr _].
  destruct (agent_reply env (effective_chat_id upd) status_id messages w2)
    as [[final_reply|e] w3]; cbn [snd] in *; [|by rewrite Hr, Hs].
  by rewrite deliver_announce, Hr, Hs.
Qed.

End HandlerFrames.

(** * What the model is shown, and what ends a run *)

Section HandlerHistory.
Import Bot Directive CalcEval.
Context {F : Type} {RT : PyRuntime F}.
Variable env : Env F.
Implicit Types (w : World F) (ev : Event F).
#[local] Existing Instance M_bind.

(** The tools add no call of the model to the trace. *)
Lemma dispatch_adds_no_model_call chat_id status_id tool arg w :
  exists evs,
    trace (dispatch env chat_id status_id tool arg w).2 = trace w ++ evs
    /\ forall msgs r, ChatCompletion msgs r ∉ evs.
Proof.
  destruct (trace_grows_dispatch env chat_id status_id tool arg w) as [evs Hevs].
  exists evs. split; [exact Hevs|]. intros msgs r Hin.
  pose proof (calls_kept_dispatch env chat_id status_id tool arg w) as Hk.
  unfold model_calls in Hk. rewrite Hevs, filter_app, length_app in Hk.
  assert (Hf : ChatCompletion msgs r
               ∈ filter (fun ev => is_completion ev = true) evs).
  { apply list_elem_of_filter. by split. }
  destruct (filter (fun ev => is_completion ev = true) evs) as [|x l].
  - by apply elem_of_nil in Hf.
  - simpl in Hk. lia.
Qed.

Lemma agent_loop_history steps : forall chat_id status_id messages final_reply w,
  exists evs,
    trace (agent_loop env steps chat_id status_id messages final_reply w).2
    = trace w ++ evs
    /\ forall msgs r, ChatCompletion msgs r ∈ evs ->
         exists added,
           msgs = messages ++ added /\ tool_turns added /\ length added + 2 <= 2 * steps.
Proof.
  induction steps as [|n IH]; intros chat_id status_id messages final_reply w.
  { exists []. split; [by rewrite app_nil_r|]. intros msgs r H. by apply elem_of_nil in H. }
  simpl. unfold mbind, M_bind, bind_M, create_completion, call.
  set (first := ChatCompletion messages (chat_completion env (length (trace w)) messages)).
  set (w1 := (emit first w).2).
  assert (H1 : trace w1 = trace w ++ [first]) by reflexivity.
  assert (Hfirst : forall msgs r, ChatCompletion msgs r = first ->
            exists added,
              msgs = messages ++ added /\ tool_turns added
              /\ length added + 2 <= 2 * S n).
  { intros msgs r [= -> _]. exists []. rewrite app_nil_r. split; [done|].
    split; [constructor|simpl; lia]. }
  clearbody first.
  destruct (chat_completion env (length (trace w)) messages) as [content|e].
  2: { exists [first]. split; [exact H1|]. intros msgs r Hin.
       apply list_elem_of_singleton in Hin. by apply Hfirst with r. }
  cbn [fst snd].
  destruct (re_search (strip content)) as [[g1 g2]|] eqn:Hre.
  2: { exists [first]. split; [exact H1|]. intros msgs r Hin.
       apply list_elem_of_singleton in Hin. by apply Hfirst with r. }
  destruct (dispatch_adds_no_model_call chat_id status_id (upper g1) (strip g2) w1)
    as (l2 & H2 & Hno).
  destruct (dispatch env chat_id status_id (upper g1) (strip g2) w1) as [[obs|e] w2];
    cbn [fst snd] in *.
  2: { exists (first :: l2). split; [by rewrite H2, H1, <- app_assoc|].
       intros msgs r [Hin|Hin]%elem_of_cons; [by apply Hfirst with r|].
       by apply Hno in Hin. }
  set (messages' := (messages ++ _) ++ _).
  destruct (IH chat_id status_id messages' final_reply w2) as (l3 & H3 & Hl3).
  exists (first :: l2 ++ l3). split.
  { rewrite H3, H2, H1. by rewrite <- !app_assoc. }
  intros msgs r [Hin|Hin]%elem_of_cons; [by apply Hfirst with r|].
  apply elem_of_app in Hin as [Hin|Hin]; [by apply Hno in Hin|].
  destruct (Hl3 msgs r Hin) as (added & -> & Hadded & Hlen).
  exists ({| role := "assistant"; content := strip content |}
          :: {| role := "user"; content := "OBSERVATION: " +:+ obs |} :: added).
  split; [unfold messages'; by rewrite <- !app_assoc|].
  split; [constructor; [by rewrite Hre|exact Hadded]|simpl; lia].
Qed.

(** X20.  What the model is shown.  Every call of the model during a
    run gets the messages the run started with, followed only by turns
    of earlier tool steps: each an assistant turn holding a directive and
    then the observation of its tool as a user turn.  Nothing is dropped
    or reordered, and at most 4 such pairs are ever added. *)
Theorem model_sees_history_and_observations (chat_id status_id : Z)
    (messages : list Turn) w :
  exists evs,
    trace (agent_reply env chat_id status_id messages w).2 = trace w ++ evs
    /\ forall msgs r, ChatCompletion msgs r ∈ evs ->
         exists added,
           msgs = messages ++ added /\ tool_turns added
           /\ length added <= 2 * (MAX_STEPS - 1).
Proof.
  destruct (agent_loop_history MAX_STEPS chat_id status_id messages COOKED w)
    as (evs & Hevs & Hall).
  assert (Hall' : forall msgs r, ChatCompletion msgs r ∈ evs ->
            exists added, msgs = messages ++ added /\ tool_turns added
                          /\ length added <= 2 * (MAX_STEPS - 1)).
  { intros msgs r Hin. destruct (Hall msgs r Hin) as (added & ? & ? & Hlen).
    exists added. unfold MAX_STEPS in *. repeat split; try done. lia. }
  unfold agent_reply, mbind, M_bind, bind_M, try_Exception.
  destruct (agent_loop env MAX_STEPS chat_id status_id messages COOKED w) as [[r|e] w1];
    cbn [snd] in *.
  - exists evs. unfold ret. cbn [snd]. by split.
  - destruct (is_Exception e).
    + exists (evs ++ [Log "ERROR" ("Error: " +:+ exn_text e)]).
      unfold ret, emit. cbn [snd trace]. split; [by rewrite Hevs, <- app_assoc|].
      intros msgs r [Hin|Hin]%elem_of_app; [by apply Hall' with r|].
      by apply list_elem_of_singleton in Hin.
    + exists evs. cbn [snd]. by split.
Qed.

(** A call of the model that raised is the last thing the loop did, and
    the loop ended with its exception. *)
Lemma agent_loop_model_failure steps : forall chat_id status_id messages final_reply w,
  exists evs,
    trace (agent_loop env steps chat_id status_id messages final_reply w).2
    = trace w ++ evs
    /\ forall msgs e, ChatCompletion msgs (Raise e) ∈ evs ->
         (agent_loop env steps chat_id status_id messages final_reply w).1 = Raise e
         /\ exists before, evs = before ++ [ChatCompletion msgs (Raise e)].
Proof.
  induction steps as [|n IH]; intros chat_id status_id messages final_reply w.
  { exists []. split; [by rewrite app_nil_r|]. intros msgs r H. by apply elem_of_nil in H. }
  simpl. unfold mbind, M_bind, bind_M, create_completion, call.
  destruct (chat_completion env (length (trace w)) messages) as [content|e0].
  2: { exists [ChatCompletion messages (Raise e0)]. split; [reflexivity|].
       intros msgs e Hin. apply list_elem_of_singleton in Hin as [= -> ->].
       split; [reflexivity|]. by exists []. }
  set (first := ChatCompletion messages (Ret content)).
  set (w1 := (emit first w).2).
  assert (H1 : trace w1 = trace w ++ [first]) by reflexivity.
  cbn [fst snd].
  destruct (re_search (strip content)) as [[g1 g2]|] eqn:Hre.
  2: { exists [first]. split; [exact H1|]. intros msgs r Hin.
       by apply list_elem_of_singleton in Hin. }
  destruct (dispatch_adds_no_model_call chat_id status_id (upper g1) (strip g2) w1)
    as (l2 & H2 & Hno).
  destruct (dispatch env chat_id status_id (upper g1) (strip g2) w1) as [[obs|e1] w2];
    cbn [fst snd] in *.
  2: { exists (first :: l2). split; [by rewrite H2, H1, <- app_assoc|].
       intros msgs r [Hin|Hin]%elem_of_cons; [done|]. by apply Hno in Hin. }
  set (messages' := (messages ++ _) ++ _).
  destruct (IH chat_id status_id messages' final_reply w2) as (l3 & H3 & Hl3).
  exists (first :: l2 ++ l3). split.
  { rewrite H3, H2, H1. by rewrite <- !app_assoc. }
  intros msgs e [Hin|Hin]%elem_of_cons; [done|].
  apply elem_of_app in Hin as [Hin|Hin]; [by apply Hno in Hin|].
  destruct (Hl3 msgs e Hin) as (Hres & before & ->).
  split; [exact Hres|]. exists (first :: l2 ++ before). by rewrite <- app_comm_cons, <- app_assoc.
Qed.

(** X21.  A failure of the language model is not retried: at whichever
    step of a run a call of the model raises an exception, the run ends
    at once with the fixed failure text; that call and the log entry of
    its error are the last things done, and no tool or transport call
    follows. *)
Theorem backend_failure_ends_the_run (chat_id status_id : Z) (messages : list Turn) w :
  exists evs,
    trace (agent_reply env chat_id status_id messages w).2 = trace w ++ evs
    /\ forall msgs e, ChatCompletion msgs (Raise e) ∈ evs -> is_Exception e = true ->
         (agent_reply env chat_id status_id messages w).1 = Ret BRAIN_DIED
         /\ exists before,
              evs = before ++ [ChatCompletion msgs (Raise e);
                               Log "ERROR" ("Error: " +:+ exn_text e)].
Proof.
  destruct (agent_loop_model_failure MAX_STEPS chat_id status_id messages COOKED w)
    as (evs & Hevs & Hall).
  unfold agent_reply, mbind, M_bind, bind_M, try_Exception.
  destruct (agent_loop env MAX_STEPS chat_id status_id messages COOKED w) as [[r|e0] w1];
    cbn [fst snd] in *.
  - exists evs. unfold ret. cbn [snd]. split; [exact Hevs|].
    intros msgs e Hin _. by destruct (Hall msgs e Hin) as [? _].
  - destruct (is_Exception e0) eqn:He0.
    + exists (evs ++ [Log "ERROR" ("Error: " +:+ exn_text e0)]).
      unfold ret, emit. cbn [fst snd trace]. split; [by rewrite Hevs, <- app_assoc|].
      intros msgs e [Hin|Hin]%elem_of_app He; [|by apply list_elem_of_singleton in Hin].
      destruct (Hall msgs e Hin) as ([= ->] & before & ->).
      split; [reflexivity|]. exists before. by rewrite <- app_assoc.
    + exists evs. cbn [snd]. split; [exact Hevs|].
      intros msgs e Hin He. destruct (Hall msgs e Hin) as ([= ->] & _). congruence.
Qed.

End HandlerHistory.

(** * The further properties at concrete inputs *)

Section FurtherExamples.
Import Bot Directive CalcEval.

Lemma status_send_failure_stops_handler_witness :
  handle_message (example_env (Raise (TelegramError "timed out")) (Ret "ja") (Ret tt))
    (private_message "hallo") fresh_world
  = (Raise (TelegramError "timed out"),
     {| ANNOUNCE_CHAT_ID := Some 7%Z;
        session_memory := update_memory 7 "user" "hallo" ∅;
        trace := [SendMessage 7 MOMENT_MAL (Raise (TelegramError "timed out"))] |}).
Proof.
  apply (status_send_failure_stops_handler
           (example_env (Raise (TelegramError "timed out")) (Ret "ja") (Ret tt))
           (private_message "hallo") _ "hallo" _ fresh_world
           eq_refl eq_refl ltac:(discriminate) (or_introl eq_refl) eq_refl).
Defined.

Lemma addressed_message_is_acknowledged_witness :
  exists outcome later,
    trace (handle_message (example_env (Ret 1000%Z) (Ret "ja") (Ret tt))
             (private_message "hallo") fresh_world).2
    = [] ++ SendMessage 7 MOMENT_MAL outcome :: later
    /\ match outcome with
       | Raise _ => later = []
       | Ret _ =>
           exists reply later',
             later = ChatCompletion
                       ({| role := "system"; content := SYSTEM_PROMPT |}
                        :: deque_append 10 (get_memory 7 ∅)
                             {| role := "user"; content := strip "hallo" |})
                       reply :: later'
       end.
Proof.
  apply (addressed_message_is_acknowledged
           (example_env (Ret 1000%Z) (Ret "ja") (Ret tt))
           (private_message "hallo") _ "hallo" fresh_world
           eq_refl eq_refl ltac:(discriminate) (or_introl eq_refl)).
Defined.

Lemma reply_to_senderless_message_raises_witness :
  handle_message (example_env (Ret 1000%Z) (Ret "ja") (Ret tt))
    (reply_to_senderless "@botbro hallo") fresh_world
  = (Raise AttributeError,
     {| ANNOUNCE_CHAT_ID := Some 7%Z; session_memory := ∅; trace := [] |}).
Proof.
  apply (reply_to_senderless_message_raises
           (example_env (Ret 1000%Z) (Ret "ja") (Ret tt))
           (reply_to_senderless "@botbro hallo") _ "@botbro hallo" fresh_world
           eq_refl eq_refl ltac:(discriminate) ltac:(discriminate) eq_refl).
Defined.

Lemma fallback_reply_is_not_remembered_witness :
  session_memory
    (deliver (example_env (Ret 1001%Z) (Ret "ja") (Raise (TelegramError "timed out")))
       7 1000 "ja" fresh_world).2 = ∅
  /\ exists sent,
       trace (deliver (example_env (Ret 1001%Z) (Ret "ja")
                         (Raise (TelegramError "timed out")))
                7 1000 "ja" fresh_world).2
       = [] ++ [EditMessageText 7 1000 "ja" (Raise (TelegramError "timed out"));
                SendMessage 7 "ja" sent]
       /\ (deliver (example_env (Ret 1001%Z) (Ret "ja")
                      (Raise (TelegramError "timed out")))
             7 1000 "ja" fresh_world).1
          = match sent with Ret _ => Ret tt | Raise e' => Raise e' end.
Proof.
  apply (fallback_reply_is_not_remembered
           (example_env (Ret 1001%Z) (Ret "ja") (Raise (TelegramError "timed out")))
           7 1000 "ja" (TelegramError "timed out") fresh_world eq_refl).
  intros msg. discriminate.
Defined.

Lemma backend_failure_ends_the_run_witness :
  (agent_reply (example_env (Ret 1000%Z) (Raise (BackendError "rate limit")) (Ret tt))
     7 1000 [{| role := "user"; content := "hallo" |}] fresh_world).1
  = Ret BRAIN_DIED.
Proof.
  destruct (backend_failure_ends_the_run
              (example_env (Ret 1000%Z) (Raise (BackendError "rate limit")) (Ret tt))
              7 1000 [{| role := "user"; content := "hallo" |}] fresh_world)
    as (evs & Hevs & Hall).
  cbn in Hevs. subst evs.
  refine (proj1 (Hall _ (BackendError "rate limit") _ eq_refl)).
  apply elem_of_cons. left. reflexivity.
Defined.

Lemma calc_integer_arithmetic_witness :
  tool_calc (RT:=opaque_runtime) "12*30" = Ret "360".
Proof.
  apply (calc_integer_arithmetic (RT:=opaque_runtime) "12" "30" Calc.Mult 360
           eq_refl eq_refl eq_refl eq_refl eq_refl eq_refl).
Defined.

Lemma schedule_is_never_empty_witness :
  Schedule.valid_date 2025 1 5 = true
  /\ Schedule.tool_check_schedule (noon 2025 1 5) <> Schedule.NO_SCHEDULE.
Proof.
  split; [reflexivity|].
  apply (schedule_is_never_empty (noon 2025 1 5)); [reflexivity| |].
  - cbn. lia.
  - unfold time_of_day. cbn. lia.
Defined.

End FurtherExamples.

(** * The readings of the clock *)

Section ClockFacts.
Import Schedule.
#[local] Open Scope nat_scope.

Lemma run_on_bind {A B} (m : clocked A) (f : A -> clocked B) (clock : nat -> datetime) :
  forall t,
    run_on clock t (clocked_bind m f)
    = ((run_on clock (t + length (run_on clock t m).2) (f (run_on clock t m).1)).1,
       (run_on clock t m).2
       ++ (run_on clock (t + length (run_on clock t m).2) (f (run_on clock t m).1)).2).
Proof.
  induction m as [a|k IH]; intros t.
  - cbn. rewrite Nat.add_0_r. by destruct (run_on clock t (f a)).
  - cbn [clocked_bind run_on]. rewrite IH. cbn [fst snd length].
    by rewrite Nat.add_succ_comm.
Qed.

Lemma run_on_bind_value {A B} (m : clocked A) (f : A -> clocked B)
    (clock : nat -> datetime) (t : nat) :
  (run_on clock t (clocked_bind m f)).1
  = (run_on clock (t + length (run_on clock t m).2) (f (run_on clock t m).1)).1.
Proof. by rewrite run_on_bind. Qed.

Lemma run_on_bind_readings {A B} (m : clocked A) (f : A -> clocked B)
    (clock : nat -> datetime) (t : nat) :
  (run_on clock t (clocked_bind m f)).2
  = (run_on clock t m).2
    ++ (run_on clock (t + length (run_on clock t m).2) (f (run_on clock t m).1)).2.
Proof. by rewrite run_on_bind. Qed.

Lemma run_on_Now {A} (k : datetime -> clocked A) (clock : nat -> datetime) (t : nat) :
  (run_on clock t (Now k)).1 = (run_on clock (S t) (k (clock t))).1
  /\ (run_on clock t (Now k)).2 = clock t :: (run_on clock (S t) (k (clock t))).2.
Proof. done. Qed.

Lemma run_on_Done {A} (a : A) (clock : nat -> datetime) (t : nat) :
  (run_on clock t (Done a)).1 = a /\ (run_on clock t (Done a)).2 = [].
Proof. done. Qed.

Lemma run_on_still_shift {A} (m : clocked A) (now : datetime) (a b : nat) :
  run_on (fun _ => now) a m = run_on (fun _ => now) b m.
Proof.
  revert a b. induction m as [x|k IH]; intros a b; [done|]. cbn.
  by rewrite (IH now (S a) (S b)).
Qed.

(** Only the readings taken matter: a computation whose readings all
    showed [now] gave what it gives when the clock stands still. *)
Lemma run_on_still {A} (m : clocked A) (clock : nat -> datetime) (now : datetime) :
  forall t,
    Forall (fun reading => reading = now) (run_on clock t m).2 ->
    (run_on clock t m).1 = (run_on (fun _ => now) 0 m).1.
Proof.
  induction m as [a|k IH]; intros t; [done|].
  cbn [run_on fst snd]. intros [Ht Hrest]%Forall_cons. rewrite Ht in *.
  rewrite (IH now (S t) Hrest). by rewrite (run_on_still_shift (k now) now 0 1).
Qed.

(** With the clock standing still, the roster code with its readings is
    the roster code on that one reading. *)
Lemma parse_schedule_date_still (now : datetime) (date_range : string) (t : nat) :
  (run_on (fun _ => now) t (parse_schedule_date_clocked date_range)).1
  = parse_schedule_date now date_range.
Proof.
  unfold parse_schedule_date_clocked, parse_schedule_date. cbn [run_on fst].
  destruct (words _) as [|month_str [|day_str [|]]]; try done.
  destruct (MONTH_MAP !! month_str) as [m|]; [|done].
  destruct (m =? 0)%Z; [done|].
  destruct (int_of_string day_str) as [dd|]; [|done].
  by destruct (date (year now) m dd).
Qed.

Lemma future_clocked_still (now : datetime) (rows : list (gmap string string)) :
  forall future t,
    (run_on (fun _ => now) t (future_clocked now rows future)).1
    = future ++ future_rows now rows.
Proof.
  induction rows as [|row rows IH]; intros future t.
  - cbn. by rewrite app_nil_r.
  - cbn [future_clocked]. rewrite run_on_bind_value.
    rewrite IH, parse_schedule_date_still. unfold future_rows. cbn [flat_map].
    by rewrite <- app_assoc.
Qed.

Lemma schedule_text_future_rows (now : datetime) (rows : list (gmap string string)) :
  schedule_text (future_rows now rows) = check_schedule now rows.
Proof. unfold schedule_text, check_schedule, shown. by destruct (future_rows now rows). Qed.

Lemma tool_check_schedule_still (now : datetime) (t : nat) :
  (run_on (fun _ => now) t tool_check_schedule_clocked).1 = tool_check_schedule now.
Proof.
  unfold tool_check_schedule_clocked, tool_check_schedule.
  rewrite (proj1 (run_on_Now _ _ _)), run_on_bind_value.
  rewrite (proj1 (run_on_Done _ _ _)).
  rewrite future_clocked_still, app_nil_l. apply schedule_text_future_rows.
Qed.

(** The number of readings. *)
Lemma parse_schedule_date_readings (clock : nat -> datetime) (t : nat) (date_range : string) :
  length (run_on clock t (parse_schedule_date_clocked date_range)).2
  = match first_date date_range with
    | Some (m, dd) => if valid_date (year (clock t)) m dd then 2 else 1
    | None => 1
    end.
Proof.
  unfold parse_schedule_date_clocked, first_date. cbn [run_on snd length].
  destruct (words _) as [|month_str [|day_str [|]]]; try done.
  destruct (MONTH_MAP !! month_str) as [m|] eqn:Hm; [|done].
  rewrite (month_map_nonzero _ _ Hm).
  destruct (int_of_string day_str) as [dd|]; [|done].
  unfold date. by destruct (valid_date (year (clock t)) m dd).
Qed.

Lemma future_clocked_readings (clock : nat -> datetime) (now : datetime)
    (rows : list (gmap string string)) :
  forall future t,
    length (run_on clock t (future_clocked now rows future)).2 <= 2 * length rows
    /\ ((forall i, (1 <= year (clock i) <= 9999)%Z) ->
        Forall (fun row => match first_date (field row "Date Range") with
                           | Some (m, dd) => in_every_year m dd = true
                           | None => False
                           end) rows ->
        length (run_on clock t (future_clocked now rows future)).2 = 2 * length rows).
Proof.
  induction rows as [|row rows IH]; intros future t; [by cbn|].
  cbn [future_clocked]. rewrite run_on_bind_readings, length_app.
  rewrite parse_schedule_date_readings.
  set (t' := t + _). set (future' := future ++ _).
  destruct (IH future' t') as [Hle Heq]. split.
  - cbn [length]. repeat case_match; lia.
  - intros Hy [Hrow Hrows]%Forall_cons. rewrite (Heq Hy Hrows). cbn [length].
    destruct (first_date (field row "Date Range")) as [[m dd]|]; [|done].
    rewrite (in_every_year_valid (year (clock t)) m dd Hrow (Hy t)). lia.
Qed.

Lemma roster_labels_in_every_year :
  Forall (fun row => match first_date (field row "Date Range") with
                     | Some (m, dd) => in_every_year m dd = true
                     | None => False
                     end) (DictReader CLEANING_DATA).
Proof.
  assert (Hall : forallb (fun r => match first_date (field r "Date Range") with
                                   | Some (m, dd) => in_every_year m dd
                                   | None => false
                                   end) (DictReader CLEANING_DATA) = true)
    by (vm_compute; reflexivity).
  rewrite forallb_forall in Hall. apply Forall_forall. intros row Hrow.
  apply list_elem_of_In in Hrow. specialize (Hall row Hrow).
  by destruct (first_date (field row "Date Range")) as [[m dd]|].
Qed.

Lemma roster_length : length (DictReader CLEANING_DATA) = 52.
Proof. by vm_compute. Qed.

Lemma readings_of_check_schedule (clock : nat -> datetime) (t : nat) :
  1 <= length (run_on clock t tool_check_schedule_clocked).2 <= 105
  /\ ((forall i, (1 <= year (clock i) <= 9999)%Z) ->
      length (run_on clock t tool_check_schedule_clocked).2 = 105)
  /\ (forall now,
        Forall (fun reading => reading = now) (run_on clock t tool_check_schedule_clocked).2 ->
        (run_on clock t tool_check_schedule_clocked).1 = tool_check_schedule now).
Proof.
  assert (Hlen : length (run_on clock t tool_check_schedule_clocked).2
                 = S (length (run_on clock (S t)
                                (future_clocked (clock t) (DictReader CLEANING_DATA) [])).2)).
  { unfold tool_check_schedule_clocked.
    rewrite (proj2 (run_on_Now _ _ _)), run_on_bind_readings.
    rewrite (proj2 (run_on_Done _ _ _)), app_nil_r. apply length_cons. }
  rewrite Hlen.
  destruct (future_clocked_readings clock (clock t) (DictReader CLEANING_DATA) [] (S t))
    as [Hle Heq].
  rewrite roster_length in Hle, Heq.
  split; [lia|]. split.
  - intros Hy. rewrite (Heq Hy roster_labels_in_every_year). lia.
  - intros now Hall. rewrite (run_on_still _ clock now t Hall).
    apply tool_check_schedule_still.
Qed.

(** X22.  [tool_check_schedule] reads the clock once for itself and, in
    [parse_schedule_date], once or twice for every row: at most 105
    times on the roster of the source, and exactly 105 times when every
    reading has a year from 1 to 9999.  Whenever all these readings show
    the same moment [now], its text is the text for that one reading. *)
Theorem tool_check_schedule_readings (clock : nat -> datetime) (t : nat) :
  1 <= length (run_on clock t tool_check_schedule_clocked).2 <= 105
  /\ ((forall i, (1 <= year (clock i) <= 9999)%Z) ->
      length (run_on clock t tool_check_schedule_clocked).2 = 105)
  /\ (forall now,
        Forall (fun reading => reading = now) (run_on clock t tool_check_schedule_clocked).2 ->
        (run_on clock t tool_check_schedule_clocked).1 = tool_check_schedule now).
Proof. apply readings_of_check_schedule. Qed.

End ClockFacts.

(** * The handler: what is stored, the REMIND tool, the announcement *)

Section HandlerEffects.
Import Bot Directive CalcEval.
Context {F : Type} {RT : PyRuntime F}.
Variable env : Env F.
Implicit Types (w : World F) (ev : Event F).
#[local] Existing Instance M_bind.

(** The memory after [deliver]: the reply is stored exactly when
    [safe_edit_message] returned. *)
Lemma deliver_stores chat_id status_id final_reply w :
  session_memory (deliver env chat_id status_id final_reply w).2
  = match (safe_edit_message env chat_id status_id final_reply w).1 with
    | Ret _ => update_memory chat_id "assistant" final_reply (session_memory w)
    | Raise _ => session_memory w
    end.
Proof.
  unfold deliver, try_bare, mbind, M_bind, bind_M, ret.
  destruct (globals_kept_safe_edit env chat_id status_id final_reply w) as [_ Ha].
  destruct (safe_edit_message env chat_id status_id final_reply w) as [[u|e] w1];
    cbn [fst snd] in *.
  - unfold remember. cbn. by rewrite Ha.
  - destruct (globals_kept_send env chat_id final_reply w1) as [_ Hb].
    destruct (bot_send_message env chat_id final_reply w1) as [[u|e'] w2]; cbn [snd] in *;
      congruence.
Qed.

(** X12.  What one message does to the conversation memory.  For a
    message addressed to the agent, the history of its chat gets the
    user's text without surrounding blanks and then, exactly when the
    status message was sent, the run returned a final reply and the edit
    that shows it did not raise, that final reply; nothing else is
    stored.  For every message, the histories of all other chats are
    untouched, and histories of at most 10 turns stay so. *)
Theorem handle_message_memory (upd : Update) w :
  (forall msg raw,
      message upd = Some msg -> text msg = Some raw -> raw <> "" ->
      addressed env msg raw ->
      let chat_id := effective_chat_id upd in
      let stored := update_memory chat_id "user" (strip raw) (session_memory w) in
      session_memory (handle_message env upd w).2
      = match send_message env (length (trace w)) chat_id MOMENT_MAL with
        | Raise _ => stored
        | Ret status_id =>
            let w2 := {| ANNOUNCE_CHAT_ID := Some chat_id;
                         session_memory := stored;
                         trace := trace w ++ [SendMessage chat_id MOMENT_MAL (Ret status_id)] |} in
            let messages := {| role := "system"; content := SYSTEM_PROMPT |}
                            :: get_memory chat_id stored in
            match agent_reply env chat_id status_id messages w2 with
            | (Raise _, _) => stored
            | (Ret final_reply, w3) =>
                match (safe_edit_message env chat_id status_id final_reply w3).1 with
                | Ret _ => update_memory chat_id "assistant" final_reply stored
                | Raise _ => stored
                end
            end
        end)
  /\ (forall c, c <> effective_chat_id upd ->
       get_memory c (session_memory (handle_message env upd w).2)
       = get_memory c (session_memory w))
  /\ ((forall c, length (get_memory c (session_memory w)) <= 10) ->
      forall c, length (get_memory c (session_memory (handle_message env upd w).2)) <= 10).
Proof.
  assert (Hforms :
    session_memory (handle_message env upd w).2 = session_memory w
    \/ exists txt,
         session_memory (handle_message env upd w).2
         = update_memory (effective_chat_id upd) "user" txt (session_memory w)
         \/ exists final_reply,
              session_memory (handle_message env upd w).2
              = update_memory (effective_chat_id upd) "assistant" final_reply
                  (update_memory (effective_chat_id upd) "user" txt (session_memory w))).
  { unfold handle_message. destruct (message upd) as [msg|]; [|by left].
    destruct (text msg) as [[|c raw']|]; [by left| |by left].
    unfold mbind, M_bind, bind_M, set_announce_chat.
    set (w0 := {| ANNOUNCE_CHAT_ID := Some (effective_chat_id upd);
                  session_memory := session_memory w; trace := trace w |}).
    pose proof (is_direct_pure env msg (strip (String c raw')) w0) as Hpure.
    destruct (is_direct env msg (strip (String c raw')) w0) as [[[]|e] w1];
      cbn [snd] in Hpure; subst w1; cbn [negb]; [|by left|by left].
    right. exists (strip (String c raw')).
    unfold remember, recall. subst w0. cbn [ANNOUNCE_CHAT_ID session_memory trace].
    set (w1 := {| ANNOUNCE_CHAT_ID := Some (effective_chat_id upd);
                  session_memory := update_memory (effective_chat_id upd) "user"
                                      (strip (String c raw')) (session_memory w);
                  trace := trace w |}).
    destruct (globals_kept_send env (effective_chat_id upd) MOMENT_MAL w1) as [_ Hs].
    destruct (bot_send_message env (effective_chat_id upd) MOMENT_MAL w1)
      as [[status_id|e] w2]; cbn [snd] in *; [|left; exact Hs].
    set (messages := {| role := "system"; content := SYSTEM_PROMPT |} :: _).
    destruct (globals_kept_agent_reply env (effective_chat_id upd) status_id messages w2)
      as [_ Hr].
    destruct (agent_reply env (effective_chat_id upd) status_id messages w2)
      as [[final_reply|e] w3]; cbn [snd] in *; [|left; by rewrite Hr, Hs].
    destruct (deliver_memory env (effective_chat_id upd) status_id final_reply w3) as [Hd|Hd].
    - left. by rewrite Hd, Hr, Hs.
    - right. exists final_reply. by rewrite Hd, Hr, Hs. }
  split; [|split].
  - intros msg raw Hmsg Htext Hraw Haddr. cbv zeta.
    rewrite (handle_message_addressed env upd msg raw w Hmsg Htext Hraw Haddr). cbv zeta.
    unfold bot_send_message, call, after_intake, emit. cbn [fst snd trace].
    destruct (send_message env (length (trace w)) (effective_chat_id upd) MOMENT_MAL)
      as [status_id|e]; [|reflexivity].
    cbn [session_memory].
    set (w2 := {| ANNOUNCE_CHAT_ID := _; session_memory := _; trace := _ |}).
    set (messages := {| role := "system"; content := SYSTEM_PROMPT |} :: _).
    destruct (globals_kept_agent_reply env (effective_chat_id upd) status_id messages w2)
      as [_ Hr].
    destruct (agent_reply env (effective_chat_id upd) status_id messages w2)
      as [[final_reply|e] w3]; cbn [snd] in *; [|exact Hr].
    rewrite deliver_stores, Hr. reflexivity.
  - intros c Hc. destruct Hforms as [->|[txt [->|[final_reply ->]]]]; [done| |].
    + by rewrite get_update_other.
    + by rewrite !get_update_other.
  - intros Hb. destruct Hforms as [->|[txt [->|[final_reply ->]]]]; [done| |].
    + by apply update_memory_bounded.
    + by apply update_memory_bounded, update_memory_bounded.
Qed.

(** X18.  The REMIND tool never raises and never calls the model or the
    transport.  When the first word of its argument is not a number it
    reports the format error without asking the job queue for anything.
    When it is a number, the job queue is asked exactly once, for this
    chat, with 60 times that number as delay and the rest of the
    argument (or [timer]) as reason: if the job queue accepts the job
    the timer is confirmed with that number, and if the job queue raises
    anything at all the format error is reported. *)
Theorem remind_never_raises (chat_id status_id : Z) (arg : string) w :
  let first := (split_space_once (strip_chars (DQ +:+ ".") arg)).1 in
  let reason := default "timer" (split_space_once (strip_chars (DQ +:+ ".") arg)).2 in
  (exists obs, (dispatch env chat_id status_id "REMIND" arg w).1 = Ret obs)
  /\ outbound (dispatch env chat_id status_id "REMIND" arg w).2 = outbound w
  /\ model_calls (dispatch env chat_id status_id "REMIND" arg w).2 = model_calls w
  /\ (float_of_string first = None ->
      dispatch env chat_id status_id "REMIND" arg w = (Ret FORMAT_ERROR, w))
  /\ (forall minutes sixty,
        float_of_string first = Some minutes -> float_of_int 60 = Some sixty ->
        let delay := float_mul minutes sixty in
        let outcome := run_once env (length (trace w)) chat_id delay reason in
        dispatch env chat_id status_id "REMIND" arg w
        = (Ret match outcome with
               | Ret _ => "Timer set for " +:+ float_repr minutes +:+ " minutes."
               | Raise _ => FORMAT_ERROR
               end,
           {| ANNOUNCE_CHAT_ID := ANNOUNCE_CHAT_ID w;
              session_memory := session_memory w;
              trace := trace w ++ [RunOnce chat_id delay reason outcome] |})).
Proof.
  cbv zeta.
  change (dispatch env chat_id status_id "REMIND" arg)
    with (try_bare (remind_body env chat_id arg) (ret FORMAT_ERROR)).
  unfold try_bare, remind_body.
  destruct (split_space_once (strip_chars (DQ +:+ ".") arg)) as [first rest].
  cbn [fst snd]. unfold mbind, M_bind, bind_M, lift, opt_or.
  destruct (float_of_string first) as [minutes|].
  2: { cbn. repeat split; eauto; intros; discriminate. }
  destruct (float_of_int 60) as [sixty|].
  2: { cbn. repeat split; eauto; intros; discriminate. }
  unfold call.
  destruct (run_once env (length (trace w)) chat_id (float_mul minutes sixty)
              (default "timer" rest)) as [[]|e'] eqn:Er.
  - cbn. split; [eauto|]. unfold outbound, model_calls. cbn.
    rewrite !filter_app. cbn. rewrite !decide_False, !app_nil_r by done.
    repeat split; try done.
    intros minutes' sixty' [= <-] [= <-]. by rewrite Er.
  - cbn. split; [eauto|]. unfold outbound, model_calls. cbn.
    rewrite !filter_app. cbn. rewrite !decide_False, !app_nil_r by done.
    repeat split; try done.
    intros minutes' sixty' [= <-] [= <-]. by rewrite Er.
Qed.

(** The announcement, for any roster computation and any wording. *)
Lemma announce_trace (m : Schedule.clocked string) (chat_id : Z)
    (wording : string -> string) w :
  exists outcome,
    trace ((sched ← run_clocked env m ;
            _ ← bot_send_message env chat_id (wording sched) ;
            ret tt) w).2
    = trace w
      ++ map ClockRead (Schedule.run_on (datetime_now env) (length (trace w)) m).2
      ++ [SendMessage chat_id
            (wording (Schedule.run_on (datetime_now env) (length (trace w)) m).1)
            outcome].
Proof.
  unfold mbind, M_bind, bind_M. rewrite run_clocked_run_on.
  unfold bot_send_message, call, emit, ret. cbn [fst snd trace].
  set (run := Schedule.run_on (datetime_now env) (length (trace w)) m).
  exists (send_message env (length (trace w ++ map ClockRead run.2)) chat_id
            (wording run.1)).
  destruct (send_message env _ chat_id _); cbn [snd trace];
    by rewrite <- app_assoc.
Qed.

(** X19.  The weekly announcement goes to the chat of the last text
    message handled, whether that message was addressed to the agent or
    not: after any text message from a chat other than 0, the callback
    takes the readings of the clock that [tool_check_schedule] takes (at
    most 105), sends the roster text they lead to to that chat, and does
    nothing else; when all readings show the same moment, the text is
    the roster of that moment.  Before any text message it does nothing
    at all. *)
Theorem weekly_announcement_follows_last_message (upd : Update) (msg : Message)
    (raw : string) w :
  message upd = Some msg -> text msg = Some raw -> raw <> "" ->
  effective_chat_id upd <> 0%Z ->
  (ANNOUNCE_CHAT_ID w = None -> weekly_announce_callback env w = (Ret tt, w))
  /\ let w1 := (handle_message env upd w).2 in
     let run := Schedule.run_on (datetime_now env) (length (trace w1))
                  Schedule.tool_check_schedule_clocked in
     (exists outcome,
         trace (weekly_announce_callback env w1).2
         = trace w1
           ++ map ClockRead run.2
           ++ [SendMessage (effective_chat_id upd)
                 (bytes [195; 176; 197; 184; 226; 128; 157; 226; 128; 157]%nat
                  +:+ " **SATURDAY CLEANING CHECK:**" +:+ NL +:+ NL +:+ run.1)
                 outcome])
     /\ 1 <= length run.2 <= 105
     /\ (forall now,
           Forall (fun reading => reading = now) run.2 ->
           run.1 = Schedule.tool_check_schedule now).
Proof.
  intros Hmsg Htext Hraw Hchat. split.
  { intros Hnone. unfold weekly_announce_callback. by rewrite Hnone. }
  cbv zeta.
  pose proof (handle_message_target env upd msg raw w Hmsg Htext Hraw) as Ht.
  set (w1 := (handle_message env upd w).2) in *.
  destruct (readings_of_check_schedule (datetime_now env) (length (trace w1)))
    as (Hcount & _ & Hstill).
  split; [|by split].
  unfold weekly_announce_callback. rewrite Ht.
  destruct (effective_chat_id upd =? 0)%Z eqn:E; [apply Z.eqb_eq in E; congruence|].
  unfold run_check_schedule.
  exact (announce_trace Schedule.tool_check_schedule_clocked (effective_chat_id upd)
           (fun sched => bytes [195; 176; 197; 184; 226; 128; 157; 226; 128; 157]%nat
                         +:+ " **SATURDAY CLEANING CHECK:**" +:+ NL +:+ NL +:+ sched) w1).
Qed.

End HandlerEffects.

Section EffectsExamples.
Import Bot Directive CalcEval.

Lemma weekly_announcement_follows_last_message_witness :
  weekly_announce_callback (scripted_env "ja" (Ret tt)) fresh_world = (Ret tt, fresh_world)
  /\ length (Schedule.run_on (datetime_now (scripted_env "ja" (Ret tt)))
               (length (trace (handle_message (scripted_env "ja" (Ret tt))
                                 (group_message "hallo zusammen") fresh_world).2))
               Schedule.tool_check_schedule_clocked).2 <= 105.
Proof.
  destruct (weekly_announcement_follows_last_message (scripted_env "ja" (Ret tt))
              (group_message "hallo zusammen") _ "hallo zusammen" fresh_world
              eq_refl eq_refl ltac:(discriminate) ltac:(discriminate))
    as (Hnone & _ & Hcount & _).
  split; [exact (Hnone eq_refl)|]. exact (proj2 Hcount).
Defined.

End EffectsExamples.
